(** * simple_arithmetic: scanner, recursive-descent parser and evaluator

    A shallow embedding of the Python package [simple_arithmetic]
    (token.py, exceptions.py, scanner.py, ast.py, parser.py, evaluator.py,
    repl.py) and the properties of its text -> tokens -> AST -> integer
    pipeline.

    Python values are modelled as follows.
    - A [str] is a list of Unicode code points ([N]); a one-character string
      such as [source[current]] is a single code point.
    - A Python [int] is a [Z]; cursors that never go below zero are [nat].
    - A call either returns a value, raises an exception, or (for the
      [while] loops, which are run on fuel) runs out of fuel: [outcome].
      Every loop is later shown never to run out of the fuel it is given.
    - The interpreter is CPython 3.11 with its default settings: [int] and
      [str] refuse more than 4300 digits, and the recursive evaluator is
      also given with the number of nested calls the interpreter still
      allows ([evaluate_within]). *)

From Stdlib Require Import List ZArith NArith Bool Lia String Ascii.
From Stdlib Require Import DecimalString.
Import ListNotations.

(* [String] also exports a [length]; the lists' one is meant throughout. *)
Abbreviation length := Datatypes.length.

(** ** Python strings and the [str] predicates the scanner relies on *)

Module Unicode.

Definition char : Type := N.
Definition str : Type := list char.

(** An ASCII literal as a [str]. *)
Definition lit (s : string) : str :=
  map N_of_ascii (list_ascii_of_string s).
Arguments lit s%_string.

Definition in_range (c : char) (r : N * N) : bool :=
  ((fst r <=? c) && (c <=? snd r))%N.

Definition in_ranges (t : list (N * N)) (c : char) : bool :=
  existsb (in_range c) t.

(** [str.isnumeric]: code points whose Numeric_Type is Decimal, Digit or
    Numeric (Unicode 14.0.0, inclusive ranges). *)
Definition numeric_ranges : list (N * N) :=
  [
    (48, 57); (178, 179); (185, 185); (188, 190); (1632, 1641); (1776, 1785);
    (1984, 1993); (2406, 2415); (2534, 2543); (2548, 2553); (2662, 2671); (2790, 2799);
    (2918, 2927); (2930, 2935); (3046, 3058); (3174, 3183); (3192, 3198); (3302, 3311);
    (3416, 3422); (3430, 3448); (3558, 3567); (3664, 3673); (3792, 3801); (3872, 3891);
    (4160, 4169); (4240, 4249); (4969, 4988); (5870, 5872); (6112, 6121); (6128, 6137);
    (6160, 6169); (6470, 6479); (6608, 6618); (6784, 6793); (6800, 6809); (6992, 7001);
    (7088, 7097); (7232, 7241); (7248, 7257); (8304, 8304); (8308, 8313); (8320, 8329);
    (8528, 8578); (8581, 8585); (9312, 9371); (9450, 9471); (10102, 10131); (11517, 11517);
    (12295, 12295); (12321, 12329); (12344, 12346); (12690, 12693); (12832, 12841); (12872, 12879);
    (12881, 12895); (12928, 12937); (12977, 12991); (13317, 13317); (13443, 13443); (14378, 14378);
    (15181, 15181); (19968, 19968); (19971, 19971); (19975, 19975); (19977, 19977); (20061, 20061);
    (20108, 20108); (20116, 20116); (20118, 20118); (20159, 20160); (20191, 20191); (20200, 20200);
    (20237, 20237); (20336, 20336); (20740, 20740); (20806, 20806); (20841, 20841); (20843, 20843);
    (20845, 20845); (21313, 21313); (21315, 21317); (21324, 21324); (21441, 21444); (22235, 22235);
    (22769, 22769); (22777, 22777); (24186, 24186); (24318, 24319); (24332, 24334); (24336, 24336);
    (25342, 25342); (25420, 25420); (26578, 26578); (28422, 28422); (29590, 29590); (30334, 30334);
    (32902, 32902); (33836, 33836); (36014, 36014); (36019, 36019); (36144, 36144); (38433, 38433);
    (38470, 38470); (38476, 38476); (38520, 38520); (38646, 38646); (42528, 42537); (42726, 42735);
    (43056, 43061); (43216, 43225); (43264, 43273); (43472, 43481); (43504, 43513); (43600, 43609);
    (44016, 44025); (63851, 63851); (63859, 63859); (63864, 63864); (63922, 63922); (63953, 63953);
    (63955, 63955); (63997, 63997); (65296, 65305); (65799, 65843); (65856, 65912); (65930, 65931);
    (66273, 66299); (66336, 66339); (66369, 66369); (66378, 66378); (66513, 66517); (66720, 66729);
    (67672, 67679); (67705, 67711); (67751, 67759); (67835, 67839); (67862, 67867); (68028, 68029);
    (68032, 68047); (68050, 68095); (68160, 68168); (68221, 68222); (68253, 68255); (68331, 68335);
    (68440, 68447); (68472, 68479); (68521, 68527); (68858, 68863); (68912, 68921); (69216, 69246);
    (69405, 69414); (69457, 69460); (69573, 69579); (69714, 69743); (69872, 69881); (69942, 69951);
    (70096, 70105); (70113, 70132); (70384, 70393); (70736, 70745); (70864, 70873); (71248, 71257);
    (71360, 71369); (71472, 71483); (71904, 71922); (72016, 72025); (72784, 72812); (73040, 73049);
    (73120, 73129); (73664, 73684); (74752, 74862); (92768, 92777); (92864, 92873); (93008, 93017);
    (93019, 93025); (93824, 93846); (119520, 119539); (119648, 119672); (120782, 120831); (123200, 123209);
    (123632, 123641); (125127, 125135); (125264, 125273); (126065, 126123); (126125, 126127); (126129, 126132);
    (126209, 126253); (126255, 126269); (127232, 127244); (130032, 130041); (131073, 131073); (131172, 131172);
    (131298, 131298); (131361, 131361); (133418, 133418); (133507, 133507); (133516, 133516); (133532, 133532);
    (133866, 133866); (133885, 133885); (133913, 133913); (140176, 140176); (141720, 141720); (146203, 146203);
    (156269, 156269); (194704, 194704)
  ]%N.

(** [str.isdecimal]: code points of category Nd.  Every range is a
    sequence of runs 0..9, so the digit value of [c] in the range starting
    at [lo] is [(c - lo) mod 10]. *)
Definition decimal_ranges : list (N * N) :=
  [
    (48, 57); (1632, 1641); (1776, 1785); (1984, 1993); (2406, 2415); (2534, 2543);
    (2662, 2671); (2790, 2799); (2918, 2927); (3046, 3055); (3174, 3183); (3302, 3311);
    (3430, 3439); (3558, 3567); (3664, 3673); (3792, 3801); (3872, 3881); (4160, 4169);
    (4240, 4249); (6112, 6121); (6160, 6169); (6470, 6479); (6608, 6617); (6784, 6793);
    (6800, 6809); (6992, 7001); (7088, 7097); (7232, 7241); (7248, 7257); (42528, 42537);
    (43216, 43225); (43264, 43273); (43472, 43481); (43504, 43513); (43600, 43609); (44016, 44025);
    (65296, 65305); (66720, 66729); (68912, 68921); (69734, 69743); (69872, 69881); (69942, 69951);
    (70096, 70105); (70384, 70393); (70736, 70745); (70864, 70873); (71248, 71257); (71360, 71369);
    (71472, 71481); (71904, 71913); (72016, 72025); (72784, 72793); (73040, 73049); (73120, 73129);
    (92768, 92777); (92864, 92873); (93008, 93017); (120782, 120831); (123200, 123209); (123632, 123641);
    (125264, 125273); (130032, 130041)
  ]%N.

(** [str.isspace] (Unicode 14.0.0). *)
Definition space_ranges : list (N * N) :=
  [
    (9, 13); (28, 32); (133, 133); (160, 160); (5760, 5760); (8192, 8202);
    (8232, 8233); (8239, 8239); (8287, 8287); (12288, 12288)
  ]%N.

Definition isnumeric (c : char) : bool := in_ranges numeric_ranges c.
Definition isdecimal (c : char) : bool := in_ranges decimal_ranges c.
Definition isspace (c : char) : bool := in_ranges space_ranges c.

(** [unicodedata.decimal]. *)
Definition decimal (c : char) : option Z :=
  match find (in_range c) decimal_ranges with
  | Some (lo, _) => Some (Z.of_N ((c - lo) mod 10))
  | None => None
  end.

(** ASCII decimal digits, as the specification understands "digit". *)
Definition is_ascii_digit (c : char) : bool := ((48 <=? c) && (c <=? 57))%N.

(** The characters [int] strips around a number: the C-locale blanks, and
    above ASCII whatever [str.isspace] accepts (the separators 0x1c..0x1f
    are spaces for [str.isspace] but not for [int]). *)
Definition int_isspace (c : char) : bool :=
  (((9 <=? c) && (c <=? 13)) || (c =? 32) || ((127 <=? c) && isspace c))%N.

Fixpoint lstrip (s : str) : str :=
  match s with
  | c :: r => if int_isspace c then lstrip r else s
  | [] => []
  end.

Definition strip (s : str) : str := rev (lstrip (rev (lstrip s))).

(** Digits of a base-10 integer literal: decimal digits, single underscores
    allowed between two digits only. *)
Fixpoint int_digits (acc : Z) (after_digit : bool) (s : str) : option Z :=
  match s with
  | [] => if after_digit then Some acc else None
  | c :: r =>
      match decimal c with
      | Some d => int_digits (10 * acc + d) true r
      | None =>
          if (c =? 95)%N && after_digit then int_digits acc false r else None
      end
  end.

Arguments isnumeric : simpl never.
Arguments isdecimal : simpl never.
Arguments isspace : simpl never.
Arguments decimal : simpl never.
Arguments lit : simpl never.

End Unicode.
Export Unicode.

(** ** token.py *)

Inductive TokenType : Type :=
| PLUS
| MINUS
| MUL
| NUM.

(** [TokenType.X.value] *)
Definition TokenType_value (t : TokenType) : str :=
  match t with
  | PLUS => lit "PLUS"
  | MINUS => lit "MINUS"
  | MUL => lit "MUL"
  | NUM => lit "NUMBER"
  end.

(** [str(TokenType.X)], as interpolated by an f-string. *)
Definition TokenType_str (t : TokenType) : str :=
  match t with
  | PLUS => lit "TokenType.PLUS"
  | MINUS => lit "TokenType.MINUS"
  | MUL => lit "TokenType.MUL"
  | NUM => lit "TokenType.NUM"
  end.

(** [a is b] on enum members. *)
Definition TokenType_is (a b : TokenType) : bool :=
  match a, b with
  | PLUS, PLUS | MINUS, MINUS | MUL, MUL | NUM, NUM => true
  | _, _ => false
  end.

Record Token : Type := mkToken { type : TokenType; lexeme : str }.

(** ** exceptions.py, and the built-in exceptions the code can let escape *)

Inductive exn : Type :=
| UnexpectedInputError (message : str)
| ParseError (message : str)
| EvaluationError (message : str)
| IndexError
| ValueError
| UnboundLocalError
| RecursionError.

(** [str(e)] for the three exceptions of the package. *)
Definition exn_message (e : exn) : str :=
  match e with
  | UnexpectedInputError message => lit "Unexpected input: " ++ message
  | ParseError message => message
  | EvaluationError message => message
  | _ => []
  end.

(** The three error kinds of the package ([UnexpectedInputError] derives
    from [ValueError], the other two from [Exception]). *)
Definition is_pipeline_error (e : exn) : bool :=
  match e with
  | UnexpectedInputError _ | ParseError _ | EvaluationError _ => true
  | _ => false
  end.

(** ** Outcomes of a call *)

Inductive outcome (A : Type) : Type :=
| Ok (a : A)
| Raise (e : exn)
| OutOfFuel.

Arguments Ok {A} a.
Arguments Raise {A} e.
Arguments OutOfFuel {A}.

Definition bind {A B : Type} (x : outcome A) (k : A -> outcome B) : outcome B :=
  match x with
  | Ok a => k a
  | Raise e => Raise e
  | OutOfFuel => OutOfFuel
  end.

Declare Scope outcome_scope.
Delimit Scope outcome_scope with outcome.
Notation "x <- e ;; k" := (bind e (fun x => k))
  (at level 61, e at next level, right associativity) : outcome_scope.
Notation "' p <- e ;; k" := (bind e (fun p => k))
  (at level 61, p pattern, e at next level, right associativity) : outcome_scope.
Open Scope outcome_scope.

(** [seq[i]] for a cursor that is never negative. *)
Definition item {A : Type} (seq : list A) (i : nat) : outcome A :=
  match nth_error seq i with
  | Some x => Ok x
  | None => Raise IndexError
  end.

(** [seq[i]] for an arbitrary Python integer: a negative index counts from
    the end, and anything out of range raises [IndexError]. *)
Definition getitem {A : Type} (seq : list A) (i : Z) : outcome A :=
  let n := Z.of_nat (length seq) in
  let j := if (i <? 0)%Z then (i + n)%Z else i in
  if ((0 <=? j) && (j <? n))%Z then item seq (Z.to_nat j) else Raise IndexError.

(** [seq[start:stop]] for cursors that are never negative. *)
Definition slice {A : Type} (seq : list A) (start stop : nat) : list A :=
  firstn (stop - start) (skipn start seq).

(** [sys.get_int_max_str_digits()], the default limit on the number of
    digits [int] and [str] convert. *)
Definition int_max_str_digits : nat := 4300.

(** The digits of a literal that count towards the limit: all its
    characters but the underscores. *)
Definition count_digits (s : str) : nat :=
  length (filter (fun c => negb (c =? 95)%N) s).

(** [int(s)] for a string argument, base 10: optional blanks, an optional
    sign, digits; [ValueError] otherwise, and also when there are more than
    [int_max_str_digits] digits. *)
Definition int (s : str) : outcome Z :=
  let s := strip s in
  let '(sign, s) :=
    match s with
    | c :: r =>
        if (c =? 43)%N then (1%Z, r)
        else if (c =? 45)%N then ((-1)%Z, r)
        else (1%Z, s)
    | [] => (1%Z, s)
    end in
  match int_digits 0 false s with
  | Some v =>
      if int_max_str_digits <? count_digits s then Raise ValueError
      else Ok (sign * v)%Z
  | None => Raise ValueError
  end.

(** ** scanner.py *)

Module Scanner.

Definition scan_operator (lexeme : char) : outcome Token :=
  type <-
    (if (lexeme =? 43)%N then Ok PLUS
     else if (lexeme =? 45)%N then Ok MINUS
     else if (lexeme =? 42)%N then Ok MUL
     else Raise UnboundLocalError) ;;
  Ok (mkToken type [lexeme]).

(** The loop of [__scan_number]:
    [while current < len(source) and source[current].isnumeric()]. *)
Fixpoint scan_number_loop (fuel : nat) (source : str) (current : nat)
  : outcome nat :=
  continue <-
    (if current <? length source
     then c <- item source current ;; Ok (isnumeric c)
     else Ok false) ;;
  if continue : bool then
    match fuel with
    | O => OutOfFuel
    | S fuel' => scan_number_loop fuel' source (current + 1)
    end
  else Ok current.

Definition scan_number (start : nat) (source : str) : outcome (nat * Token) :=
  current <- scan_number_loop (length source) source start ;;
  let num := slice source start current in
  Ok (current, mkToken NUM num).

(** The [case "+" | "-" | "*"] pattern. *)
Definition is_operator_char (lexeme : char) : bool :=
  ((lexeme =? 43) || (lexeme =? 45) || (lexeme =? 42))%N.

(** The loop of [scan]: [while current < len(source)]. *)
Fixpoint scan_loop (fuel : nat) (source : str) (current : nat)
  (tokens : list Token) : outcome (list Token) :=
  if current <? length source then
    match fuel with
    | O => OutOfFuel
    | S fuel' =>
        lexeme <- item source current ;;
        if is_operator_char lexeme then
          token <- scan_operator lexeme ;;
          scan_loop fuel' source (current + 1) (tokens ++ [token])
        else if isnumeric lexeme then
          '(current', token) <- scan_number current source ;;
          scan_loop fuel' source current' (tokens ++ [token])
        else if isspace lexeme then
          scan_loop fuel' source (current + 1) tokens
        else Raise (UnexpectedInputError [lexeme])
    end
  else Ok tokens.

Definition scan (source : str) : outcome (list Token) :=
  scan_loop (length source) source 0 [].

End Scanner.

(** ** ast.py *)

Inductive Node : Type :=
| BinOp (left : Node) (operator : TokenType) (right : Node)
| Literal (value : Token).

(** The visitor protocol.  A visitor's [visit_BinOp] obtains the results of
    the two children by calling [accept] on them, left child first; here
    [accept] makes those two calls and hands their results to
    [visit_BinOp], which a visitor with effects sequences left to right. *)
Class NodeVisitor (RT : Type) : Type := {
  visit_BinOp : RT -> TokenType -> RT -> RT;
  visit_Literal : Token -> RT
}.

Fixpoint accept {RT : Type} (visitor : NodeVisitor RT) (node : Node) : RT :=
  match node with
  | BinOp left_ operator right_ =>
      visit_BinOp (accept visitor left_) operator (accept visitor right_)
  | Literal value => visit_Literal value
  end.

(** [f"({bin_op.operator.value} {left} {right})"] *)
#[export] Instance Formatter : NodeVisitor str := {
  visit_BinOp left operator right :=
    lit "(" ++ TokenType_value operator ++ lit " " ++ left ++ lit " "
      ++ right ++ lit ")";
  visit_Literal value := lexeme value
}.

(** ** parser.py *)

Module Parser.

(** The parser object: [self.__tokens] and [self.__current]. *)
Record state : Type := mkState { tokens : list Token; current : Z }.

(** A method of the parser: it reads and updates [self], and may raise. *)
Definition M (A : Type) : Type := state -> outcome (A * state).

Definition ret {A : Type} (a : A) : M A := fun self => Ok (a, self).

Definition raise {A : Type} (e : exn) : M A := fun _ => Raise e.

Definition out_of_fuel {A : Type} : M A := fun _ => OutOfFuel.

Definition mbind {A B : Type} (m : M A) (k : A -> M B) : M B :=
  fun self =>
    match m self with
    | Ok (a, self') => k a self'
    | Raise e => Raise e
    | OutOfFuel => OutOfFuel
    end.

Declare Scope parser_scope.
Delimit Scope parser_scope with parser.
Notation "x <- e ;; k" := (mbind e (fun x => k))
  (at level 61, e at next level, right associativity) : parser_scope.
Notation "e ;; k" := (mbind e (fun _ => k))
  (at level 61, right associativity) : parser_scope.
Local Open Scope parser_scope.

(** [self.__tokens[i]] *)
Definition tokens_at (i : state -> Z) : M Token :=
  fun self =>
    match getitem (tokens self) (i self) with
    | Ok t => Ok (t, self)
    | Raise e => Raise e
    | OutOfFuel => OutOfFuel
    end.

Definition is_last : M bool :=
  fun self =>
    Ok ((current self =? Z.of_nat (length (tokens self)) - 1)%Z, self).

Definition peek : M Token := tokens_at current.

Definition previous : M Token := tokens_at (fun self => (current self - 1)%Z).

Definition advance : M unit :=
  last <- is_last ;;
  if negb last
  then fun self => Ok (tt, mkState (tokens self) (current self + 1))
  else ret tt.

Definition expected (token_type : TokenType) : M bool :=
  last <- is_last ;;
  if last : bool then ret false
  else t <- peek ;; ret (TokenType_is (type t) token_type).

(** [__match], over its variadic [token_types]; [match] is a keyword here. *)
Fixpoint match_ (token_types : list TokenType) : M bool :=
  match token_types with
  | [] => ret false
  | token_type :: rest =>
      e <- expected token_type ;;
      if e : bool then advance ;; ret true else match_ rest
  end.

Definition literal : M Node :=
  t <- tokens_at current ;;
  if TokenType_is NUM (type t) then
    current_token <- peek ;;
    advance ;;
    ret (Literal current_token)
  else raise (ParseError (lit "Wrong syntax")).

(** The loop of [__factor]: [while self.__match(MUL)]. *)
Fixpoint factor_loop (fuel : nat) (factor : Node) : M Node :=
  continue <- match_ [MUL] ;;
  if continue : bool then
    match fuel with
    | O => out_of_fuel
    | S fuel' =>
        p <- previous ;;
        let operator := type p in
        right_ <- literal ;;
        factor_loop fuel' (BinOp factor operator right_)
    end
  else ret factor.

Definition factor (fuel : nat) : M Node :=
  factor <- literal ;;
  factor_loop fuel factor.

(** The loop of [__term]: [while self.__match(PLUS, MINUS)]; [n] is the
    fuel handed to each call of [__factor]. *)
Fixpoint term_loop (n fuel : nat) (term : Node) : M Node :=
  continue <- match_ [PLUS; MINUS] ;;
  if continue : bool then
    match fuel with
    | O => out_of_fuel
    | S fuel' =>
        p <- previous ;;
        let operator := type p in
        right_ <- factor n ;;
        term_loop n fuel' (BinOp term operator right_)
    end
  else ret term.

Definition term (fuel : nat) : M Node :=
  term <- factor fuel ;;
  term_loop fuel fuel term.

Definition parse (tokens : list Token) : outcome Node :=
  match term (length tokens) (mkState tokens 0) with
  | Ok (node, _) => Ok node
  | Raise e => Raise e
  | OutOfFuel => OutOfFuel
  end.

End Parser.

(** ** evaluator.py *)

#[export] Instance Evaluator : NodeVisitor (outcome Z) := {
  visit_BinOp left operator right :=
    left <- left ;;
    right <- right ;;
    match operator with
    | PLUS => Ok (left + right)%Z
    | MINUS => Ok (left - right)%Z
    | MUL => Ok (left * right)%Z
    | _ =>
        Raise (EvaluationError
                 (lit "Unknown operator: " ++ TokenType_str operator))
    end;
  visit_Literal literal := int (lexeme literal)
}.

Definition evaluate (ast : Node) : outcome Z := accept Evaluator ast.

(** ** The evaluator under the interpreter's recursion limit

    Every call of a Python function needs a frame, and the interpreter
    raises [RecursionError] instead of entering a function when no frame is
    left.  The evaluator is the one part of the package whose calls nest to
    a depth that depends on the input: [evaluate] calls [accept] on the
    root, and every [accept] calls a [visit_...] method, which calls
    [accept] on the children.  (The built-ins [int], [len] and the operators
    need no frame.) *)

(** A call of a Python function, when [frames] more calls may be nested:
    the body runs with one frame less. *)
Definition call {A : Type} (frames : nat) (body : nat -> outcome A)
  : outcome A :=
  match frames with
  | O => Raise RecursionError
  | S frames' => body frames'
  end.

(** [Evaluator] with the frames: a result is a computation that is told how
    many calls may still be nested when [node.accept(self)] is called. *)
#[export] Instance Evaluator_within : NodeVisitor (nat -> outcome Z) := {
  visit_BinOp left operator right := fun frames =>
    call frames (fun frames =>        (* bin_op.accept(self) *)
    call frames (fun frames =>        (* self.visit_BinOp(bin_op) *)
      left <- left frames ;;
      right <- right frames ;;
      match operator with
      | PLUS => Ok (left + right)%Z
      | MINUS => Ok (left - right)%Z
      | MUL => Ok (left * right)%Z
      | _ =>
          Raise (EvaluationError
                   (lit "Unknown operator: " ++ TokenType_str operator))
      end));
  visit_Literal literal := fun frames =>
    call frames (fun frames =>        (* literal.accept(self) *)
    call frames (fun _ =>             (* self.visit_Literal(literal) *)
      int (lexeme literal)))
}.

(** [Evaluator.evaluate], called when [frames] more calls may be nested. *)
Definition evaluate_within (frames : nat) (ast : Node) : outcome Z :=
  call frames (fun frames => accept Evaluator_within ast frames).

(** ** repl.py *)

Module SimpleArithmetic.

Definition eval (source : str) : outcome Z :=
  tokens <- Scanner.scan source ;;
  ast <- Parser.parse tokens ;;
  evaluate ast.

End SimpleArithmetic.

(** [SimpleArithmetic.eval] under the recursion limit: [frames] is the number
    of calls that may still be nested inside [eval].  The limit is modelled
    where it depends on the input, in the evaluator; the scanner and the
    parser nest their calls at most 3 and 6 deep whatever the input, and are
    taken to have the frames for that. *)
Definition eval_within (frames : nat) (source : str) : outcome Z :=
  tokens <- Scanner.scan source ;;
  ast <- Parser.parse tokens ;;
  evaluate_within frames ast.

(** Height of a tree, a literal having height 0. *)
Fixpoint height (node : Node) : nat :=
  match node with
  | BinOp left_ _ right_ => S (Nat.max (height left_) (height right_))
  | Literal _ => 0
  end.

(** The nested calls [eval] needs for a tree: [evaluate], then an [accept]
    and a [visit_...] for every level (and never fewer than the parser's
    6). *)
Definition frames_needed (ast : Node) : nat :=
  Nat.max 6 (2 * height ast + 3).

(** * Reference definitions used in the statements *)

(** ** The scanner, read off the remaining input

    [lex] consumes the part of the source that is still ahead of the cursor;
    it is the shape in which the properties of [Scanner.scan_loop] are
    established ([scan_loop_lex] connects the two). *)

(** Length of the longest prefix of numeric characters. *)
Fixpoint take_numeric (s : str) : nat :=
  match s with
  | c :: r => if isnumeric c then S (take_numeric r) else O
  | [] => O
  end.

Fixpoint lex (fuel : nat) (s : str) : outcome (list Token) :=
  match s with
  | [] => Ok []
  | c :: r =>
      match fuel with
      | O => OutOfFuel
      | S fuel' =>
          if Scanner.is_operator_char c then
            token <- Scanner.scan_operator c ;;
            tokens <- lex fuel' r ;;
            Ok (token :: tokens)
          else if isnumeric c then
            let n := take_numeric s in
            tokens <- lex fuel' (skipn n s) ;;
            Ok (mkToken NUM (firstn n s) :: tokens)
          else if isspace c then lex fuel' r
          else Raise (UnexpectedInputError [c])
      end
  end.

(** [lex] with all the fuel it can need. *)
Definition lexT (s : str) : outcome (list Token) := lex (length s) s.

Definition starts_numeric (s : str) : bool :=
  match s with
  | c :: _ => isnumeric c
  | [] => false
  end.

Definition ends_numeric (s : str) : bool := starts_numeric (rev s).

(** A character the scanner has a case for. *)
Definition scannable (c : char) : bool :=
  Scanner.is_operator_char c || isnumeric c || isspace c.

(** Two range tables with no code point in common. *)
Definition ranges_apart (t1 t2 : list (N * N)) : bool :=
  forallb (fun r1 =>
    forallb (fun r2 => ((snd r1 <? fst r2) || (snd r2 <? fst r1))%N) t2) t1.

(** ** Decimal literals *)

(** The value of a string of ASCII decimal digits, most significant first. *)
Definition digits_value (ds : str) : Z :=
  fold_left (fun acc c => (10 * acc + (Z.of_N c - 48))%Z) ds 0%Z.

(** ** Token sequences of the grammar

    [term := factor ((PLUS|MINUS) factor)*], [factor := literal (MUL literal)*],
    [literal := NUM], as data: a factor is its first literal and the
    (MUL token, literal) pairs after it; a term is its first factor and the
    (operator token, factor) pairs after it. *)

Definition factor_syntax : Type := (Token * list (Token * Token))%type.
Definition term_syntax : Type :=
  (factor_syntax * list (Token * factor_syntax))%type.

Definition is_NUM (t : Token) : bool := TokenType_is NUM (type t).
Definition is_MUL (t : Token) : bool := TokenType_is (type t) MUL.
Definition is_additive (t : Token) : bool :=
  TokenType_is (type t) PLUS || TokenType_is (type t) MINUS.

Definition wf_mul_pair (p : Token * Token) : bool :=
  is_MUL (fst p) && is_NUM (snd p).

Definition wf_factor (f : factor_syntax) : bool :=
  is_NUM (fst f) && forallb wf_mul_pair (snd f).

Definition wf_add_pair (p : Token * factor_syntax) : bool :=
  is_additive (fst p) && wf_factor (snd p).

Definition wf_term (e : term_syntax) : bool :=
  wf_factor (fst e) && forallb wf_add_pair (snd e).

Definition mul_pair_tokens (p : Token * Token) : list Token :=
  [fst p; snd p].

Definition factor_tokens (f : factor_syntax) : list Token :=
  fst f :: flat_map mul_pair_tokens (snd f).

Definition add_pair_tokens (p : Token * factor_syntax) : list Token :=
  fst p :: factor_tokens (snd p).

Definition term_tokens (e : term_syntax) : list Token :=
  factor_tokens (fst e) ++ flat_map add_pair_tokens (snd e).

(** The tree the grammar assigns: operators of one level nest to the left,
    and every factor is a subtree of the term. *)
Definition factor_node (f : factor_syntax) : Node :=
  fold_left (fun acc p => BinOp acc MUL (Literal (snd p))) (snd f)
    (Literal (fst f)).

Definition term_node (e : term_syntax) : Node :=
  fold_left (fun acc p => BinOp acc (type (fst p)) (factor_node (snd p)))
    (snd e) (factor_node (fst e)).

(** Tokens after a complete term that [parse] never looks at: nothing, a
    single token of any kind, or a sequence that starts with a NUM. *)
Definition ignored_rest (rest : list Token) : bool :=
  match rest with
  | t :: _ :: _ => is_NUM t
  | _ => true
  end.

(** Tokens after a factor at which the loop of [__factor] stops. *)
Definition stops_factor (rest : list Token) : bool :=
  match rest with
  | t :: _ :: _ => negb (is_MUL t)
  | _ => true
  end.

(** The parser object with its cursor on the [i]-th token. *)
Definition cursor (ts : list Token) (i : nat) : Parser.state :=
  Parser.mkState ts (Z.of_nat i).

(** Where [__advance] leaves a cursor that was on the [i]-th token. *)
Definition advance_pos (ts : list Token) (i : nat) : nat :=
  if S i =? length ts then i else S i.

(** The cursor after [i] tokens have been read: it never leaves the last
    token. *)
Definition clamp (ts : list Token) (i : nat) : nat :=
  Nat.min i (length ts - 1).

(** ** Source text of the grammar

    The same two-level shape as [term_syntax], over text: every literal is
    its digits preceded by blanks, every operator is preceded by blanks. *)

Definition literal_text : Type := (str * str)%type.
Definition factor_text : Type :=
  (literal_text * list (str * literal_text))%type.
Definition term_text : Type :=
  (factor_text * list ((str * TokenType) * factor_text))%type.

Definition operator_char (t : TokenType) : char :=
  match t with
  | PLUS => 43%N
  | MINUS => 45%N
  | _ => 42%N
  end.

Definition wf_literal_text (l : literal_text) : bool :=
  forallb isspace (fst l) && negb (length (snd l) =? 0)
  && forallb is_ascii_digit (snd l).

Definition wf_mul_text (p : str * literal_text) : bool :=
  forallb isspace (fst p) && wf_literal_text (snd p).

Definition wf_factor_text (f : factor_text) : bool :=
  wf_literal_text (fst f) && forallb wf_mul_text (snd f).

Definition wf_add_text (p : (str * TokenType) * factor_text) : bool :=
  forallb isspace (fst (fst p))
  && (TokenType_is (snd (fst p)) PLUS || TokenType_is (snd (fst p)) MINUS)
  && wf_factor_text (snd p).

Definition wf_term_text (e : term_text) : bool :=
  wf_factor_text (fst e) && forallb wf_add_text (snd e).

Definition render_literal (l : literal_text) : str := fst l ++ snd l.

Definition render_mul (p : str * literal_text) : str :=
  fst p ++ operator_char MUL :: render_literal (snd p).

Definition render_factor (f : factor_text) : str :=
  render_literal (fst f) ++ flat_map render_mul (snd f).

Definition render_add (p : (str * TokenType) * factor_text) : str :=
  fst (fst p) ++ operator_char (snd (fst p)) :: render_factor (snd p).

Definition render_term (e : term_text) : str :=
  render_factor (fst e) ++ flat_map render_add (snd e).

(** The tokens of a text. *)
Definition literal_token (l : literal_text) : Token := mkToken NUM (snd l).

Definition operator_token (t : TokenType) : Token :=
  mkToken t [operator_char t].

Definition mul_of_text (p : str * literal_text) : Token * Token :=
  (operator_token MUL, literal_token (snd p)).

Definition factor_of_text (f : factor_text) : factor_syntax :=
  (literal_token (fst f), map mul_of_text (snd f)).

Definition add_of_text (p : (str * TokenType) * factor_text)
  : Token * factor_syntax :=
  (operator_token (snd (fst p)), factor_of_text (snd p)).

Definition term_of_text (e : term_text) : term_syntax :=
  (factor_of_text (fst e), map add_of_text (snd e)).

(** The value of a text under the usual reading: a term is a sum and
    difference, taken from the left, of its factors; a factor is the product
    of its literals. *)
Definition literal_value (l : literal_text) : Z := digits_value (snd l).

Definition factor_value (f : factor_text) : Z :=
  fold_left (fun acc p => (acc * literal_value (snd p))%Z) (snd f)
    (literal_value (fst f)).

Definition term_value (e : term_text) : Z :=
  fold_left
    (fun acc p =>
       match snd (fst p) with
       | PLUS => (acc + factor_value (snd p))%Z
       | MINUS => (acc - factor_value (snd p))%Z
       | _ => acc
       end)
    (snd e) (factor_value (fst e)).

(** ** Chains of operators of one precedence level

    A literal followed by (operator, literal) links, as text; in a chain all
    operators are additive, or all are MUL. *)

Definition chain_link : Type := ((str * TokenType) * literal_text)%type.
Definition chain_text : Type := (literal_text * list chain_link)%type.

Definition link_operator (p : chain_link) : TokenType := snd (fst p).

Definition wf_link (p : chain_link) : bool :=
  forallb isspace (fst (fst p)) && wf_literal_text (snd p).

Definition wf_chain_text (c : chain_text) : bool :=
  wf_literal_text (fst c) && forallb wf_link (snd c).

Definition additive_link (p : chain_link) : bool :=
  TokenType_is (link_operator p) PLUS || TokenType_is (link_operator p) MINUS.

Definition multiplicative_link (p : chain_link) : bool :=
  TokenType_is (link_operator p) MUL.

Definition same_precedence (c : chain_text) : bool :=
  forallb additive_link (snd c) || forallb multiplicative_link (snd c).

Definition render_link (p : chain_link) : str :=
  fst (fst p) ++ operator_char (link_operator p) :: render_literal (snd p).

Definition render_chain (c : chain_text) : str :=
  render_literal (fst c) ++ flat_map render_link (snd c).


(** The chain grouped from the left: [((l0 op1 l1) op2 l2) ...]. *)
Definition chain_node (c : chain_text) : Node :=
  fold_left
    (fun acc p => BinOp acc (link_operator p) (Literal (literal_token (snd p))))
    (snd c) (Literal (literal_token (fst c))).


(** A chain seen as a term: additive links join one-literal factors,
    multiplicative links make up a single factor. *)
Definition additive_link_term (p : chain_link)
  : (str * TokenType) * factor_text :=
  (fst p, (snd p, [])).

Definition multiplicative_link_term (p : chain_link) : str * literal_text :=
  (fst (fst p), snd p).

Definition term_of_additive_chain (c : chain_text) : term_text :=
  ((fst c, []), map additive_link_term (snd c)).

Definition term_of_multiplicative_chain (c : chain_text) : term_text :=
  ((fst c, map multiplicative_link_term (snd c)), []).

(** ** Texts within the digit limit of [int] *)

Definition literal_fits (l : literal_text) : bool :=
  length (snd l) <=? int_max_str_digits.

Definition mul_fits (p : str * literal_text) : bool := literal_fits (snd p).

Definition factor_fits (f : factor_text) : bool :=
  literal_fits (fst f) && forallb mul_fits (snd f).

Definition add_fits (p : (str * TokenType) * factor_text) : bool :=
  factor_fits (snd p).

Definition term_fits (e : term_text) : bool :=
  factor_fits (fst e) && forallb add_fits (snd e).



(** The leaf for a literal written in ASCII. *)
Definition number (s : string) : Node := Literal (mkToken NUM (lit s)).
Arguments number s%_string.

(** A call made with the cursor on token [i] raises, or returns with the
    cursor on a token that is not before [i]. *)
Definition progresses (ts : list Token) (i : nat)
  (r : outcome (Node * Parser.state)) : Prop :=
  (exists e, r = Raise e)
  \/ (exists node j, r = Ok (node, cursor ts j) /\ i <= j < length ts).


(** ** Tokens as the scanner makes them *)

(** An operator token carries its one character, a NUM token a non-empty
    run of numeric characters. *)
Definition scanned_token (t : Token) : bool :=
  match type t with
  | NUM => negb (length (lexeme t) =? 0) && forallb isnumeric (lexeme t)
  | operator =>
      match lexeme t with
      | [c] => (c =? operator_char operator)%N
      | _ => false
      end
  end.

Definition blank_free (s : str) : str := filter (fun c => negb (isspace c)) s.


(** The outcomes of evaluating a tree whose operators are all known. *)
Definition evaluates (r : outcome Z) : Prop :=
  r = Raise ValueError \/ exists z, r = Ok z.


(** ** repl.py: the loop

    The console is the list of lines [input] will return (without their
    newlines) and the list of strings written so far.  [input(">>> ")]
    writes its prompt, then returns the next line or raises [EOFError] when
    there is none; [print(x)] writes [str(x)] and a newline, unless [str]
    raises.  Nothing in [repl] catches an exception, so the loop ends the
    first time one is raised. *)

(** [str(z)] raises when [z] has more than [int_max_str_digits] digits, its
    sign apart: when its absolute value is at least 10 to that power. *)
Definition str_digits_exceeded (z : Z) : bool :=
  (10 ^ Z.of_nat int_max_str_digits <=? Z.abs z)%Z.

(** [str(z)] for an integer. *)
Definition str_of_int (z : Z) : outcome str :=
  if str_digits_exceeded z then Raise ValueError
  else Ok (lit (NilZero.string_of_int (Z.to_int z))).

(** How a run of [repl] ends. *)
Inductive termination : Type :=
| EOFError
| Uncaught (e : exn)
| StillRunning.

Definition prompt : str := lit ">>> ".
Definition newline : str := [10%N].

(** [print(self.eval(line))], with [frames] calls allowed inside [eval]:
    the string written, or the exception of [eval] or of [str]. *)
Definition answer (frames : nat) (line : str) : outcome str :=
  result <- eval_within frames line ;;
  text <- str_of_int result ;;
  Ok (text ++ newline).

(** The loop of [repl]: [while True: print(self.eval(self.__read()))]. *)
Fixpoint repl_loop (fuel frames : nat) (stdin stdout : list str)
  : termination * list str :=
  match fuel with
  | O => (StillRunning, stdout)
  | S fuel' =>
      let stdout := stdout ++ [prompt] in
      match stdin with
      | [] => (EOFError, stdout)
      | line :: stdin' =>
          match answer frames line with
          | Ok written => repl_loop fuel' frames stdin' (stdout ++ [written])
          | Raise e => (Uncaught e, stdout)
          | OutOfFuel => (StillRunning, stdout)
          end
      end
  end.

Definition repl (frames : nat) (stdin : list str) : termination * list str :=
  repl_loop (S (length stdin)) frames stdin
    [lit "Simple arithmetic" ++ newline].

(** What the loop writes for a line that is answered with [written]. *)
Definition answered (written : str) : list str := [prompt; written].

(** The lines [good] are answered with [outputs], in order. *)
Definition all_answered (frames : nat) (good outputs : list str) : Prop :=
  Forall2 (fun line written => answer frames line = Ok written) good outputs.

(** ** Trees the formatter prints without ambiguity *)

(** Every literal is a NUM token with a non-empty lexeme of numeric
    characters, as in the trees [parse] builds from the tokens of [scan]. *)
Fixpoint printable (node : Node) : bool :=
  match node with
  | BinOp left_ _ right_ => printable left_ && printable right_
  | Literal value => is_NUM value && scanned_token value
  end.

(** ** The cursor of the parser *)

(** The cursor is on a token of the sequence. *)
Definition inside (self : Parser.state) : Prop :=
  (0 <= Parser.current self < Z.of_nat (length (Parser.tokens self)))%Z.

(** A method left the sequence alone and the cursor on a token, not before
    where it was. *)
Definition kept (self self' : Parser.state) : Prop :=
  Parser.tokens self' = Parser.tokens self
  /\ inside self'
  /\ (Parser.current self <= Parser.current self')%Z.

(** The outcomes of evaluating, under the recursion limit, a tree whose
    operators are all known. *)
Definition evaluates_within (r : outcome Z) : Prop :=
  r = Raise ValueError \/ r = Raise RecursionError \/ exists z, r = Ok z.

(** Number of [BinOp] nodes on the way to the leftmost literal of a tree,
    the one that is evaluated first. *)
Fixpoint left_depth (node : Node) : nat :=
  match node with
  | BinOp left_ _ _ => S (left_depth left_)
  | Literal _ => 0
  end.
(** * Properties *)

(** Lengths of concatenations, pushed down to the pieces. *)
Ltac list_len :=
  repeat first [ rewrite length_app | progress cbn [length] ].

(** ** Character classes *)

Lemma in_range_spec (c : char) (r : N * N) :
  in_range c r = true <-> (fst r <= c <= snd r)%N.
Proof.
  unfold in_range. rewrite andb_true_iff, !N.leb_le. tauto.
Qed.

Lemma ranges_apart_sound (t1 t2 : list (N * N)) (c : char) :
  ranges_apart t1 t2 = true ->
  in_ranges t1 c = true -> in_ranges t2 c = false.
Proof.
  unfold ranges_apart, in_ranges. intros Hap H1.
  apply existsb_exists in H1 as (r1 & Hin1 & Hr1).
  apply not_true_is_false. intros H2.
  apply existsb_exists in H2 as (r2 & Hin2 & Hr2).
  rewrite forallb_forall in Hap. specialize (Hap _ Hin1).
  rewrite forallb_forall in Hap. specialize (Hap _ Hin2).
  apply in_range_spec in Hr1, Hr2.
  apply orb_true_iff in Hap as [H | H]; apply N.ltb_lt in H; lia.
Qed.

Lemma numeric_not_space (c : char) : isnumeric c = true -> isspace c = false.
Proof.
  apply ranges_apart_sound. vm_compute. reflexivity.
Qed.

Lemma operator_char_cases (c : char) :
  Scanner.is_operator_char c = true -> c = 43%N \/ c = 45%N \/ c = 42%N.
Proof.
  unfold Scanner.is_operator_char. rewrite !orb_true_iff, !N.eqb_eq. tauto.
Qed.

Lemma operator_not_numeric (c : char) :
  Scanner.is_operator_char c = true -> isnumeric c = false.
Proof.
  intros H. apply operator_char_cases in H as [-> | [-> | ->]];
    vm_compute; reflexivity.
Qed.

Lemma operator_not_space (c : char) :
  Scanner.is_operator_char c = true -> isspace c = false.
Proof.
  intros H. apply operator_char_cases in H as [-> | [-> | ->]];
    vm_compute; reflexivity.
Qed.

Lemma space_not_operator (c : char) :
  isspace c = true -> Scanner.is_operator_char c = false.
Proof.
  intros H. destruct (Scanner.is_operator_char c) eqn:E; [ | reflexivity ].
  apply operator_not_space in E. congruence.
Qed.

Lemma space_not_numeric (c : char) : isspace c = true -> isnumeric c = false.
Proof.
  intros H. destruct (isnumeric c) eqn:E; [ | reflexivity ].
  apply numeric_not_space in E. congruence.
Qed.

Lemma ascii_digit_spec (c : char) :
  is_ascii_digit c = true <-> (48 <= c <= 57)%N.
Proof.
  unfold is_ascii_digit. rewrite andb_true_iff, !N.leb_le. tauto.
Qed.

Lemma in_ranges_head (r : N * N) (t : list (N * N)) (c : char) :
  in_range c r = true -> in_ranges (r :: t) c = true.
Proof.
  intros H. unfold in_ranges. cbn [existsb]. rewrite H. reflexivity.
Qed.

Lemma ascii_digit_numeric (c : char) :
  is_ascii_digit c = true -> isnumeric c = true.
Proof.
  intros H. unfold isnumeric, numeric_ranges. apply in_ranges_head. exact H.
Qed.

Lemma ascii_digit_decimal (c : char) :
  is_ascii_digit c = true -> decimal c = Some (Z.of_N c - 48)%Z.
Proof.
  intros H. unfold decimal, decimal_ranges. cbn [find].
  change (in_range c (48, 57)%N) with (is_ascii_digit c). rewrite H.
  apply ascii_digit_spec in H. f_equal.
  rewrite N.mod_small by lia. lia.
Qed.

Lemma ascii_digit_not_operator (c : char) :
  is_ascii_digit c = true -> Scanner.is_operator_char c = false.
Proof.
  intros H. destruct (Scanner.is_operator_char c) eqn:E; [ | reflexivity ].
  apply ascii_digit_numeric in H. apply operator_not_numeric in E. congruence.
Qed.

(** ** Scanner: the cursor loop and the remaining input *)

Lemma skipn_item {A : Type} {s : list A} {i : nat} {c : A} :
  nth_error s i = Some c -> skipn i s = c :: skipn (S i) s.
Proof.
  revert i. induction s as [ | a s IH]; intros [ | i] H; cbn in H |- *;
    try discriminate.
  - congruence.
  - apply IH in H. exact H.
Qed.

Lemma item_in_range {A : Type} (s : list A) {i : nat} :
  i < length s -> exists c, nth_error s i = Some c.
Proof.
  intros H. destruct (nth_error s i) as [c | ] eqn:E; [ eauto | ].
  apply nth_error_None in E. lia.
Qed.

Lemma take_numeric_le (s : str) : take_numeric s <= length s.
Proof.
  induction s as [ | c r IH]; cbn; [ lia | ].
  destruct (isnumeric c); lia.
Qed.

Lemma scan_number_loop_lex (fuel : nat) (source : str) (current : nat) :
  length source - current <= fuel ->
  Scanner.scan_number_loop fuel source current
  = Ok (current + take_numeric (skipn current source)).
Proof.
  revert current. induction fuel as [ | fuel IH]; intros current Hfuel;
    cbn [Scanner.scan_number_loop];
    destruct (current <? length source) eqn:Hlt.
  - apply Nat.ltb_lt in Hlt. lia.
  - apply Nat.ltb_ge in Hlt. rewrite skipn_all2 by exact Hlt. cbn.
    f_equal. lia.
  - apply Nat.ltb_lt in Hlt.
    destruct (item_in_range source Hlt) as [c Hc].
    unfold item. rewrite Hc, (skipn_item Hc). cbn [bind take_numeric].
    destruct (isnumeric c).
    + rewrite IH by lia. f_equal. rewrite Nat.add_1_r. lia.
    + f_equal. lia.
  - apply Nat.ltb_ge in Hlt. rewrite skipn_all2 by exact Hlt. cbn.
    f_equal. lia.
Qed.

Lemma scan_number_lex (start : nat) (source : str) :
  let n := take_numeric (skipn start source) in
  Scanner.scan_number start source
  = Ok (start + n, mkToken NUM (firstn n (skipn start source))).
Proof.
  intros n. unfold Scanner.scan_number.
  rewrite scan_number_loop_lex by lia. cbn. unfold slice.
  fold n. replace (start + n - start) with n by lia. reflexivity.
Qed.

Lemma scan_loop_lex (fuel : nat) (source : str) (current : nat)
  (tokens : list Token) :
  Scanner.scan_loop fuel source current tokens
  = (ts <- lex fuel (skipn current source) ;; Ok (tokens ++ ts)).
Proof.
  revert current tokens.
  induction fuel as [ | fuel IH]; intros current tokens;
    cbn [Scanner.scan_loop];
    destruct (current <? length source) eqn:Hlt.
  - apply Nat.ltb_lt in Hlt.
    destruct (item_in_range source Hlt) as [c Hc].
    rewrite (skipn_item Hc). reflexivity.
  - apply Nat.ltb_ge in Hlt. rewrite skipn_all2 by exact Hlt. cbn [lex bind].
    rewrite app_nil_r. reflexivity.
  - apply Nat.ltb_lt in Hlt.
    destruct (item_in_range source Hlt) as [c Hc].
    unfold item at 1. rewrite Hc. cbn [bind].
    pose proof (skipn_item Hc) as Hskip.
    rewrite Hskip. cbn [lex]. rewrite <- Hskip.
    destruct (Scanner.is_operator_char c).
    + destruct (Scanner.scan_operator c) as [token | e | ]; cbn [bind];
        try reflexivity.
      rewrite IH, Nat.add_1_r.
      destruct (lex fuel (skipn (S current) source)); cbn [bind];
        try reflexivity.
      rewrite <- app_assoc. reflexivity.
    + destruct (isnumeric c).
      * rewrite scan_number_lex. cbn [bind]. rewrite IH.
        cbv zeta.
        rewrite skipn_skipn, (Nat.add_comm current).
        destruct (lex fuel _); cbn [bind]; try reflexivity.
        rewrite <- app_assoc. reflexivity.
      * destruct (isspace c); [ | reflexivity ].
        rewrite IH, Nat.add_1_r. reflexivity.
  - apply Nat.ltb_ge in Hlt. rewrite skipn_all2 by exact Hlt. cbn [lex bind].
    rewrite app_nil_r. reflexivity.
Qed.

Lemma lex_fuel (f1 f2 : nat) (s : str) :
  length s <= f1 -> length s <= f2 -> lex f1 s = lex f2 s.
Proof.
  revert f2 s. induction f1 as [ | f1 IH]; intros f2 s H1 H2.
  - destruct s; [ destruct f2; reflexivity | cbn in H1; lia ].
  - destruct s as [ | c r]; [ destruct f2; reflexivity | ].
    destruct f2 as [ | f2]; [ cbn in H2; lia | ].
    cbn in H1, H2. cbn [lex].
    rewrite (IH f2 r) by lia.
    destruct (isnumeric c) eqn:Hn; [ | reflexivity ].
    cbn [take_numeric]. rewrite Hn. cbn [skipn].
    rewrite (IH f2 (skipn (take_numeric r) r)); [ reflexivity | | ];
      rewrite length_skipn; lia.
Qed.

Lemma lexT_nil : lexT [] = Ok [].
Proof. reflexivity. Qed.

Lemma lexT_cons (c : char) (r : str) :
  lexT (c :: r)
  = if Scanner.is_operator_char c then
      token <- Scanner.scan_operator c ;;
      tokens <- lexT r ;;
      Ok (token :: tokens)
    else if isnumeric c then
      let n := take_numeric r in
      tokens <- lexT (skipn n r) ;;
      Ok (mkToken NUM (c :: firstn n r) :: tokens)
    else if isspace c then lexT r
    else Raise (UnexpectedInputError [c]).
Proof.
  unfold lexT. cbn [length lex].
  destruct (isnumeric c) eqn:Hn; [ | reflexivity ].
  cbn [take_numeric]. rewrite Hn. cbn [skipn firstn].
  rewrite (lex_fuel (length r) (length (skipn (take_numeric r) r))
             (skipn (take_numeric r) r));
    [ reflexivity | rewrite length_skipn; lia | lia ].
Qed.

Lemma scan_lexT (source : str) : Scanner.scan source = lexT source.
Proof.
  unfold Scanner.scan, lexT. rewrite scan_loop_lex. cbn [skipn].
  destruct (lex _ _); reflexivity.
Qed.

Lemma lexT_total (s : str) : lexT s <> OutOfFuel.
Proof.
  remember (length s) as n eqn:Hn. revert s Hn.
  induction n as [n IH] using lt_wf_ind. intros s Hn.
  destruct s as [ | c r]; [ discriminate | ].
  rewrite lexT_cons. cbn in Hn.
  destruct (Scanner.is_operator_char c).
  - unfold Scanner.scan_operator.
    destruct (c =? 43)%N; [ | destruct (c =? 45)%N; [ | destruct (c =? 42)%N ] ];
      cbn [bind]; try discriminate;
      (pose proof (IH (length r) ltac:(lia) r eq_refl);
       destruct (lexT r); cbn [bind]; congruence).
  - destruct (isnumeric c).
    + cbn zeta.
      pose proof (IH (length (skipn (take_numeric r) r))
                    ltac:(rewrite length_skipn; lia) _ eq_refl).
      destruct (lexT (skipn (take_numeric r) r)); cbn [bind]; congruence.
    + destruct (isspace c); [ | discriminate ].
      apply (IH (length r)); [ lia | reflexivity ].
Qed.

(** The scanner's loop always terminates within the fuel [scan] gives it. *)
Lemma scan_total (source : str) : Scanner.scan source <> OutOfFuel.
Proof. rewrite scan_lexT. apply lexT_total. Qed.

(** ** Scanner: runs of numeric characters *)

Lemma numeric_not_operator (c : char) :
  isnumeric c = true -> Scanner.is_operator_char c = false.
Proof.
  intros H. destruct (Scanner.is_operator_char c) eqn:E; [ | reflexivity ].
  apply operator_not_numeric in E. congruence.
Qed.

Lemma take_numeric_app (a b : str) :
  take_numeric (a ++ b)
  = if take_numeric a =? length a then length a + take_numeric b
    else take_numeric a.
Proof.
  induction a as [ | c r IH]; cbn [app take_numeric length].
  - reflexivity.
  - destruct (isnumeric c); [ | reflexivity ].
    rewrite IH. cbn [Nat.eqb].
    destruct (take_numeric r =? length r); reflexivity.
Qed.

Lemma take_numeric_start (s : str) :
  starts_numeric s = false -> take_numeric s = 0.
Proof.
  destruct s as [ | c r]; cbn [starts_numeric take_numeric];
    [ reflexivity | ]. intros ->. reflexivity.
Qed.

Lemma take_numeric_all (s : str) :
  forallb isnumeric s = true -> take_numeric s = length s.
Proof.
  induction s as [ | c r IH]; cbn [forallb take_numeric length];
    [ reflexivity | ].
  intros H. apply andb_true_iff in H as [-> Hr]. rewrite IH by exact Hr.
  reflexivity.
Qed.

Lemma take_numeric_firstn (s : str) :
  forallb isnumeric (firstn (take_numeric s) s) = true.
Proof.
  induction s as [ | c r IH]; cbn [take_numeric]; [ reflexivity | ].
  destruct (isnumeric c) eqn:E; [ | reflexivity ].
  cbn [firstn forallb]. rewrite E, IH. reflexivity.
Qed.

Lemma take_numeric_skipn (s : str) :
  starts_numeric (skipn (take_numeric s) s) = false.
Proof.
  induction s as [ | c r IH]; cbn [take_numeric]; [ reflexivity | ].
  destruct (isnumeric c) eqn:E; [ exact IH | exact E ].
Qed.

Lemma take_numeric_full (s : str) :
  take_numeric s = length s -> forallb isnumeric s = true.
Proof.
  intros H. rewrite <- (firstn_all s), <- H. apply take_numeric_firstn.
Qed.

Lemma ends_numeric_app (a b : str) :
  b <> [] -> ends_numeric (a ++ b) = ends_numeric b.
Proof.
  intros Hb. unfold ends_numeric. rewrite rev_app_distr.
  destruct (rev b) as [ | x y] eqn:E; [ | reflexivity ].
  apply (f_equal (@rev char)) in E. rewrite rev_involutive in E.
  contradiction.
Qed.

Lemma ends_numeric_all (s : str) :
  s <> [] -> forallb isnumeric s = true -> ends_numeric s = true.
Proof.
  intros Hs H. unfold ends_numeric.
  destruct (rev s) as [ | x y] eqn:E.
  - apply (f_equal (@rev char)) in E. rewrite rev_involutive in E.
    contradiction.
  - cbn [starts_numeric]. rewrite forallb_forall in H. apply H.
    apply in_rev. rewrite E. left. reflexivity.
Qed.

(** ** Scanner: what a prefix of the input contributes *)

Lemma lexT_space_prefix (w rest : str) :
  forallb isspace w = true -> lexT (w ++ rest) = lexT rest.
Proof.
  induction w as [ | c w IH]; cbn [app forallb]; intros H;
    [ reflexivity | ].
  apply andb_true_iff in H as [Hc Hw].
  rewrite lexT_cons, (space_not_operator _ Hc), (space_not_numeric _ Hc), Hc.
  apply IH, Hw.
Qed.

Lemma lexT_numeric_prefix (ds rest : str) :
  ds <> [] -> forallb isnumeric ds = true -> starts_numeric rest = false ->
  lexT (ds ++ rest) = (tokens <- lexT rest ;; Ok (mkToken NUM ds :: tokens)).
Proof.
  intros Hne Hds Hrest. destruct ds as [ | d ds]; [ contradiction | ].
  cbn [forallb] in Hds. apply andb_true_iff in Hds as [Hd Hds].
  cbn [app]. rewrite lexT_cons, (numeric_not_operator _ Hd), Hd.
  cbv zeta. rewrite take_numeric_app, (take_numeric_all _ Hds), Nat.eqb_refl.
  rewrite (take_numeric_start _ Hrest), Nat.add_0_r.
  rewrite skipn_app, skipn_all, Nat.sub_diag, firstn_app, firstn_all,
    Nat.sub_diag.
  cbn [skipn firstn app]. rewrite app_nil_r. reflexivity.
Qed.

Lemma scan_operator_ok (c : char) :
  Scanner.is_operator_char c = true ->
  exists t, Scanner.scan_operator c = Ok (mkToken t [c]).
Proof.
  intros H. apply operator_char_cases in H as [-> | [-> | ->]];
    eexists; reflexivity.
Qed.

(** Scanning distributes over a split that does not cut a run of numeric
    characters in two. *)
Lemma lexT_app (a b : str) :
  ends_numeric a && starts_numeric b = false ->
  lexT (a ++ b) = (ta <- lexT a ;; tb <- lexT b ;; Ok (ta ++ tb)).
Proof.
  remember (length a) as n eqn:Hn. revert a Hn.
  induction n as [n IH] using lt_wf_ind. intros a Hn Hcut.
  destruct a as [ | c r].
  - cbn [app]. rewrite lexT_nil. cbn [bind]. destruct (lexT b); reflexivity.
  - cbn [length] in Hn. cbn [app]. rewrite !lexT_cons.
    assert (Hr : r <> [] -> ends_numeric r && starts_numeric b = false).
    { intros Hne. rewrite <- Hcut. f_equal.
      symmetry. apply (ends_numeric_app [c] r Hne). }
    assert (Hrec : lexT (r ++ b)
                   = (ta <- lexT r ;; tb <- lexT b ;; Ok (ta ++ tb))).
    { destruct r as [ | c' r'].
      - cbn [app]. rewrite lexT_nil. cbn [bind].
        destruct (lexT b); reflexivity.
      - apply (IH (length (c' :: r'))); [ lia | reflexivity | ].
        apply Hr. discriminate. }
    destruct (Scanner.is_operator_char c).
    + rewrite Hrec.
      destruct (Scanner.scan_operator c), (lexT r), (lexT b); reflexivity.
    + destruct (isnumeric c) eqn:Hc.
      * cbv zeta. rewrite take_numeric_app.
        destruct (take_numeric r =? length r) eqn:Hall.
        -- apply Nat.eqb_eq in Hall.
           assert (Hb : starts_numeric b = false).
           { rewrite (ends_numeric_all (c :: r)) in Hcut.
             - exact Hcut.
             - discriminate.
             - cbn [forallb]. rewrite Hc. apply take_numeric_full, Hall. }
           rewrite (take_numeric_start _ Hb), Nat.add_0_r, Hall.
           rewrite skipn_app, skipn_all, firstn_app, !firstn_all,
             Nat.sub_diag.
           cbn [skipn firstn app]. rewrite app_nil_r, lexT_nil. cbn [bind].
           destruct (lexT b); reflexivity.
        -- apply Nat.eqb_neq in Hall.
           pose proof (take_numeric_le r) as Hle.
           set (k := take_numeric r) in *.
           rewrite skipn_app, firstn_app.
           replace (k - length r) with 0 by lia.
           cbn [skipn firstn]. rewrite app_nil_r.
           assert (Hne : skipn k r <> []).
           { intros E. apply (f_equal (@length char)) in E.
             rewrite length_skipn in E. cbn in E. lia. }
           rewrite (IH (length (skipn k r))); try reflexivity.
           ++ destruct (lexT (skipn k r)), (lexT b); reflexivity.
           ++ rewrite length_skipn. lia.
           ++ rewrite <- Hcut. f_equal.
              rewrite <- (firstn_skipn k r) at 2.
              rewrite app_comm_cons. symmetry. apply ends_numeric_app, Hne.
      * destruct (isspace c); [ exact Hrec | reflexivity ].
Qed.

(** Characters of a numeric run are not whitespace. *)
Lemma filter_numeric (s : str) :
  forallb isnumeric s = true -> filter (fun c => negb (isspace c)) s = s.
Proof.
  induction s as [ | c r IH]; cbn [forallb filter]; [ reflexivity | ].
  intros H. apply andb_true_iff in H as [Hc Hr].
  rewrite (numeric_not_space _ Hc). cbn [negb]. rewrite IH by exact Hr.
  reflexivity.
Qed.

Lemma lexT_lexemes (s : str) (ts : list Token) :
  lexT s = Ok ts ->
  List.concat (map lexeme ts) = filter (fun c => negb (isspace c)) s.
Proof.
  remember (length s) as n eqn:Hn. revert s ts Hn.
  induction n as [n IH] using lt_wf_ind. intros s ts Hn H.
  destruct s as [ | c r].
  - rewrite lexT_nil in H. injection H as <-. reflexivity.
  - cbn [length] in Hn. rewrite lexT_cons in H. cbn [filter].
    destruct (Scanner.is_operator_char c) eqn:Hop.
    + destruct (scan_operator_ok _ Hop) as [t Ht]. rewrite Ht in H.
      cbn [bind] in H. destruct (lexT r) as [tr | | ] eqn:Hr;
        cbn [bind] in H; try discriminate.
      injection H as <-. rewrite (operator_not_space _ Hop).
      cbn [negb map List.concat lexeme app]. f_equal.
      apply (IH (length r)); [ lia | reflexivity | exact Hr ].
    + destruct (isnumeric c) eqn:Hc.
      * cbv zeta in H. pose proof (take_numeric_firstn r) as Hf.
        set (k := take_numeric r) in *.
        destruct (lexT (skipn k r)) as [tr | | ] eqn:Hr;
          cbn [bind] in H; try discriminate.
        injection H as <-. rewrite (numeric_not_space _ Hc).
        cbn [negb map List.concat lexeme app]. f_equal.
        rewrite <- (firstn_skipn k r) at 2.
        rewrite filter_app, (filter_numeric _ Hf).
        f_equal. apply (IH (length (skipn k r)));
          [ rewrite length_skipn; lia | reflexivity | exact Hr ].
      * destruct (isspace c) eqn:Hs; [ | discriminate ].
        cbn [negb]. apply (IH (length r)); [ lia | reflexivity | exact H ].
Qed.

Lemma lexT_first_unscannable (pre post : str) (c : char) :
  forallb scannable pre = true -> scannable c = false ->
  lexT (pre ++ c :: post) = Raise (UnexpectedInputError [c]).
Proof.
  intros Hpre Hc. unfold scannable in Hc.
  apply orb_false_iff in Hc as [Hc Hcs].
  apply orb_false_iff in Hc as [Hco Hcn].
  remember (length pre) as n eqn:Hn. revert pre Hn Hpre.
  induction n as [n IH] using lt_wf_ind. intros pre Hn Hpre.
  destruct pre as [ | d r]; cbn [app].
  - rewrite lexT_cons, Hco, Hcn, Hcs. reflexivity.
  - cbn [length] in Hn. cbn [forallb] in Hpre.
    apply andb_true_iff in Hpre as [Hd Hr].
    rewrite lexT_cons.
    destruct (Scanner.is_operator_char d) eqn:Hop.
    + destruct (scan_operator_ok _ Hop) as [t ->]. cbn [bind].
      rewrite (IH (length r)); [ reflexivity | lia | reflexivity | exact Hr ].
    + destruct (isnumeric d) eqn:Hdn.
      * cbv zeta.
        assert (Hk : take_numeric (r ++ c :: post) = take_numeric r).
        { rewrite take_numeric_app. cbn [take_numeric]. rewrite Hcn.
          destruct (take_numeric r =? length r) eqn:E; [ | reflexivity ].
          apply Nat.eqb_eq in E. lia. }
        rewrite Hk. pose proof (take_numeric_le r) as Hle.
        set (k := take_numeric r) in *.
        rewrite skipn_app. replace (k - length r) with 0 by lia.
        cbn [skipn].
        rewrite (IH (length (skipn k r))); try reflexivity.
        -- rewrite length_skipn. lia.
        -- rewrite <- (firstn_skipn k r), forallb_app in Hr.
           apply andb_true_iff in Hr as [_ Hr]. exact Hr.
      * unfold scannable in Hd. rewrite Hop, Hdn in Hd. cbn [orb] in Hd.
        rewrite Hd.
        apply (IH (length r)); [ lia | reflexivity | exact Hr ].
Qed.

(** ** Integer conversion of decimal literals *)

Lemma ascii_digit_not_int_space (c : char) :
  is_ascii_digit c = true -> int_isspace c = false.
Proof.
  intros H. apply ascii_digit_spec in H. unfold int_isspace.
  apply orb_false_iff; split; [ apply orb_false_iff; split | ].
  - apply andb_false_iff. right. apply N.leb_gt. lia.
  - apply N.eqb_neq. lia.
  - apply andb_false_iff. left. apply N.leb_gt. lia.
Qed.

Lemma lstrip_digits (s : str) :
  forallb is_ascii_digit s = true -> lstrip s = s.
Proof.
  destruct s as [ | c r]; cbn [forallb lstrip]; [ reflexivity | ].
  intros H. apply andb_true_iff in H as [Hc _].
  rewrite (ascii_digit_not_int_space _ Hc). reflexivity.
Qed.

Lemma forallb_rev {A : Type} (p : A -> bool) (s : list A) :
  forallb p (rev s) = forallb p s.
Proof.
  induction s as [ | c r IH]; cbn [rev forallb]; [ reflexivity | ].
  rewrite forallb_app, IH. cbn [forallb]. rewrite andb_true_r.
  apply andb_comm.
Qed.

Lemma strip_digits (s : str) :
  forallb is_ascii_digit s = true -> strip s = s.
Proof.
  intros H. unfold strip. rewrite (lstrip_digits _ H).
  rewrite lstrip_digits by (rewrite forallb_rev; exact H).
  apply rev_involutive.
Qed.

Lemma int_digits_ascii (ds : str) (acc : Z) (after_digit : bool) :
  forallb is_ascii_digit ds = true ->
  ds <> [] \/ after_digit = true ->
  int_digits acc after_digit ds
  = Some (fold_left (fun a c => (10 * a + (Z.of_N c - 48))%Z) ds acc).
Proof.
  revert acc after_digit.
  induction ds as [ | c r IH]; intros acc after_digit Hds Hne.
  - destruct Hne as [Hne | ->]; [ contradiction | reflexivity ].
  - cbn [forallb] in Hds. apply andb_true_iff in Hds as [Hc Hr].
    cbn [int_digits fold_left]. rewrite (ascii_digit_decimal _ Hc).
    apply IH; [ exact Hr | right; reflexivity ].
Qed.

Lemma count_digits_ascii (ds : str) :
  forallb is_ascii_digit ds = true -> count_digits ds = length ds.
Proof.
  unfold count_digits. induction ds as [ | c r IH]; cbn [forallb filter];
    [ reflexivity | ].
  intros H. apply andb_true_iff in H as [Hc Hr].
  apply ascii_digit_spec in Hc.
  replace (c =? 95)%N with false by (symmetry; apply N.eqb_neq; lia).
  cbn [negb length]. rewrite (IH Hr). reflexivity.
Qed.

(** [int] on a non-empty string of at most 4300 ASCII digits is its decimal
    value. *)
Lemma int_ascii_digits (ds : str) :
  ds <> [] -> forallb is_ascii_digit ds = true ->
  length ds <= int_max_str_digits ->
  int ds = Ok (digits_value ds).
Proof.
  intros Hne Hds Hlen. unfold int. rewrite (strip_digits _ Hds).
  destruct ds as [ | c r]; [ contradiction | ].
  assert (Hc : is_ascii_digit c = true).
  { cbn [forallb] in Hds. apply andb_true_iff in Hds. tauto. }
  apply ascii_digit_spec in Hc.
  destruct (c =? 43)%N eqn:E1; [ apply N.eqb_eq in E1; lia | ].
  destruct (c =? 45)%N eqn:E2; [ apply N.eqb_eq in E2; lia | ].
  rewrite int_digits_ascii by (auto; left; discriminate).
  rewrite (count_digits_ascii _ Hds).
  replace (int_max_str_digits <? length (c :: r)) with false
    by (symmetry; apply Nat.ltb_ge; exact Hlen).
  unfold digits_value. f_equal. lia.
Qed.


(** [int] raises nothing but [ValueError]. *)
Lemma int_outcome (s : str) :
  int s = Raise ValueError \/ exists z, int s = Ok z.
Proof.
  unfold int.
  destruct (match strip s with
            | [] => (1%Z, strip s)
            | c :: r =>
                if (c =? 43)%N then (1%Z, r)
                else if (c =? 45)%N then ((-1)%Z, r) else (1%Z, strip s)
            end) as [sign s'].
  destruct (int_digits 0 false s'); [ | left; reflexivity ].
  destruct (int_max_str_digits <? count_digits s');
    [ left; reflexivity | right; eauto ].
Qed.

(** ** Parser: the methods at a cursor position *)

Lemma getitem_nat {A : Type} {seq : list A} {i : nat} {x : A} :
  nth_error seq i = Some x -> getitem seq (Z.of_nat i) = Ok x.
Proof.
  intros H. unfold getitem.
  assert (Hlt : i < length seq) by (apply nth_error_Some; congruence).
  destruct (Z.of_nat i <? 0)%Z eqn:E; [ apply Z.ltb_lt in E; lia | ].
  replace ((0 <=? Z.of_nat i) && (Z.of_nat i <? Z.of_nat (length seq)))%Z
    with true
    by (symmetry; apply andb_true_iff; split;
        [ apply Z.leb_le | apply Z.ltb_lt ]; lia).
  rewrite Nat2Z.id. unfold item. rewrite H. reflexivity.
Qed.

Lemma is_last_cursor (ts : list Token) (i : nat) :
  Parser.is_last (cursor ts i) = Ok (S i =? length ts, cursor ts i).
Proof.
  unfold Parser.is_last, cursor. cbn [Parser.current Parser.tokens].
  do 2 f_equal.
  destruct (S i =? length ts) eqn:E.
  - apply Nat.eqb_eq in E. apply Z.eqb_eq. lia.
  - apply Nat.eqb_neq in E. apply Z.eqb_neq. lia.
Qed.

Lemma peek_cursor {ts : list Token} {i : nat} {t : Token} :
  nth_error ts i = Some t -> Parser.peek (cursor ts i) = Ok (t, cursor ts i).
Proof.
  intros H. unfold Parser.peek, Parser.tokens_at, cursor.
  cbn [Parser.current Parser.tokens]. rewrite (getitem_nat H).
  reflexivity.
Qed.

Lemma previous_cursor {ts : list Token} {i : nat} {t : Token} :
  nth_error ts i = Some t ->
  Parser.previous (cursor ts (S i)) = Ok (t, cursor ts (S i)).
Proof.
  intros H. unfold Parser.previous, Parser.tokens_at, cursor.
  cbn [Parser.current Parser.tokens].
  replace (Z.of_nat (S i) - 1)%Z with (Z.of_nat i) by lia.
  rewrite (getitem_nat H). reflexivity.
Qed.

Lemma advance_cursor (ts : list Token) (i : nat) :
  Parser.advance (cursor ts i) = Ok (tt, cursor ts (advance_pos ts i)).
Proof.
  unfold Parser.advance, Parser.mbind. rewrite is_last_cursor.
  unfold advance_pos. destruct (S i =? length ts); cbn [negb].
  - reflexivity.
  - unfold cursor. cbn [Parser.current Parser.tokens].
    do 3 f_equal. lia.
Qed.

Lemma expected_cursor {ts : list Token} {i : nat} {t : Token}
  (token_type : TokenType) :
  nth_error ts i = Some t ->
  Parser.expected token_type (cursor ts i)
  = Ok (negb (S i =? length ts) && TokenType_is (type t) token_type,
        cursor ts i).
Proof.
  intros H. unfold Parser.expected, Parser.mbind. rewrite is_last_cursor.
  destruct (S i =? length ts); cbn [negb andb]; [ reflexivity | ].
  rewrite (peek_cursor H). reflexivity.
Qed.

Lemma match_cursor {ts : list Token} {i : nat} {t : Token}
  (token_types : list TokenType) :
  nth_error ts i = Some t ->
  let hit := negb (S i =? length ts)
             && existsb (TokenType_is (type t)) token_types in
  Parser.match_ token_types (cursor ts i)
  = Ok (hit, cursor ts (if hit then S i else i)).
Proof.
  intros H. cbv zeta.
  induction token_types as [ | token_type rest IH];
    cbn [Parser.match_ existsb].
  - rewrite andb_false_r. reflexivity.
  - unfold Parser.mbind at 1. rewrite (expected_cursor _ H).
    destruct (S i =? length ts) eqn:Hlast; cbn [negb andb] in *.
    + exact IH.
    + destruct (TokenType_is (type t) token_type); cbn [orb].
      * unfold Parser.mbind. rewrite advance_cursor. unfold advance_pos.
        rewrite Hlast. reflexivity.
      * exact IH.
Qed.

Lemma literal_cursor {ts : list Token} {i : nat} {t : Token} :
  nth_error ts i = Some t ->
  Parser.literal (cursor ts i)
  = if is_NUM t then Ok (Literal t, cursor ts (advance_pos ts i))
    else Raise (ParseError (lit "Wrong syntax")).
Proof.
  intros H. unfold Parser.literal, Parser.mbind at 1.
  change (Parser.tokens_at Parser.current) with Parser.peek.
  rewrite (peek_cursor H). fold (is_NUM t).
  destruct (is_NUM t); [ | reflexivity ].
  unfold Parser.mbind. rewrite (peek_cursor H), advance_cursor.
  reflexivity.
Qed.

(** On the empty sequence the first thing [__literal] does is index it. *)
Lemma literal_empty (i : nat) :
  Parser.literal (cursor [] i) = Raise IndexError.
Proof.
  unfold Parser.literal, Parser.mbind, Parser.tokens_at, cursor, getitem.
  cbn [Parser.current Parser.tokens length].
  destruct (Z.of_nat i <? 0)%Z eqn:E; [ apply Z.ltb_lt in E; lia | ].
  replace ((0 <=? Z.of_nat i) && (Z.of_nat i <? Z.of_nat 0))%Z with false;
    [ reflexivity | ].
  symmetry. apply andb_false_iff. right. apply Z.ltb_ge. lia.
Qed.

(** ** Parser: one turn of each loop *)

Lemma factor_loop_last (ts : list Token) (i fuel : nat) (acc : Node) :
  S i = length ts ->
  Parser.factor_loop fuel acc (cursor ts i) = Ok (acc, cursor ts i).
Proof.
  intros Hlast.
  destruct (item_in_range ts (i := i) ltac:(lia)) as [t Ht].
  destruct fuel; cbn [Parser.factor_loop]; unfold Parser.mbind at 1;
    rewrite (match_cursor [MUL] Ht); cbv zeta;
    rewrite Hlast, Nat.eqb_refl; reflexivity.
Qed.

Lemma factor_loop_miss (ts : list Token) (i fuel : nat) (acc : Node)
  (t : Token) :
  nth_error ts i = Some t -> is_MUL t = false ->
  Parser.factor_loop fuel acc (cursor ts i) = Ok (acc, cursor ts i).
Proof.
  intros Ht Hm. unfold is_MUL in Hm.
  destruct fuel; cbn [Parser.factor_loop]; unfold Parser.mbind at 1;
    rewrite (match_cursor [MUL] Ht); cbv zeta; cbn [existsb];
    rewrite Hm, andb_false_r; reflexivity.
Qed.

Lemma factor_loop_turn (ts : list Token) (i fuel : nat) (acc : Node)
  (m t : Token) :
  nth_error ts i = Some m -> nth_error ts (S i) = Some t ->
  is_MUL m = true ->
  Parser.factor_loop (S fuel) acc (cursor ts i)
  = if is_NUM t
    then Parser.factor_loop fuel (BinOp acc MUL (Literal t))
           (cursor ts (advance_pos ts (S i)))
    else Raise (ParseError (lit "Wrong syntax")).
Proof.
  intros Hm Ht HM.
  assert (Hlt : S i < length ts) by (apply nth_error_Some; congruence).
  assert (Hty : type m = MUL).
  { unfold is_MUL in HM. destruct (type m); try discriminate. reflexivity. }
  cbn [Parser.factor_loop]. unfold Parser.mbind at 1.
  rewrite (match_cursor [MUL] Hm). cbv zeta. cbn [existsb].
  unfold is_MUL in HM. rewrite HM.
  replace (S i =? length ts) with false by (symmetry; apply Nat.eqb_neq; lia).
  cbn [negb andb orb]. unfold Parser.mbind at 1.
  rewrite (previous_cursor Hm). unfold Parser.mbind at 1.
  rewrite (literal_cursor Ht), Hty.
  destruct (is_NUM t); reflexivity.
Qed.

Lemma term_loop_last (ts : list Token) (i n fuel : nat) (acc : Node) :
  S i = length ts ->
  Parser.term_loop n fuel acc (cursor ts i) = Ok (acc, cursor ts i).
Proof.
  intros Hlast.
  destruct (item_in_range ts (i := i) ltac:(lia)) as [t Ht].
  destruct fuel; cbn [Parser.term_loop]; unfold Parser.mbind at 1;
    rewrite (match_cursor [PLUS; MINUS] Ht); cbv zeta;
    rewrite Hlast, Nat.eqb_refl; reflexivity.
Qed.

Lemma term_loop_miss (ts : list Token) (i n fuel : nat) (acc : Node)
  (t : Token) :
  nth_error ts i = Some t -> is_additive t = false ->
  Parser.term_loop n fuel acc (cursor ts i) = Ok (acc, cursor ts i).
Proof.
  intros Ht Hm. unfold is_additive in Hm.
  destruct fuel; cbn [Parser.term_loop]; unfold Parser.mbind at 1;
    rewrite (match_cursor [PLUS; MINUS] Ht); cbv zeta; cbn [existsb];
    rewrite orb_false_r, Hm, andb_false_r; reflexivity.
Qed.

Lemma term_loop_turn (ts : list Token) (i n fuel : nat) (acc : Node)
  (o : Token) :
  nth_error ts i = Some o -> S i < length ts -> is_additive o = true ->
  Parser.term_loop n (S fuel) acc (cursor ts i)
  = match Parser.factor n (cursor ts (S i)) with
    | Ok (right_, self) =>
        Parser.term_loop n fuel (BinOp acc (type o) right_) self
    | Raise e => Raise e
    | OutOfFuel => OutOfFuel
    end.
Proof.
  intros Ho Hlt HA.
  cbn [Parser.term_loop]. unfold Parser.mbind at 1.
  rewrite (match_cursor [PLUS; MINUS] Ho). cbv zeta. cbn [existsb].
  unfold is_additive in HA. rewrite orb_false_r, HA.
  replace (S i =? length ts) with false by (symmetry; apply Nat.eqb_neq; lia).
  cbn [negb andb]. unfold Parser.mbind at 1.
  rewrite (previous_cursor Ho). reflexivity.
Qed.

(** ** Parser: runs of the loops over a well-formed prefix *)

Lemma nth_error_mid {A : Type} (pre rest : list A) (x : A) :
  nth_error (pre ++ x :: rest) (length pre) = Some x.
Proof.
  rewrite nth_error_app2, Nat.sub_diag by lia. reflexivity.
Qed.

Lemma nth_error_mid1 {A : Type} (pre rest : list A) (x y : A) :
  nth_error (pre ++ x :: y :: rest) (S (length pre)) = Some y.
Proof.
  rewrite nth_error_app2 by lia.
  replace (S (length pre) - length pre) with 1 by lia. reflexivity.
Qed.

Lemma clamp_inside (ts : list Token) (i : nat) :
  i < length ts -> clamp ts i = i.
Proof. unfold clamp. lia. Qed.

Lemma advance_clamp (ts : list Token) (i : nat) :
  i < length ts -> advance_pos ts i = clamp ts (S i).
Proof.
  intros H. unfold advance_pos, clamp.
  destruct (S i =? length ts) eqn:E;
    [ apply Nat.eqb_eq in E | apply Nat.eqb_neq in E ]; lia.
Qed.

Lemma is_MUL_type (t : Token) : is_MUL t = true -> type t = MUL.
Proof. unfold is_MUL. destruct (type t); try discriminate; reflexivity. Qed.

Lemma additive_not_MUL (t : Token) : is_additive t = true -> is_MUL t = false.
Proof. unfold is_additive, is_MUL. destruct (type t); auto. Qed.

Lemma NUM_not_MUL (t : Token) : is_NUM t = true -> is_MUL t = false.
Proof. unfold is_NUM, is_MUL. destruct (type t); auto. Qed.

Lemma NUM_not_additive (t : Token) :
  is_NUM t = true -> is_additive t = false.
Proof. unfold is_NUM, is_additive. destruct (type t); auto. Qed.

Lemma factor_loop_stops (ts pre rest : list Token) (fuel : nat) (acc : Node) :
  ts = pre ++ rest -> pre <> [] -> stops_factor rest = true ->
  Parser.factor_loop fuel acc (cursor ts (clamp ts (length pre)))
  = Ok (acc, cursor ts (clamp ts (length pre))).
Proof.
  intros -> Hpre Hstop.
  assert (Hlen : 0 < length pre) by (destruct pre; cbn; [ contradiction | lia ]).
  destruct rest as [ | x [ | y rest]].
  - apply factor_loop_last. unfold clamp. rewrite length_app. cbn. lia.
  - apply factor_loop_last. unfold clamp. rewrite length_app. cbn. lia.
  - rewrite clamp_inside by (rewrite length_app; cbn; lia).
    apply factor_loop_miss with (t := x); [ apply nth_error_mid | ].
    cbn [stops_factor] in Hstop. apply negb_true_iff, Hstop.
Qed.

Lemma term_loop_stops (ts pre rest : list Token) (n fuel : nat) (acc : Node) :
  ts = pre ++ rest -> pre <> [] -> ignored_rest rest = true ->
  Parser.term_loop n fuel acc (cursor ts (clamp ts (length pre)))
  = Ok (acc, cursor ts (clamp ts (length pre))).
Proof.
  intros -> Hpre Hstop.
  assert (Hlen : 0 < length pre) by (destruct pre; cbn; [ contradiction | lia ]).
  destruct rest as [ | x [ | y rest]].
  - apply term_loop_last. unfold clamp. rewrite length_app. cbn. lia.
  - apply term_loop_last. unfold clamp. rewrite length_app. cbn. lia.
  - rewrite clamp_inside by (rewrite length_app; cbn; lia).
    apply term_loop_miss with (t := x); [ apply nth_error_mid | ].
    cbn [ignored_rest] in Hstop. apply NUM_not_additive, Hstop.
Qed.

Lemma factor_loop_run (tl : list (Token * Token)) :
  forall (pre : list Token) (acc : Node) (fuel : nat) (rest ts : list Token),
  ts = pre ++ flat_map mul_pair_tokens tl ++ rest ->
  forallb wf_mul_pair tl = true ->
  Parser.factor_loop (length tl + fuel) acc (cursor ts (clamp ts (length pre)))
  = Parser.factor_loop fuel
      (fold_left (fun a p => BinOp a MUL (Literal (snd p))) tl acc)
      (cursor ts
         (clamp ts (length pre + length (flat_map mul_pair_tokens tl)))).
Proof.
  induction tl as [ | [m t] tl IH]; intros pre acc fuel rest ts Hts Hwf.
  - cbn [flat_map length fold_left Nat.add]. rewrite Nat.add_0_r.
    reflexivity.
  - cbn [forallb] in Hwf. apply andb_true_iff in Hwf as [Hp Htl].
    unfold wf_mul_pair in Hp. cbn [fst snd] in Hp.
    apply andb_true_iff in Hp as [Hm Ht].
    cbn [flat_map mul_pair_tokens fst snd app] in Hts.
    assert (Hlen : S (S (length pre)) <= length ts).
    { rewrite Hts, length_app. cbn [length]. lia. }
    rewrite clamp_inside by lia. cbn [length Nat.add].
    rewrite factor_loop_turn with (m := m) (t := t); [ | | | exact Hm ].
    + rewrite Ht, advance_clamp by lia. cbn [fold_left snd].
      replace (S (S (length pre))) with (length (pre ++ [m; t]))
        by (rewrite length_app; cbn [length]; lia).
      rewrite (IH (pre ++ [m; t]) _ fuel rest ts);
        [ | rewrite Hts, <- app_assoc; reflexivity | exact Htl ].
      replace (length (pre ++ [m; t]) + length (flat_map mul_pair_tokens tl))
        with (length pre
              + length (flat_map mul_pair_tokens ((m, t) :: tl)));
        [ reflexivity | ].
      rewrite length_app.
      cbn [flat_map mul_pair_tokens fst snd app length]. lia.
    + rewrite Hts. apply nth_error_mid.
    + rewrite Hts. apply nth_error_mid1.
Qed.

Lemma factor_tokens_length (f : factor_syntax) :
  length (factor_tokens f) = S (2 * length (snd f)).
Proof.
  destruct f as [h tl]. unfold factor_tokens. cbn [fst snd length].
  f_equal. induction tl as [ | p tl IH]; cbn [flat_map length app];
    [ reflexivity | ].
  rewrite length_app, IH. cbn [mul_pair_tokens length]. lia.
Qed.

(** [__factor] on a well-formed factor returns its left-nested tree. *)
Lemma factor_ok (f : factor_syntax) (pre rest ts : list Token) (fuel : nat) :
  ts = pre ++ factor_tokens f ++ rest ->
  wf_factor f = true -> stops_factor rest = true ->
  length (snd f) <= fuel ->
  Parser.factor fuel (cursor ts (length pre))
  = Ok (factor_node f,
        cursor ts (clamp ts (length pre + length (factor_tokens f)))).
Proof.
  destruct f as [h tl]. unfold wf_factor, factor_tokens, factor_node.
  cbn [fst snd]. intros Hts Hwf Hstop Hfuel.
  apply andb_true_iff in Hwf as [Hh Htl].
  cbn [app] in Hts.
  assert (Hlen : length pre < length ts).
  { rewrite Hts, length_app. cbn [length]. lia. }
  unfold Parser.factor, Parser.mbind.
  rewrite (literal_cursor (t := h)) by (rewrite Hts; apply nth_error_mid).
  rewrite Hh, advance_clamp by exact Hlen.
  replace (S (length pre)) with (length (pre ++ [h]))
    by (rewrite length_app; cbn [length]; lia).
  replace fuel with (length tl + (fuel - length tl)) by lia.
  rewrite (factor_loop_run tl (pre ++ [h]) _ _ rest ts);
    [ | rewrite Hts, <- app_assoc; reflexivity | exact Htl ].
  replace (length (pre ++ [h]) + length (flat_map mul_pair_tokens tl))
    with (length ((pre ++ [h]) ++ flat_map mul_pair_tokens tl))
    by (rewrite !length_app; reflexivity).
  rewrite factor_loop_stops with (rest := rest).
  - replace (length ((pre ++ [h]) ++ flat_map mul_pair_tokens tl))
      with (length pre + length (h :: flat_map mul_pair_tokens tl))
      by (rewrite !length_app; cbn [length]; lia).
    reflexivity.
  - rewrite Hts, <- !app_assoc. reflexivity.
  - destruct pre; discriminate.
  - exact Hstop.
Qed.

(** A MUL with no NUM after it makes [__factor] fail. *)
Lemma factor_err (f : factor_syntax) (pre rest ts : list Token)
  (m t : Token) (fuel : nat) :
  ts = pre ++ factor_tokens f ++ m :: t :: rest ->
  wf_factor f = true -> is_MUL m = true -> is_NUM t = false ->
  length (snd f) < fuel ->
  Parser.factor fuel (cursor ts (length pre))
  = Raise (ParseError (lit "Wrong syntax")).
Proof.
  destruct f as [h tl]. unfold wf_factor, factor_tokens.
  cbn [fst snd]. intros Hts Hwf Hm Ht Hfuel.
  apply andb_true_iff in Hwf as [Hh Htl].
  cbn [app] in Hts.
  assert (Hlen : length pre < length ts).
  { rewrite Hts, length_app. cbn [length]. lia. }
  unfold Parser.factor, Parser.mbind.
  rewrite (literal_cursor (t := h)) by (rewrite Hts; apply nth_error_mid).
  rewrite Hh, advance_clamp by exact Hlen.
  replace (S (length pre)) with (length (pre ++ [h]))
    by (rewrite length_app; cbn [length]; lia).
  replace fuel with (length tl + S (fuel - length tl - 1)) by lia.
  rewrite (factor_loop_run tl (pre ++ [h]) _ _ (m :: t :: rest) ts);
    [ | rewrite Hts, <- app_assoc; reflexivity | exact Htl ].
  replace (length (pre ++ [h]) + length (flat_map mul_pair_tokens tl))
    with (length ((pre ++ [h]) ++ flat_map mul_pair_tokens tl))
    by (rewrite !length_app; reflexivity).
  assert (Hts' : ts = ((pre ++ [h]) ++ flat_map mul_pair_tokens tl)
                      ++ m :: t :: rest).
  { rewrite Hts, <- !app_assoc. reflexivity. }
  set (done := (pre ++ [h]) ++ flat_map mul_pair_tokens tl) in *.
  assert (Hin : length done + 2 <= length ts).
  { rewrite Hts', length_app. cbn [length]. lia. }
  rewrite clamp_inside by lia.
  rewrite factor_loop_turn with (m := m) (t := t); [ | | | exact Hm ].
  - rewrite Ht. reflexivity.
  - rewrite Hts'. apply nth_error_mid.
  - rewrite Hts'. apply nth_error_mid1.
Qed.

Lemma stops_factor_next (tl : list (Token * factor_syntax))
  (rest : list Token) :
  forallb wf_add_pair tl = true -> stops_factor rest = true ->
  stops_factor (flat_map add_pair_tokens tl ++ rest) = true.
Proof.
  destruct tl as [ | [o [h ms]] tl]; intros Hwf Hstop; [ exact Hstop | ].
  cbn [forallb] in Hwf. apply andb_true_iff in Hwf as [Hp _].
  unfold wf_add_pair in Hp. cbn [fst] in Hp.
  apply andb_true_iff in Hp as [Ho _].
  cbn [flat_map add_pair_tokens factor_tokens fst snd app stops_factor].
  rewrite (additive_not_MUL _ Ho). reflexivity.
Qed.

Lemma ignored_rest_stops_factor (rest : list Token) :
  ignored_rest rest = true -> stops_factor rest = true.
Proof.
  destruct rest as [ | x [ | y rest]]; cbn [ignored_rest stops_factor]; auto.
  intros H. rewrite (NUM_not_MUL _ H). reflexivity.
Qed.

Lemma term_loop_run (tl : list (Token * factor_syntax)) :
  forall (pre : list Token) (acc : Node) (n fuel : nat)
         (rest ts : list Token),
  ts = pre ++ flat_map add_pair_tokens tl ++ rest ->
  pre <> [] ->
  forallb wf_add_pair tl = true -> stops_factor rest = true ->
  length ts <= n ->
  Parser.term_loop n (length tl + fuel) acc
    (cursor ts (clamp ts (length pre)))
  = Parser.term_loop n fuel
      (fold_left (fun a p => BinOp a (type (fst p)) (factor_node (snd p)))
         tl acc)
      (cursor ts
         (clamp ts (length pre + length (flat_map add_pair_tokens tl)))).
Proof.
  induction tl as [ | [o f] tl IH];
    intros pre acc n fuel rest ts Hts Hpre Hwf Hstop Hn.
  - cbn [flat_map length fold_left Nat.add]. rewrite Nat.add_0_r.
    reflexivity.
  - cbn [forallb] in Hwf. apply andb_true_iff in Hwf as [Hp Htl].
    unfold wf_add_pair in Hp. cbn [fst snd] in Hp.
    apply andb_true_iff in Hp as [Ho Hf].
    cbn [flat_map add_pair_tokens fst snd app] in Hts.
    rewrite <- app_assoc in Hts.
    pose proof (factor_tokens_length f) as Hfl.
    assert (Hlen : length pre + 1 + length (factor_tokens f) <= length ts).
    { rewrite Hts. list_len. lia. }
    rewrite clamp_inside by lia. cbn [length Nat.add].
    rewrite term_loop_turn with (o := o);
      [ | rewrite Hts; apply nth_error_mid | lia | exact Ho ].
    replace (S (length pre)) with (length (pre ++ [o]))
      by (rewrite length_app; cbn [length]; lia).
    rewrite factor_ok
      with (f := f) (rest := flat_map add_pair_tokens tl ++ rest);
      [ | rewrite Hts, <- app_assoc; reflexivity | exact Hf
        | apply stops_factor_next; assumption | lia ].
    cbn [fold_left fst snd].
    replace (length (pre ++ [o]) + length (factor_tokens f))
      with (length (pre ++ o :: factor_tokens f))
      by (rewrite !length_app; cbn [length]; lia).
    rewrite (IH (pre ++ o :: factor_tokens f) _ n fuel rest ts);
      [ | rewrite Hts, <- app_assoc; reflexivity
        | destruct pre; discriminate | exact Htl | exact Hstop | exact Hn ].
    replace (length (pre ++ o :: factor_tokens f)
             + length (flat_map add_pair_tokens tl))
      with (length pre
            + length (flat_map add_pair_tokens ((o, f) :: tl)));
      [ reflexivity | ].
    cbn [flat_map]. unfold add_pair_tokens. cbn [fst snd]. list_len. lia.
Qed.

(** A MUL with no NUM after it, met by the last factor of the loop. *)
Lemma term_loop_err_mul (tl : list (Token * factor_syntax)) :
  forall (pre : list Token) (acc : Node) (n fuel : nat)
         (rest ts : list Token) (m t : Token),
  ts = pre ++ flat_map add_pair_tokens tl ++ m :: t :: rest ->
  tl <> [] -> pre <> [] ->
  forallb wf_add_pair tl = true ->
  is_MUL m = true -> is_NUM t = false ->
  length ts <= n ->
  Parser.term_loop n (length tl + fuel) acc
    (cursor ts (clamp ts (length pre)))
  = Raise (ParseError (lit "Wrong syntax")).
Proof.
  induction tl as [ | [o f] tl IH];
    intros pre acc n fuel rest ts m t Hts Hne Hpre Hwf Hm Ht Hn;
    [ contradiction | ].
  cbn [forallb] in Hwf. apply andb_true_iff in Hwf as [Hp Htl].
  unfold wf_add_pair in Hp. cbn [fst snd] in Hp.
  apply andb_true_iff in Hp as [Ho Hf].
  cbn [flat_map add_pair_tokens fst snd app] in Hts.
  rewrite <- app_assoc in Hts.
  pose proof (factor_tokens_length f) as Hfl.
  assert (Hlen : length pre + 1 + length (factor_tokens f) + 2 <= length ts).
  { rewrite Hts. list_len. lia. }
  rewrite clamp_inside by lia. cbn [length Nat.add].
  rewrite term_loop_turn with (o := o);
    [ | rewrite Hts; apply nth_error_mid | lia | exact Ho ].
  replace (S (length pre)) with (length (pre ++ [o]))
    by (rewrite length_app; cbn [length]; lia).
  destruct tl as [ | p tl'].
  - cbn [flat_map app] in Hts.
    rewrite factor_err with (f := f) (m := m) (t := t) (rest := rest);
      [ reflexivity | rewrite Hts, <- app_assoc; reflexivity
      | exact Hf | exact Hm | exact Ht | lia ].
  - rewrite factor_ok
      with (f := f)
           (rest := flat_map add_pair_tokens (p :: tl') ++ m :: t :: rest);
      [ | rewrite Hts, <- app_assoc; reflexivity | exact Hf | | lia ].
    + replace (length (pre ++ [o]) + length (factor_tokens f))
        with (length (pre ++ o :: factor_tokens f))
        by (rewrite !length_app; cbn [length]; lia).
      apply (IH (pre ++ o :: factor_tokens f) _ n fuel rest ts m t);
        [ rewrite Hts, <- app_assoc; reflexivity | discriminate
        | destruct pre; discriminate | exact Htl | exact Hm | exact Ht
        | exact Hn ].
    + destruct p as [o' [h' ms']].
      cbn [forallb] in Htl. apply andb_true_iff in Htl as [Hp' _].
      unfold wf_add_pair in Hp'. cbn [fst] in Hp'.
      apply andb_true_iff in Hp' as [Ho' _].
      cbn [flat_map add_pair_tokens factor_tokens fst snd app stops_factor].
      rewrite (additive_not_MUL _ Ho'). reflexivity.
Qed.

(** ** Parser: whole sequences *)

Lemma term_tokens_shape (e : term_syntax) (rest : list Token) :
  term_tokens e ++ rest
  = [] ++ factor_tokens (fst e) ++ flat_map add_pair_tokens (snd e) ++ rest.
Proof. unfold term_tokens. rewrite <- app_assoc. reflexivity. Qed.

Lemma factor_tokens_nonempty (f : factor_syntax) : factor_tokens f <> [].
Proof. destruct f; discriminate. Qed.

(** A well-formed term is parsed to its tree, whatever ignored tokens
    follow it. *)
Lemma parse_term_ok (e : term_syntax) (rest : list Token) :
  wf_term e = true -> ignored_rest rest = true ->
  Parser.parse (term_tokens e ++ rest) = Ok (term_node e).
Proof.
  intros Hwf Hrest. destruct e as [f tl]. unfold wf_term in Hwf.
  cbn [fst snd] in Hwf. apply andb_true_iff in Hwf as [Hf Htl].
  pose proof (term_tokens_shape (f, tl) rest) as Hts. cbn [fst snd] in Hts.
  set (ts := term_tokens (f, tl) ++ rest) in *.
  pose proof (factor_tokens_length f) as Hfl.
  assert (Hlen : length (factor_tokens f) + length tl <= length ts).
  { rewrite Hts. cbn [app]. rewrite !length_app.
    assert (length tl <= length (flat_map add_pair_tokens tl)).
    { clear. induction tl as [ | p tl IH]; cbn [flat_map length];
        [ lia | ]. rewrite length_app. cbn [add_pair_tokens length]. lia. }
    lia. }
  unfold Parser.parse, Parser.term, Parser.mbind.
  change (Parser.mkState ts 0) with (cursor ts (length (@nil Token))).
  rewrite factor_ok
    with (f := f) (rest := flat_map add_pair_tokens tl ++ rest);
    [ | exact Hts | exact Hf
      | apply stops_factor_next;
        [ exact Htl | apply ignored_rest_stops_factor, Hrest ]
      | lia ].
  cbn [length Nat.add].
  replace (length ts) with (length tl + (length ts - length tl)) at 2 by lia.
  rewrite (term_loop_run tl (factor_tokens f) _ _ _ rest ts);
    [ | exact Hts | apply factor_tokens_nonempty | exact Htl
      | apply ignored_rest_stops_factor, Hrest | lia ].
  replace (length (factor_tokens f) + length (flat_map add_pair_tokens tl))
    with (length (factor_tokens f ++ flat_map add_pair_tokens tl))
    by (rewrite length_app; reflexivity).
  rewrite term_loop_stops with (rest := rest);
    [ reflexivity | rewrite Hts; cbn [app]; rewrite <- app_assoc; reflexivity
    | | exact Hrest ].
  destruct f; discriminate.
Qed.

Lemma not_NUM_cases (t : Token) :
  is_NUM t = false -> is_MUL t = true \/ is_additive t = true.
Proof.
  unfold is_NUM, is_MUL, is_additive. destruct (type t); cbn; auto.
Qed.

Lemma factor_head_err (ts : list Token) (i fuel : nat) (t : Token) :
  nth_error ts i = Some t -> is_NUM t = false ->
  Parser.factor fuel (cursor ts i) = Raise (ParseError (lit "Wrong syntax")).
Proof.
  intros Ht Hn. unfold Parser.factor, Parser.mbind.
  rewrite (literal_cursor Ht), Hn. reflexivity.
Qed.

(** An operator that follows a well-formed term and is followed by a token
    that is not a NUM is a syntax error. *)
Lemma parse_term_err (e : term_syntax) (o t : Token) (rest : list Token) :
  wf_term e = true -> is_NUM o = false -> is_NUM t = false ->
  Parser.parse (term_tokens e ++ o :: t :: rest)
  = Raise (ParseError (lit "Wrong syntax")).
Proof.
  intros Hwf Ho Ht. destruct e as [f tl]. unfold wf_term in Hwf.
  cbn [fst snd] in Hwf. apply andb_true_iff in Hwf as [Hf Htl].
  pose proof (term_tokens_shape (f, tl) (o :: t :: rest)) as Hts.
  cbn [fst snd] in Hts.
  set (ts := term_tokens (f, tl) ++ o :: t :: rest) in *.
  pose proof (factor_tokens_length f) as Hfl.
  assert (Hfl' : length tl <= length (flat_map add_pair_tokens tl)).
  { clear. induction tl as [ | p tl IH]; cbn [flat_map length]; [ lia | ].
    rewrite length_app. cbn [add_pair_tokens length]. lia. }
  assert (Hlen : length ts = length (factor_tokens f)
                             + length (flat_map add_pair_tokens tl)
                             + 2 + length rest).
  { rewrite Hts. list_len. lia. }
  unfold Parser.parse, Parser.term, Parser.mbind.
  change (Parser.mkState ts 0) with (cursor ts (length (@nil Token))).
  destruct (not_NUM_cases _ Ho) as [Hm | Ha].
  - (* a MUL: the factor before it asks for a literal *)
    destruct tl as [ | p tl'].
    + cbn [flat_map app] in Hts.
      rewrite factor_err with (f := f) (m := o) (t := t) (rest := rest);
        [ reflexivity | exact Hts | exact Hf | exact Hm | exact Ht | lia ].
    + rewrite factor_ok
        with (f := f)
             (rest := flat_map add_pair_tokens (p :: tl') ++ o :: t :: rest);
        [ | exact Hts | exact Hf | | lia ].
      * cbn [length Nat.add].
        replace (length ts)
          with (length (p :: tl') + (length ts - length (p :: tl'))) at 2
          by lia.
        rewrite (term_loop_err_mul (p :: tl') (factor_tokens f) _ _ _
                   rest ts o t);
          [ reflexivity | exact Hts | discriminate
          | apply factor_tokens_nonempty | exact Htl | exact Hm | exact Ht
          | lia ].
      * destruct p as [o' [h' ms']].
        cbn [forallb] in Htl. apply andb_true_iff in Htl as [Hp' _].
        unfold wf_add_pair in Hp'. cbn [fst] in Hp'.
        apply andb_true_iff in Hp' as [Ho' _].
        cbn [flat_map add_pair_tokens factor_tokens fst snd app stops_factor].
        rewrite (additive_not_MUL _ Ho'). reflexivity.
  - (* PLUS or MINUS: the loop of the term asks for a factor *)
    assert (Hstop : stops_factor (o :: t :: rest) = true).
    { cbn [stops_factor]. rewrite (additive_not_MUL _ Ha). reflexivity. }
    rewrite factor_ok
      with (f := f)
           (rest := flat_map add_pair_tokens tl ++ o :: t :: rest);
      [ | exact Hts | exact Hf | apply stops_factor_next; assumption | lia ].
    cbn [length Nat.add].
    replace (length ts) with (length tl + S (length ts - length tl - 1)) at 2
      by lia.
    rewrite (term_loop_run tl (factor_tokens f) _ _ _ (o :: t :: rest) ts);
      [ | exact Hts | apply factor_tokens_nonempty | exact Htl | exact Hstop
        | lia ].
    set (done := factor_tokens f ++ flat_map add_pair_tokens tl).
    replace (length (factor_tokens f) + length (flat_map add_pair_tokens tl))
      with (length done) by (unfold done; rewrite length_app; reflexivity).
    assert (Hts' : ts = done ++ o :: t :: rest).
    { rewrite Hts. unfold done. cbn [app]. rewrite <- app_assoc.
      reflexivity. }
    assert (Hin : length done + 2 <= length ts).
    { unfold done. rewrite length_app. lia. }
    rewrite clamp_inside by lia.
    rewrite term_loop_turn with (o := o);
      [ | rewrite Hts'; apply nth_error_mid | lia | exact Ha ].
    rewrite factor_head_err with (t := t);
      [ reflexivity | rewrite Hts'; apply nth_error_mid1 | exact Ht ].
Qed.

(** A sequence that starts with an operator is a syntax error. *)
Lemma parse_operator_first (o : Token) (rest : list Token) :
  is_NUM o = false ->
  Parser.parse (o :: rest) = Raise (ParseError (lit "Wrong syntax")).
Proof.
  intros Ho. unfold Parser.parse, Parser.term, Parser.mbind.
  change (Parser.mkState (o :: rest) 0) with (cursor (o :: rest) 0).
  rewrite factor_head_err with (t := o); [ reflexivity | reflexivity | exact Ho ].
Qed.

(** ** Parser: the loops never run out of fuel *)

Lemma advance_pos_bounds (ts : list Token) (i : nat) :
  i < length ts -> i <= advance_pos ts i < length ts.
Proof.
  intros H. unfold advance_pos.
  destruct (S i =? length ts) eqn:E;
    [ apply Nat.eqb_eq in E | apply Nat.eqb_neq in E ]; lia.
Qed.

Lemma progresses_weaken (ts : list Token) (i j : nat)
  (r : outcome (Node * Parser.state)) :
  i <= j -> progresses ts j r -> progresses ts i r.
Proof.
  intros Hij [[e ->] | (node & k & -> & Hk)]; [ left; eauto | right ].
  exists node, k. split; [ reflexivity | lia ].
Qed.

Lemma factor_loop_total (fuel : nat) :
  forall (ts : list Token) (i : nat) (acc : Node),
  i < length ts -> length ts - 1 - i <= fuel ->
  progresses ts i (Parser.factor_loop fuel acc (cursor ts i)).
Proof.
  induction fuel as [ | fuel IH]; intros ts i acc Hi Hfuel.
  - rewrite factor_loop_last by lia. right. exists acc, i. split; [ reflexivity | lia ].
  - destruct (Nat.eq_dec (S i) (length ts)) as [Hlast | Hnot].
    + rewrite factor_loop_last by exact Hlast.
      right. exists acc, i. split; [ reflexivity | lia ].
    + destruct (item_in_range ts Hi) as [m Hm].
      destruct (is_MUL m) eqn:HM.
      * destruct (item_in_range ts (i := S i) ltac:(lia)) as [t Ht].
        rewrite factor_loop_turn with (m := m) (t := t) by assumption.
        destruct (is_NUM t); [ | left; eauto ].
        pose proof (advance_pos_bounds ts (S i) ltac:(lia)) as Hb.
        apply progresses_weaken with (j := advance_pos ts (S i)); [ lia | ].
        apply IH; lia.
      * rewrite factor_loop_miss with (t := m) by assumption.
        right. exists acc, i. split; [ reflexivity | lia ].
Qed.

Lemma factor_total (ts : list Token) (i fuel : nat) :
  i < length ts -> length ts <= fuel ->
  progresses ts i (Parser.factor fuel (cursor ts i)).
Proof.
  intros Hi Hfuel. destruct (item_in_range ts Hi) as [t Ht].
  unfold Parser.factor, Parser.mbind. rewrite (literal_cursor Ht).
  destruct (is_NUM t); [ | left; eauto ].
  pose proof (advance_pos_bounds ts i Hi) as Hb.
  apply progresses_weaken with (j := advance_pos ts i); [ lia | ].
  apply factor_loop_total; lia.
Qed.

Lemma term_loop_total (fuel : nat) :
  forall (ts : list Token) (i n : nat) (acc : Node),
  i < length ts -> length ts <= n -> length ts - 1 - i <= fuel ->
  progresses ts i (Parser.term_loop n fuel acc (cursor ts i)).
Proof.
  induction fuel as [ | fuel IH]; intros ts i n acc Hi Hn Hfuel.
  - rewrite term_loop_last by lia. right. exists acc, i. split; [ reflexivity | lia ].
  - destruct (Nat.eq_dec (S i) (length ts)) as [Hlast | Hnot].
    + rewrite term_loop_last by exact Hlast.
      right. exists acc, i. split; [ reflexivity | lia ].
    + destruct (item_in_range ts Hi) as [o Ho].
      destruct (is_additive o) eqn:HA.
      * rewrite term_loop_turn with (o := o) by (assumption || lia).
        destruct (factor_total ts (S i) n ltac:(lia) Hn)
          as [[e ->] | (node & j & -> & Hj)]; [ left; eauto | ].
        apply progresses_weaken with (j := j); [ lia | ].
        apply IH; lia.
      * rewrite term_loop_miss with (t := o) by assumption.
        right. exists acc, i. split; [ reflexivity | lia ].
Qed.

(** [parse] always returns or raises with the fuel it gives its loops. *)
Lemma parse_total (tokens : list Token) : Parser.parse tokens <> OutOfFuel.
Proof.
  unfold Parser.parse, Parser.term, Parser.mbind.
  change (Parser.mkState tokens 0) with (cursor tokens 0).
  destruct tokens as [ | t ts].
  - unfold Parser.factor, Parser.mbind. rewrite literal_empty. discriminate.
  - set (tokens := t :: ts).
    assert (H0 : 0 < length tokens) by (cbn; lia).
    destruct (factor_total tokens 0 (length tokens) H0 ltac:(lia)) as [[e ->] | (node & j & -> & Hj)];
      [ discriminate | ].
    destruct (term_loop_total (length tokens) tokens j
                (length tokens) node ltac:(lia) ltac:(lia) ltac:(lia))
      as [[e ->] | (node' & j' & -> & Hj')]; discriminate.
Qed.

(** ** Scanning the text of a term *)

Lemma starts_numeric_blanks (w rest : str) :
  forallb isspace w = true -> starts_numeric rest = false ->
  starts_numeric (w ++ rest) = false.
Proof.
  destruct w as [ | c w]; cbn [app forallb starts_numeric]; [ auto | ].
  intros H _. apply andb_true_iff in H as [Hc _].
  apply space_not_numeric, Hc.
Qed.

Lemma operator_char_is_operator (t : TokenType) :
  Scanner.is_operator_char (operator_char t) = true.
Proof. destruct t; reflexivity. Qed.

Lemma scan_operator_char (t : TokenType) :
  TokenType_is t NUM = false ->
  Scanner.scan_operator (operator_char t) = Ok (operator_token t).
Proof. destruct t; try reflexivity. discriminate. Qed.

Lemma lexT_operator (t : TokenType) (w rest : str) :
  forallb isspace w = true -> TokenType_is t NUM = false ->
  lexT (w ++ operator_char t :: rest)
  = (tokens <- lexT rest ;; Ok (operator_token t :: tokens)).
Proof.
  intros Hw Ht. rewrite (lexT_space_prefix _ _ Hw), lexT_cons.
  rewrite operator_char_is_operator, (scan_operator_char _ Ht).
  reflexivity.
Qed.

Lemma starts_numeric_operator (t : TokenType) (w rest : str) :
  forallb isspace w = true ->
  starts_numeric (w ++ operator_char t :: rest) = false.
Proof.
  intros Hw. apply starts_numeric_blanks; [ exact Hw | ].
  cbn [starts_numeric]. apply operator_not_numeric, operator_char_is_operator.
Qed.

Lemma wf_literal_text_parts (l : literal_text) :
  wf_literal_text l = true ->
  forallb isspace (fst l) = true /\ snd l <> []
  /\ forallb is_ascii_digit (snd l) = true.
Proof.
  unfold wf_literal_text. rewrite !andb_true_iff, negb_true_iff.
  intros [[Hw Hn] Hd]. repeat split; try assumption.
  intros E. rewrite E in Hn. discriminate.
Qed.

Lemma digits_numeric (ds : str) :
  forallb is_ascii_digit ds = true -> forallb isnumeric ds = true.
Proof.
  rewrite !forallb_forall. intros H c Hc. apply ascii_digit_numeric, H, Hc.
Qed.

Lemma lexT_literal (l : literal_text) (rest : str) :
  wf_literal_text l = true -> starts_numeric rest = false ->
  lexT (render_literal l ++ rest)
  = (tokens <- lexT rest ;; Ok (literal_token l :: tokens)).
Proof.
  intros Hl Hrest. apply wf_literal_text_parts in Hl as (Hw & Hne & Hd).
  unfold render_literal. rewrite <- app_assoc, (lexT_space_prefix _ _ Hw).
  apply lexT_numeric_prefix; [ exact Hne | apply digits_numeric, Hd | exact Hrest ].
Qed.

Lemma lexT_mul_tail (tl : list (str * literal_text)) (rest : str) :
  forallb wf_mul_text tl = true -> starts_numeric rest = false ->
  starts_numeric (flat_map render_mul tl ++ rest) = false
  /\ lexT (flat_map render_mul tl ++ rest)
     = (tokens <- lexT rest ;;
        Ok (flat_map mul_pair_tokens (map mul_of_text tl) ++ tokens)).
Proof.
  intros Hwf Hrest. induction tl as [ | [w l] tl IH].
  - cbn [flat_map map app]. split; [ exact Hrest | ].
    destruct (lexT rest); reflexivity.
  - cbn [forallb] in Hwf. apply andb_true_iff in Hwf as [Hp Htl].
    unfold wf_mul_text in Hp. cbn [fst snd] in Hp.
    apply andb_true_iff in Hp as [Hw Hl].
    destruct (IH Htl) as [IHs IHl].
    cbn [flat_map map]. unfold render_mul at 1 3. cbn [fst snd].
    rewrite <- !app_assoc. cbn [app]. split.
    + apply starts_numeric_operator, Hw.
    + rewrite (lexT_operator MUL _ _ Hw eq_refl).
      rewrite (lexT_literal _ _ Hl IHs), IHl.
      destruct (lexT rest); reflexivity.
Qed.

Lemma lexT_factor (f : factor_text) (rest : str) :
  wf_factor_text f = true -> starts_numeric rest = false ->
  lexT (render_factor f ++ rest)
  = (tokens <- lexT rest ;;
     Ok (factor_tokens (factor_of_text f) ++ tokens)).
Proof.
  intros Hwf Hrest. destruct f as [l tl]. unfold wf_factor_text in Hwf.
  cbn [fst snd] in Hwf. apply andb_true_iff in Hwf as [Hl Htl].
  destruct (lexT_mul_tail tl rest Htl Hrest) as [Hs Ht].
  unfold render_factor, factor_of_text, factor_tokens. cbn [fst snd].
  rewrite <- app_assoc, (lexT_literal _ _ Hl Hs), Ht.
  destruct (lexT rest); reflexivity.
Qed.

Lemma lexT_add_tail (tl : list ((str * TokenType) * factor_text))
  (rest : str) :
  forallb wf_add_text tl = true -> starts_numeric rest = false ->
  starts_numeric (flat_map render_add tl ++ rest) = false
  /\ lexT (flat_map render_add tl ++ rest)
     = (tokens <- lexT rest ;;
        Ok (flat_map add_pair_tokens (map add_of_text tl) ++ tokens)).
Proof.
  intros Hwf Hrest. induction tl as [ | [[w o] f] tl IH].
  - cbn [flat_map map app]. split; [ exact Hrest | ].
    destruct (lexT rest); reflexivity.
  - cbn [forallb] in Hwf. apply andb_true_iff in Hwf as [Hp Htl].
    unfold wf_add_text in Hp. cbn [fst snd] in Hp.
    apply andb_true_iff in Hp as [Hp Hf].
    apply andb_true_iff in Hp as [Hw Ho].
    destruct (IH Htl) as [IHs IHl].
    cbn [flat_map map]. unfold render_add at 1 3. cbn [fst snd].
    rewrite <- !app_assoc. cbn [app]. split.
    + apply starts_numeric_operator, Hw.
    + rewrite (lexT_operator o _ _ Hw)
        by (destruct o; try reflexivity; discriminate).
      rewrite (lexT_factor _ _ Hf IHs), IHl.
      unfold add_of_text at 1, add_pair_tokens at 1. cbn [fst snd].
      destruct (lexT rest); cbn [bind]; try reflexivity.
      rewrite <- app_assoc. reflexivity.
Qed.

(** The scanner on the text of a term, with blanks after it. *)
Lemma scan_render_term (e : term_text) (trailing : str) :
  wf_term_text e = true -> forallb isspace trailing = true ->
  Scanner.scan (render_term e ++ trailing)
  = Ok (term_tokens (term_of_text e)).
Proof.
  intros Hwf Htr. destruct e as [f tl]. unfold wf_term_text in Hwf.
  cbn [fst snd] in Hwf. apply andb_true_iff in Hwf as [Hf Htl].
  assert (Hs : starts_numeric trailing = false).
  { rewrite <- (app_nil_r trailing).
    apply starts_numeric_blanks; [ exact Htr | reflexivity ]. }
  assert (Ht : lexT trailing = Ok []).
  { rewrite <- (app_nil_r trailing), (lexT_space_prefix _ _ Htr).
    reflexivity. }
  destruct (lexT_add_tail tl trailing Htl Hs) as [Hs' Hl'].
  rewrite scan_lexT. unfold render_term, term_of_text, term_tokens.
  cbn [fst snd]. rewrite <- app_assoc, (lexT_factor _ _ Hf Hs'), Hl', Ht.
  cbn [bind]. rewrite app_nil_r. reflexivity.
Qed.

Lemma wf_factor_of_text (f : factor_text) :
  wf_factor (factor_of_text f) = true.
Proof.
  destruct f as [l tl]. unfold wf_factor, factor_of_text. cbn [fst snd].
  change (is_NUM (literal_token l)) with true. cbn [andb].
  apply forallb_forall. intros p Hp.
  apply in_map_iff in Hp as (q & <- & _). reflexivity.
Qed.

Lemma wf_term_of_text (e : term_text) :
  wf_term_text e = true -> wf_term (term_of_text e) = true.
Proof.
  destruct e as [f tl]. unfold wf_term_text, wf_term, term_of_text.
  cbn [fst snd]. intros H. apply andb_true_iff in H as [_ Htl].
  rewrite wf_factor_of_text. cbn [andb].
  rewrite forallb_forall in Htl. apply forallb_forall. intros p Hp.
  apply in_map_iff in Hp as (q & <- & Hq). specialize (Htl q Hq).
  unfold wf_add_text in Htl. unfold wf_add_pair, add_of_text.
  cbn [fst snd]. apply andb_true_iff in Htl as [Ho _].
  apply andb_true_iff in Ho as [_ Ho].
  rewrite wf_factor_of_text, andb_true_r. exact Ho.
Qed.

(** ** Evaluating the tree of a term *)

Lemma evaluate_BinOp (a b : Node) (operator : TokenType) :
  evaluate (BinOp a operator b)
  = visit_BinOp (evaluate a) operator (evaluate b).
Proof. reflexivity. Qed.

Lemma evaluate_literal (l : literal_text) :
  wf_literal_text l = true -> literal_fits l = true ->
  evaluate (Literal (literal_token l)) = Ok (literal_value l).
Proof.
  intros Hl Hfit. apply wf_literal_text_parts in Hl as (_ & Hne & Hd).
  unfold evaluate. cbn [accept visit_Literal Evaluator literal_token lexeme].
  apply int_ascii_digits; try assumption.
  apply Nat.leb_le. exact Hfit.
Qed.

Lemma evaluate_mul_tail (tl : list (str * literal_text)) :
  forall (acc : Node) (v : Z),
  forallb wf_mul_text tl = true -> forallb mul_fits tl = true ->
  evaluate acc = Ok v ->
  evaluate
    (fold_left (fun a p => BinOp a MUL (Literal (snd p)))
       (map mul_of_text tl) acc)
  = Ok (fold_left (fun a p => (a * literal_value (snd p))%Z) tl v).
Proof.
  induction tl as [ | [w l] tl IH]; intros acc v Hwf Hfit Hacc;
    [ exact Hacc | ].
  cbn [forallb] in Hwf, Hfit.
  apply andb_true_iff in Hwf as [Hp Htl].
  apply andb_true_iff in Hfit as [Hfl Hftl].
  unfold wf_mul_text in Hp. cbn [snd] in Hp.
  apply andb_true_iff in Hp as [_ Hl].
  cbn [map fold_left]. apply IH; [ exact Htl | exact Hftl | ].
  unfold mul_of_text. cbn [snd].
  rewrite evaluate_BinOp, Hacc, (evaluate_literal _ Hl Hfl). reflexivity.
Qed.

Lemma evaluate_factor (f : factor_text) :
  wf_factor_text f = true -> factor_fits f = true ->
  evaluate (factor_node (factor_of_text f)) = Ok (factor_value f).
Proof.
  destruct f as [l tl]. unfold wf_factor_text, factor_fits, factor_node,
    factor_of_text, factor_value. cbn [fst snd]. intros H Hfit.
  apply andb_true_iff in H as [Hl Htl].
  apply andb_true_iff in Hfit as [Hfl Hftl].
  apply evaluate_mul_tail; [ exact Htl | exact Hftl | ].
  apply evaluate_literal; assumption.
Qed.

Lemma evaluate_add_tail (tl : list ((str * TokenType) * factor_text)) :
  forall (acc : Node) (v : Z),
  forallb wf_add_text tl = true -> forallb add_fits tl = true ->
  evaluate acc = Ok v ->
  evaluate
    (fold_left (fun a p => BinOp a (type (fst p)) (factor_node (snd p)))
       (map add_of_text tl) acc)
  = Ok (fold_left
          (fun a p =>
             match snd (fst p) with
             | PLUS => (a + factor_value (snd p))%Z
             | MINUS => (a - factor_value (snd p))%Z
             | _ => a
             end) tl v).
Proof.
  induction tl as [ | [[w o] f] tl IH]; intros acc v Hwf Hfit Hacc;
    [ exact Hacc | ].
  cbn [forallb] in Hwf, Hfit.
  apply andb_true_iff in Hwf as [Hp Htl].
  apply andb_true_iff in Hfit as [Hff Hftl].
  unfold wf_add_text in Hp. cbn [fst snd] in Hp.
  apply andb_true_iff in Hp as [Hp Hf].
  apply andb_true_iff in Hp as [_ Ho].
  cbn [map fold_left]. apply IH; [ exact Htl | exact Hftl | ].
  unfold add_of_text, operator_token. cbn [fst snd type].
  rewrite evaluate_BinOp, Hacc, (evaluate_factor _ Hf Hff).
  destruct o; try reflexivity; discriminate.
Qed.

Lemma evaluate_term (e : term_text) :
  wf_term_text e = true -> term_fits e = true ->
  evaluate (term_node (term_of_text e)) = Ok (term_value e).
Proof.
  destruct e as [f tl]. unfold wf_term_text, term_fits, term_node,
    term_of_text, term_value. cbn [fst snd]. intros H Hfit.
  apply andb_true_iff in H as [Hf Htl].
  apply andb_true_iff in Hfit as [Hff Hftl].
  apply evaluate_add_tail; [ exact Htl | exact Hftl | ].
  apply evaluate_factor; assumption.
Qed.

(** ** The evaluator within the recursion limit *)

Lemma accept_within_enough (ast : Node) :
  forall frames : nat,
  2 * height ast + 2 <= frames ->
  accept Evaluator_within ast frames = evaluate ast.
Proof.
  unfold evaluate.
  induction ast as [a IHa operator b IHb | value]; intros frames Hf;
    cbn [height] in Hf; cbn [accept visit_BinOp visit_Literal
                               Evaluator_within Evaluator].
  - destruct frames as [ | [ | frames]]; try lia. cbn [call].
    rewrite IHa, IHb by lia. reflexivity.
  - destruct frames as [ | [ | frames]]; try lia. reflexivity.
Qed.

(** With the frames for it, the evaluator does what it does without the
    limit. *)
Lemma evaluate_within_enough (frames : nat) (ast : Node) :
  2 * height ast + 3 <= frames ->
  evaluate_within frames ast = evaluate ast.
Proof.
  intros Hf. unfold evaluate_within.
  destruct frames as [ | frames]; [ lia | ]. cbn [call].
  apply accept_within_enough. lia.
Qed.

Lemma eval_within_enough (frames : nat) (source : str) (ast : Node) :
  (tokens <- Scanner.scan source ;; Parser.parse tokens) = Ok ast ->
  frames_needed ast <= frames ->
  eval_within frames source = SimpleArithmetic.eval source.
Proof.
  intros Hast Hf. unfold eval_within, SimpleArithmetic.eval.
  destruct (Scanner.scan source) as [tokens | | ]; cbn [bind] in Hast |- *;
    try discriminate.
  rewrite Hast. cbn [bind]. apply evaluate_within_enough.
  unfold frames_needed in Hf. lia.
Qed.

(** ** The pipeline on the text of a term *)

Lemma parse_render_term (e : term_text) (trailing : str) :
  wf_term_text e = true -> forallb isspace trailing = true ->
  (tokens <- Scanner.scan (render_term e ++ trailing) ;; Parser.parse tokens)
  = Ok (term_node (term_of_text e)).
Proof.
  intros He Htr. rewrite (scan_render_term _ _ He Htr). cbn [bind].
  rewrite <- (app_nil_r (term_tokens _)).
  apply parse_term_ok; [ apply wf_term_of_text, He | reflexivity ].
Qed.

Lemma eval_render_term (e : term_text) (trailing : str) :
  wf_term_text e = true -> forallb isspace trailing = true ->
  term_fits e = true ->
  SimpleArithmetic.eval (render_term e ++ trailing) = Ok (term_value e).
Proof.
  intros He Htr Hfit. unfold SimpleArithmetic.eval.
  pose proof (parse_render_term _ _ He Htr) as Hp.
  destruct (Scanner.scan (render_term e ++ trailing)) as [tokens | | ];
    cbn [bind] in Hp |- *; try discriminate.
  rewrite Hp. cbn [bind]. apply evaluate_term; assumption.
Qed.

Lemma eval_within_render_term (e : term_text) (trailing : str)
  (frames : nat) :
  wf_term_text e = true -> forallb isspace trailing = true ->
  term_fits e = true ->
  frames_needed (term_node (term_of_text e)) <= frames ->
  eval_within frames (render_term e ++ trailing) = Ok (term_value e).
Proof.
  intros He Htr Hfit Hf.
  rewrite (eval_within_enough frames _ _ (parse_render_term _ _ He Htr) Hf).
  apply eval_render_term; assumption.
Qed.

(** ** Chains as terms *)

Lemma fold_left_map_ext {A B C : Type} (f : C -> B -> C) (g : C -> A -> C)
  (h : A -> B) (P : A -> bool) (l : list A) :
  (forall acc x, P x = true -> f acc (h x) = g acc x) ->
  forallb P l = true ->
  forall acc, fold_left f (map h l) acc = fold_left g l acc.
Proof.
  intros Hext. induction l as [ | x l IH]; intros Hl acc; [ reflexivity | ].
  cbn [forallb] in Hl. apply andb_true_iff in Hl as [Hx Hl].
  cbn [map fold_left]. rewrite (Hext _ _ Hx). apply IH, Hl.
Qed.

Lemma flat_map_map_ext {A B C : Type} (f : B -> list C) (g : A -> list C)
  (h : A -> B) (P : A -> bool) (l : list A) :
  (forall x, P x = true -> f (h x) = g x) ->
  forallb P l = true ->
  flat_map f (map h l) = flat_map g l.
Proof.
  intros Hext. induction l as [ | x l IH]; intros Hl; [ reflexivity | ].
  cbn [forallb] in Hl. apply andb_true_iff in Hl as [Hx Hl].
  cbn [map flat_map]. rewrite (Hext _ Hx), (IH Hl). reflexivity.
Qed.

Lemma forallb_map_ext {A B : Type} (Q : B -> bool) (h : A -> B)
  (P : A -> bool) (l : list A) :
  (forall x, P x = true -> Q (h x) = true) ->
  forallb P l = true -> forallb Q (map h l) = true.
Proof.
  intros Hext. induction l as [ | x l IH]; intros Hl; [ reflexivity | ].
  cbn [forallb] in Hl. apply andb_true_iff in Hl as [Hx Hl].
  cbn [map forallb]. rewrite (Hext _ Hx), (IH Hl). reflexivity.
Qed.

Lemma forallb_and {A : Type} (P Q : A -> bool) (l : list A) :
  forallb P l = true -> forallb Q l = true ->
  forallb (fun x => P x && Q x) l = true.
Proof.
  rewrite !forallb_forall. intros HP HQ x Hx.
  rewrite (HP x Hx), (HQ x Hx). reflexivity.
Qed.

Lemma TokenType_is_eq (a b : TokenType) : TokenType_is a b = true -> a = b.
Proof. destruct a, b; try discriminate; reflexivity. Qed.

Section Chains.

Variable c : chain_text.
Hypothesis wf_c : wf_chain_text c = true.

Let wf_first : wf_literal_text (fst c) = true.
Proof. unfold wf_chain_text in wf_c. apply andb_true_iff in wf_c. tauto. Qed.

Let wf_links : forallb wf_link (snd c) = true.
Proof. unfold wf_chain_text in wf_c. apply andb_true_iff in wf_c. tauto. Qed.

Section Additive.

Hypothesis additive : forallb additive_link (snd c) = true.

Let both : forallb (fun p => wf_link p && additive_link p) (snd c) = true.
Proof. apply forallb_and; assumption. Qed.

Lemma additive_chain_wf : wf_term_text (term_of_additive_chain c) = true.
Proof.
  unfold wf_term_text, term_of_additive_chain, wf_factor_text. cbn [fst snd forallb].
  rewrite wf_first, andb_true_r. cbn [andb].
  apply forallb_map_ext with (P := fun p => wf_link p && additive_link p);
    [ | exact both ].
  intros [[w o] l] H. apply andb_true_iff in H as [Hw Ha].
  unfold wf_link in Hw. apply andb_true_iff in Hw as [Hw Hl].
  unfold wf_add_text, additive_link_term, wf_factor_text.
  cbn [fst snd forallb] in *. unfold additive_link, link_operator in Ha.
  cbn [fst snd] in Ha. rewrite Hw, Ha, Hl. reflexivity.
Qed.

Lemma additive_chain_render :
  render_term (term_of_additive_chain c) = render_chain c.
Proof.
  unfold render_term, term_of_additive_chain, render_chain, render_factor.
  cbn [fst snd flat_map]. rewrite app_nil_r. f_equal.
  apply flat_map_map_ext with (P := fun _ => true);
    [ | apply forallb_forall; reflexivity ].
  intros [[w o] l] _. unfold render_add, additive_link_term, render_link,
    render_factor, link_operator. cbn [fst snd flat_map].
  rewrite app_nil_r. reflexivity.
Qed.

Lemma additive_chain_node :
  term_node (term_of_text (term_of_additive_chain c)) = chain_node c.
Proof.
  unfold term_node, term_of_text, term_of_additive_chain, chain_node.
  cbn [fst snd]. rewrite map_map.
  apply fold_left_map_ext with (P := fun _ => true);
    [ | apply forallb_forall; reflexivity ].
  intros acc [[w o] l] _. reflexivity.
Qed.


End Additive.

Section Multiplicative.

Hypothesis multiplicative : forallb multiplicative_link (snd c) = true.

Lemma multiplicative_chain_wf :
  wf_term_text (term_of_multiplicative_chain c) = true.
Proof.
  unfold wf_term_text, term_of_multiplicative_chain, wf_factor_text.
  cbn [fst snd forallb]. rewrite wf_first, andb_true_r. cbn [andb].
  apply forallb_map_ext with (P := wf_link); [ | exact wf_links ].
  intros [[w o] l] H. exact H.
Qed.

Lemma multiplicative_chain_render :
  render_term (term_of_multiplicative_chain c) = render_chain c.
Proof.
  unfold render_term, term_of_multiplicative_chain, render_chain,
    render_factor. cbn [fst snd flat_map]. rewrite app_nil_r. f_equal.
  apply flat_map_map_ext with (P := multiplicative_link);
    [ | exact multiplicative ].
  intros [[w o] l] Hm. unfold multiplicative_link, link_operator in Hm.
  cbn [fst snd] in Hm. apply TokenType_is_eq in Hm. subst o. reflexivity.
Qed.

Lemma multiplicative_chain_node :
  term_node (term_of_text (term_of_multiplicative_chain c)) = chain_node c.
Proof.
  unfold term_node, term_of_text, term_of_multiplicative_chain, chain_node,
    factor_node, factor_of_text. cbn [fst snd map fold_left].
  rewrite map_map.
  apply fold_left_map_ext with (P := multiplicative_link);
    [ | exact multiplicative ].
  intros acc [[w o] l] Hm. unfold multiplicative_link, link_operator in Hm.
  cbn [fst snd] in Hm. apply TokenType_is_eq in Hm. subst o. reflexivity.
Qed.


End Multiplicative.



End Chains.

(** A chain of one precedence level is parsed into the left-nested tree. *)
Lemma parse_render_chain (c : chain_text) (trailing : str) :
  wf_chain_text c = true ->
  same_precedence c = true ->
  forallb isspace trailing = true ->
  (tokens <- Scanner.scan (render_chain c ++ trailing) ;; Parser.parse tokens)
  = Ok (chain_node c).
Proof.
  intros Hwf Hsame Htr.
  unfold same_precedence in Hsame.
  apply orb_true_iff in Hsame as [Ha | Hm].
  - rewrite <- (additive_chain_render c), <- (additive_chain_node c).
    apply parse_render_term; [ apply additive_chain_wf | ]; assumption.
  - rewrite <- (multiplicative_chain_render c Hm),
      <- (multiplicative_chain_node c Hm).
    apply parse_render_term; [ apply multiplicative_chain_wf | ]; assumption.
Qed.

(** * The claims *)

(** ** Precedence and associativity *)




(** C2.  Operators of one precedence level group from the left: for every
    chain of additive operators, and for every chain of multiplications, the
    parser builds the left-nested tree; so ["10 - 2 - 3"] evaluates to 5 and
    ["2 * 3 * 4"] to 24. *)
Theorem same_precedence_groups_left (c : chain_text) (trailing : str) :
  wf_chain_text c = true ->
  same_precedence c = true ->
  forallb isspace trailing = true ->
  (tokens <- Scanner.scan (render_chain c ++ trailing) ;; Parser.parse tokens)
    = Ok (chain_node c)
  /\ SimpleArithmetic.eval (lit "10 - 2 - 3") = Ok 5%Z
  /\ SimpleArithmetic.eval (lit "2 * 3 * 4") = Ok 24%Z.
Proof.
  intros Hwf Hsame Htr.
  split; [ | split; vm_compute; reflexivity ].
  apply parse_render_chain; assumption.
Qed.

(** ["10 - 2 - 3"] is parsed as (10-2)-3 and ["2 * 3 * 4"] as (2*3)*4. *)
Lemma same_precedence_groups_left_witness :
  (tokens <- Scanner.scan (lit "10 - 2 - 3") ;; Parser.parse tokens)
  = Ok (BinOp (BinOp (number "10") MINUS (number "2")) MINUS (number "3"))
  /\ (tokens <- Scanner.scan (lit "2 * 3 * 4") ;; Parser.parse tokens)
     = Ok (BinOp (BinOp (number "2") MUL (number "3")) MUL (number "4")).
Proof.
  split.
  - exact (proj1 (same_precedence_groups_left
                    (([], lit "10"),
                     [((lit " ", MINUS), (lit " ", lit "2"));
                      ((lit " ", MINUS), (lit " ", lit "3"))])
                    [] eq_refl eq_refl eq_refl)).
  - exact (proj1 (same_precedence_groups_left
                    (([], lit "2"),
                     [((lit " ", MUL), (lit " ", lit "3"));
                      ((lit " ", MUL), (lit " ", lit "4"))])
                    [] eq_refl eq_refl eq_refl)).
Defined.

(** ** Errors of the parser *)

(** C3.  On the empty token sequence [parse] does not fail with
    [ParseError]: [__literal] indexes the sequence before looking at
    anything else, and the [IndexError] escapes.  The same happens for the
    empty line and for a line of blanks, whose scan is the empty sequence. *)
Theorem parse_empty_sequence :
  Parser.parse [] = Raise IndexError
  /\ Scanner.scan (lit "") = Ok []
  /\ SimpleArithmetic.eval (lit "") = Raise IndexError
  /\ SimpleArithmetic.eval (lit "  ") = Raise IndexError.
Proof. repeat apply conj; vm_compute; reflexivity. Qed.

(** C4 as stated fails: a well-formed term followed by a trailing operator
    with no operand is accepted. *)
Lemma trailing_operator_accepted :
  is_additive (mkToken PLUS (lit "+")) = true
  /\ Scanner.scan (lit "2 +") = Ok [mkToken NUM (lit "2"); mkToken PLUS (lit "+")]
  /\ Parser.parse [mkToken NUM (lit "2"); mkToken PLUS (lit "+")]
     = Ok (number "2").
Proof. repeat apply conj; vm_compute; reflexivity. Qed.

(** C4, amended.  A sequence that starts with an operator, and a sequence
    in which an operator after a well-formed term is followed by a token
    that is not a NUM, make [parse] fail with [ParseError]; an operator that
    is the last token of the sequence is never looked at, and [parse]
    returns the term before it. *)
Theorem operator_without_factor (e : term_syntax) (o t : Token)
  (rest : list Token) :
  wf_term e = true -> is_NUM o = false -> is_NUM t = false ->
  Parser.parse (o :: rest) = Raise (ParseError (lit "Wrong syntax"))
  /\ Parser.parse (term_tokens e ++ o :: t :: rest)
     = Raise (ParseError (lit "Wrong syntax"))
  /\ Parser.parse (term_tokens e ++ [o]) = Ok (term_node e).
Proof.
  intros He Ho Ht. repeat split.
  - apply parse_operator_first, Ho.
  - apply parse_term_err; assumption.
  - apply parse_term_ok; [ exact He | reflexivity ].
Qed.

(** ["+"] alone, ["2 + *"] and ["2 +"]. *)
Lemma operator_without_factor_witness :
  Parser.parse [mkToken PLUS (lit "+")]
  = Raise (ParseError (lit "Wrong syntax"))
  /\ Parser.parse
       [mkToken NUM (lit "2"); mkToken PLUS (lit "+"); mkToken MUL (lit "*")]
     = Raise (ParseError (lit "Wrong syntax"))
  /\ Parser.parse [mkToken NUM (lit "2"); mkToken PLUS (lit "+")]
     = Ok (number "2").
Proof.
  exact (operator_without_factor
           ((mkToken NUM (lit "2"), []), [])
           (mkToken PLUS (lit "+")) (mkToken MUL (lit "*")) []
           eq_refl eq_refl eq_refl).
Defined.

(** ** Errors of the scanner *)

(** C5 as stated fails: a character that is no ASCII digit, no operator and
    no blank can be numeric for [str.isnumeric], and is then scanned as a
    number; the Arabic-Indic digit three even evaluates, to 3. *)
Lemma non_ascii_digit_scanned :
  is_ascii_digit 1635%N = false
  /\ Scanner.is_operator_char 1635%N = false
  /\ isspace 1635%N = false
  /\ Scanner.scan [1635%N] = Ok [mkToken NUM [1635%N]]
  /\ SimpleArithmetic.eval [1635%N] = Ok 3%Z.
Proof. repeat apply conj; vm_compute; reflexivity. Qed.

(** C5, amended.  When the source contains a character that is neither
    numeric ([str.isnumeric]), nor an operator, nor a blank, [scan] fails
    with [UnexpectedInputError] built from the first such character, and
    returns no tokens. *)
Theorem unexpected_input (pre post : str) (c : char) :
  forallb scannable pre = true -> scannable c = false ->
  Scanner.scan (pre ++ c :: post) = Raise (UnexpectedInputError [c])
  /\ exn_message (UnexpectedInputError [c]) = lit "Unexpected input: " ++ [c].
Proof.
  intros Hpre Hc. split; [ | reflexivity ].
  rewrite scan_lexT. apply lexT_first_unscannable; assumption.
Qed.

(** ["2 & 3"] fails on ["&"]. *)
Lemma unexpected_input_witness :
  Scanner.scan (lit "2 & 3") = Raise (UnexpectedInputError (lit "&"))
  /\ exn_message (UnexpectedInputError (lit "&")) = lit "Unexpected input: &".
Proof.
  exact (unexpected_input (lit "2 ") (lit " 3") 38%N eq_refl eq_refl).
Defined.

(** ** Errors of the evaluator *)

(** C6.  [visit_Literal] never fails with [EvaluationError]: a lexeme that
    [int] cannot convert lets the [ValueError] of [int] escape, as for the
    NUM token the scanner makes of the vulgar fraction one half. *)
Theorem visit_Literal_conversion_error :
  evaluate (Literal (mkToken NUM [189%N])) = Raise ValueError
  /\ (forall value : Token,
        evaluate (Literal value) = Raise ValueError
        \/ exists z, evaluate (Literal value) = Ok z).
Proof.
  split; [ vm_compute; reflexivity | ].
  intros value. unfold evaluate. cbn [accept visit_Literal Evaluator].
  apply int_outcome.
Qed.

(** ** Tokens *)

(** C7 as stated fails when "digit" is read more narrowly than the
    scanner's [str.isnumeric]: a run of digits followed by a numeric
    character that is no digit is not a token of its own.  ["12"] followed
    by the vulgar fraction one half (U+00BD) is one token of three
    characters, and ["1"] followed by the Arabic-Indic digit three (U+0663)
    is the one token that evaluates to 13. *)
Lemma digit_run_extended :
  is_ascii_digit 189%N = false /\ isdecimal 189%N = false
  /\ isnumeric 189%N = true
  /\ Scanner.scan [49%N; 50%N; 189%N] = Ok [mkToken NUM [49%N; 50%N; 189%N]]
  /\ is_ascii_digit 1635%N = false
  /\ Scanner.scan [49%N; 1635%N] = Ok [mkToken NUM [49%N; 1635%N]]
  /\ SimpleArithmetic.eval [49%N; 1635%N] = Ok 13%Z.
Proof. repeat apply conj; vm_compute; reflexivity. Qed.

(** C7, amended.  Maximal munch: a run of numeric characters
    ([str.isnumeric], which the decimal digits are) that is not preceded and
    not followed by a numeric character becomes one NUM token whose lexeme
    is the whole run, between the tokens of what precedes it and the tokens
    of what follows it. *)
Theorem maximal_munch (pre run post : str) :
  run <> [] -> forallb isnumeric run = true ->
  ends_numeric pre = false -> starts_numeric post = false ->
  Scanner.scan (pre ++ run ++ post)
  = (before <- Scanner.scan pre ;;
     after <- Scanner.scan post ;;
     Ok (before ++ mkToken NUM run :: after)).
Proof.
  intros Hne Hrun Hpre Hpost. rewrite !scan_lexT.
  rewrite lexT_app by (rewrite Hpre; reflexivity).
  rewrite (lexT_numeric_prefix _ _ Hne Hrun Hpost).
  destruct (lexT pre), (lexT post); reflexivity.
Qed.

(** ["123+4"] is [NUM "123"], [PLUS], [NUM "4"]. *)
Lemma maximal_munch_witness :
  Scanner.scan (lit "123+4")
  = Ok [mkToken NUM (lit "123"); mkToken PLUS (lit "+"); mkToken NUM (lit "4")].
Proof.
  exact (maximal_munch [] (lit "123") (lit "+4")
           ltac:(discriminate) eq_refl eq_refl eq_refl).
Defined.

(** C8.  The formatter renders a [BinOp] as ["(OP left right)"], with the
    operator's name, and a [Literal] as its lexeme; on the tree of
    ["2+3*4"] it gives ["(PLUS 2 (MUL 3 4))"]. *)
Theorem Formatter_prefix_form :
  (forall (a b : Node) (operator : TokenType),
     accept Formatter (BinOp a operator b)
     = lit "(" ++ TokenType_value operator ++ lit " " ++ accept Formatter a
         ++ lit " " ++ accept Formatter b ++ lit ")")
  /\ (forall value : Token, accept Formatter (Literal value) = lexeme value)
  /\ (tokens <- Scanner.scan (lit "2+3*4") ;;
      ast <- Parser.parse tokens ;;
      Ok (accept Formatter ast)) = Ok (lit "(PLUS 2 (MUL 3 4))").
Proof.
  split; [ reflexivity | split; [ reflexivity | vm_compute; reflexivity ] ].
Qed.

(** C9.  When [scan] succeeds, the lexemes of its tokens, concatenated in
    order, are the source without its blanks. *)
Theorem lexemes_are_the_source (source : str) (tokens : list Token) :
  Scanner.scan source = Ok tokens ->
  List.concat (map lexeme tokens)
  = filter (fun c => negb (isspace c)) source.
Proof. rewrite scan_lexT. apply lexT_lexemes. Qed.

Lemma lexemes_are_the_source_witness :
  List.concat
    (map lexeme
       [mkToken NUM (lit "12"); mkToken MINUS (lit "-"); mkToken NUM (lit "3")])
  = filter (fun c => negb (isspace c)) (lit " 12 -3 ").
Proof.
  exact (lexemes_are_the_source (lit " 12 -3 ") _ eq_refl).
Defined.

(** C10.  There is a one-character input, the vulgar fraction one half
    (U+00BD), that is neither an ASCII digit nor an operator nor a blank,
    that [scan] accepts as one NUM token, and on which the pipeline raises a
    plain [ValueError], none of the three errors of the package. *)
Theorem numeric_character_escapes :
  exists c : char,
    is_ascii_digit c = false
    /\ Scanner.is_operator_char c = false
    /\ isspace c = false
    /\ Scanner.scan [c] = Ok [mkToken NUM [c]]
    /\ SimpleArithmetic.eval [c] = Raise ValueError
    /\ is_pipeline_error ValueError = false.
Proof.
  exists 189%N. repeat apply conj; vm_compute; reflexivity.
Qed.

(** * Further properties of the code *)

(** ** Scanner: outcomes *)

Lemma forallb_first_failure {A : Type} (p : A -> bool) (s : list A) :
  forallb p s = false ->
  exists pre c post,
    s = pre ++ c :: post /\ forallb p pre = true /\ p c = false.
Proof.
  induction s as [ | a s IH]; cbn [forallb]; intros H; [ discriminate | ].
  destruct (p a) eqn:Ha.
  - destruct (IH H) as (pre & c & post & -> & Hpre & Hc).
    exists (a :: pre), c, post. cbn [forallb app]. rewrite Ha. auto.
  - exists [], a, s. auto.
Qed.

Lemma lexT_scannable (s : str) :
  forallb scannable s = true -> exists ts, lexT s = Ok ts.
Proof.
  remember (length s) as n eqn:Hn. revert s Hn.
  induction n as [n IH] using lt_wf_ind. intros s Hn Hs.
  destruct s as [ | c r]; [ exists []; reflexivity | ].
  cbn [length] in Hn. cbn [forallb] in Hs.
  apply andb_true_iff in Hs as [Hc Hr]. rewrite lexT_cons.
  destruct (Scanner.is_operator_char c) eqn:Hop.
  - destruct (scan_operator_ok _ Hop) as [t ->].
    destruct (IH (length r) ltac:(lia) r eq_refl Hr) as [ts ->].
    eexists. reflexivity.
  - destruct (isnumeric c) eqn:Hnum.
    + cbv zeta. pose proof (take_numeric_le r) as Hle.
      destruct (IH (length (skipn (take_numeric r) r))
                  ltac:(rewrite length_skipn; lia) _ eq_refl) as [ts ->].
      * rewrite <- (firstn_skipn (take_numeric r) r), forallb_app in Hr.
        apply andb_true_iff in Hr. tauto.
      * eexists. reflexivity.
    + unfold scannable in Hc. rewrite Hop, Hnum in Hc. cbn [orb] in Hc.
      rewrite Hc. apply (IH (length r)); [ lia | reflexivity | exact Hr ].
Qed.

Lemma scan_operator_scanned (c : char) (t : Token) :
  Scanner.scan_operator c = Ok t -> scanned_token t = true.
Proof.
  unfold Scanner.scan_operator.
  destruct (c =? 43)%N eqn:E1;
    [ | destruct (c =? 45)%N eqn:E2; [ | destruct (c =? 42)%N eqn:E3 ] ];
    cbn [bind]; intros H; try discriminate; injection H as <-;
    unfold scanned_token; cbn [type lexeme operator_char].
  - apply N.eqb_eq in E1. subst. reflexivity.
  - apply N.eqb_eq in E2. subst. reflexivity.
  - apply N.eqb_eq in E3. subst. reflexivity.
Qed.

Lemma lexT_scanned_tokens (s : str) (ts : list Token) :
  lexT s = Ok ts -> forallb scanned_token ts = true.
Proof.
  remember (length s) as n eqn:Hn. revert s ts Hn.
  induction n as [n IH] using lt_wf_ind. intros s ts Hn H.
  destruct s as [ | c r].
  - rewrite lexT_nil in H. injection H as <-. reflexivity.
  - cbn [length] in Hn. rewrite lexT_cons in H.
    destruct (Scanner.is_operator_char c) eqn:Hop.
    + destruct (Scanner.scan_operator c) as [t | | ] eqn:Ht;
        cbn [bind] in H; try discriminate.
      destruct (lexT r) as [tr | | ] eqn:Hr; cbn [bind] in H;
        try discriminate.
      injection H as <-. cbn [forallb].
      rewrite (scan_operator_scanned _ _ Ht).
      apply (IH (length r)) with (s := r); [ lia | reflexivity | exact Hr ].
    + destruct (isnumeric c) eqn:Hc.
      * cbv zeta in H. pose proof (take_numeric_firstn r) as Hf.
        pose proof (take_numeric_le r) as Hle.
        set (k := take_numeric r) in *.
        destruct (lexT (skipn k r)) as [tr | | ] eqn:Hr;
          cbn [bind] in H; try discriminate.
        injection H as <-. cbn [forallb]. unfold scanned_token at 1.
        cbn [type lexeme length Nat.eqb negb forallb]. rewrite Hc, Hf.
        apply (IH (length (skipn k r))) with (s := skipn k r);
          [ rewrite length_skipn; lia | reflexivity | exact Hr ].
      * destruct (isspace c); [ | discriminate ].
        apply (IH (length r)) with (s := r); [ lia | reflexivity | exact H ].
Qed.

Lemma scan_cases (source : str) :
  (exists tokens, Scanner.scan source = Ok tokens)
  \/ (exists pre c post,
        source = pre ++ c :: post
        /\ forallb scannable pre = true /\ scannable c = false
        /\ Scanner.scan source = Raise (UnexpectedInputError [c])).
Proof.
  rewrite scan_lexT. destruct (forallb scannable source) eqn:Hs.
  - left. apply lexT_scannable, Hs.
  - right. destruct (forallb_first_failure _ _ Hs)
      as (pre & c & post & -> & Hpre & Hc).
    exists pre, c, post. repeat apply conj; auto.
    apply lexT_first_unscannable; assumption.
Qed.

(** X1.  [scan] either returns the tokens, or fails with
    [UnexpectedInputError] on the first character of the source that is
    neither an operator, nor numeric, nor a blank: no other exception leaves
    it (the indexing and the operator match inside never fail). *)
Theorem scan_outcome (source : str) :
  (exists tokens, Scanner.scan source = Ok tokens)
  \/ (exists pre c post,
        source = pre ++ c :: post
        /\ forallb scannable pre = true /\ scannable c = false
        /\ Scanner.scan source = Raise (UnexpectedInputError [c])).
Proof. apply scan_cases. Qed.

(** X2.  [scan] returns exactly on the sources all of whose characters are
    operators, numeric characters or blanks. *)
Theorem scan_succeeds_iff (source : str) :
  (exists tokens, Scanner.scan source = Ok tokens)
  <-> forallb scannable source = true.
Proof.
  split.
  - intros [tokens H]. destruct (forallb scannable source) eqn:Hs;
      [ reflexivity | ].
    destruct (forallb_first_failure _ _ Hs)
      as (pre & c & post & -> & Hpre & Hc).
    rewrite scan_lexT, (lexT_first_unscannable _ _ _ Hpre Hc) in H.
    discriminate.
  - intros Hs. rewrite scan_lexT. apply lexT_scannable, Hs.
Qed.

(** X3.  Every token [scan] returns is well formed: an operator token has
    the one character of its kind as lexeme, and a NUM token has a
    non-empty lexeme made of numeric characters only. *)
Theorem scan_tokens_well_formed (source : str) (tokens : list Token) :
  Scanner.scan source = Ok tokens -> forallb scanned_token tokens = true.
Proof. rewrite scan_lexT. apply lexT_scanned_tokens. Qed.

Lemma scan_tokens_well_formed_witness :
  forallb scanned_token
    [mkToken NUM (lit "12"); mkToken MUL (lit "*"); mkToken NUM (lit "3")]
  = true.
Proof.
  exact (scan_tokens_well_formed (lit "12 * 3") _ eq_refl).
Defined.

(** ** Scanner: composition and blanks *)

(** X4.  Scanning distributes over any split of the source that does not
    cut a run of numeric characters: the tokens of the whole are the tokens
    of the left part followed by those of the right part, and the first
    failure is the failure of the whole. *)
Theorem scan_composes (a b : str) :
  ends_numeric a && starts_numeric b = false ->
  Scanner.scan (a ++ b)
  = (ta <- Scanner.scan a ;; tb <- Scanner.scan b ;; Ok (ta ++ tb)).
Proof. intros H. rewrite !scan_lexT. apply lexT_app, H. Qed.

Lemma scan_composes_witness :
  Scanner.scan (lit "12+" ++ lit "3")
  = (ta <- Scanner.scan (lit "12+") ;;
     tb <- Scanner.scan (lit "3") ;; Ok (ta ++ tb)).
Proof. exact (scan_composes (lit "12+") (lit "3") eq_refl). Defined.

Lemma starts_numeric_blank_prefix (w b : str) :
  forallb isspace w = true -> w <> [] -> starts_numeric (w ++ b) = false.
Proof.
  destruct w as [ | c w]; [ contradiction | ]. cbn [forallb app starts_numeric].
  intros H _. apply andb_true_iff in H as [Hc _].
  apply space_not_numeric, Hc.
Qed.

Lemma scan_insert_blanks (a w b : str) :
  forallb isspace w = true ->
  ends_numeric a && starts_numeric b = false ->
  Scanner.scan (a ++ w ++ b) = Scanner.scan (a ++ b).
Proof.
  intros Hw Hab. rewrite !scan_lexT.
  destruct w as [ | c w]; [ reflexivity | ].
  rewrite (lexT_app a (_ ++ b)).
  - rewrite (lexT_space_prefix _ _ Hw), (lexT_app a b Hab). reflexivity.
  - rewrite starts_numeric_blank_prefix by (assumption || discriminate).
    apply andb_false_r.
Qed.

(** X5.  Blanks are insignificant between tokens: inserting blanks at a
    place that is not inside a run of numeric characters (in particular in
    front of the source or behind it) does not change what [scan] returns or
    raises. *)
Theorem blanks_between_tokens (a w b : str) :
  forallb isspace w = true ->
  ends_numeric a && starts_numeric b = false ->
  Scanner.scan (a ++ w ++ b) = Scanner.scan (a ++ b).
Proof. apply scan_insert_blanks. Qed.

Lemma blanks_between_tokens_witness :
  Scanner.scan (lit "1+" ++ lit "  " ++ lit "2") = Scanner.scan (lit "1+" ++ lit "2").
Proof.
  exact (blanks_between_tokens (lit "1+") (lit "  ") (lit "2") eq_refl eq_refl).
Defined.

(** X6.  A blank always ends a token: whatever stands on its two sides is
    scanned separately, so digits separated by a blank are two NUM tokens. *)
Theorem blanks_separate_tokens (a w b : str) :
  forallb isspace w = true -> w <> [] ->
  Scanner.scan (a ++ w ++ b)
  = (ta <- Scanner.scan a ;; tb <- Scanner.scan b ;; Ok (ta ++ tb)).
Proof.
  intros Hw Hne. rewrite !scan_lexT. rewrite (lexT_app a (w ++ b)).
  - rewrite (lexT_space_prefix _ _ Hw). reflexivity.
  - rewrite (starts_numeric_blank_prefix _ b Hw Hne). apply andb_false_r.
Qed.

Lemma blanks_separate_tokens_witness :
  Scanner.scan (lit "1" ++ lit " " ++ lit "2")
  = Ok [mkToken NUM (lit "1"); mkToken NUM (lit "2")].
Proof.
  exact (blanks_separate_tokens (lit "1") (lit " ") (lit "2") eq_refl
           ltac:(discriminate)).
Defined.

Lemma blank_free_nil (s : str) :
  blank_free s = [] <-> forallb isspace s = true.
Proof.
  unfold blank_free. induction s as [ | c r IH]; cbn [filter forallb].
  - tauto.
  - destruct (isspace c); cbn [negb andb]; [ exact IH | ].
    split; discriminate.
Qed.

Lemma scan_nil_iff (source : str) :
  Scanner.scan source = Ok [] <-> forallb isspace source = true.
Proof.
  rewrite scan_lexT. split.
  - intros H. apply lexT_lexemes in H. apply blank_free_nil.
    symmetry. exact H.
  - intros H. rewrite <- (app_nil_r source), (lexT_space_prefix _ _ H).
    reflexivity.
Qed.

(** X7.  [scan] returns the empty token list exactly on the sources made of
    blanks only (the empty source among them). *)
Theorem scan_no_tokens_iff (source : str) :
  Scanner.scan source = Ok [] <-> forallb isspace source = true.
Proof. apply scan_nil_iff. Qed.

Lemma concat_length_nonempty {A : Type} (l : list (list A)) :
  forallb (fun x => negb (length x =? 0)) l = true ->
  length l <= length (List.concat l).
Proof.
  induction l as [ | x l IH]; cbn [forallb List.concat length]; [ lia | ].
  intros H. apply andb_true_iff in H as [Hx Hl].
  rewrite length_app. specialize (IH Hl).
  destruct x; [ discriminate | cbn [length]; lia ].
Qed.

Lemma scanned_token_nonempty (t : Token) :
  scanned_token t = true -> negb (length (lexeme t) =? 0) = true.
Proof.
  unfold scanned_token. destruct (type t).
  4: { intros H. apply andb_true_iff in H. tauto. }
  all: destruct (lexeme t) as [ | c [ | d l]]; try discriminate; reflexivity.
Qed.

(** X8.  [scan] never returns more tokens than the source has characters
    that are not blanks. *)
Theorem scan_token_count (source : str) (tokens : list Token) :
  Scanner.scan source = Ok tokens ->
  length tokens <= length (blank_free source).
Proof.
  intros H. rewrite scan_lexT in H. unfold blank_free.
  rewrite <- (lexT_lexemes _ _ H), <- (length_map lexeme tokens).
  apply concat_length_nonempty.
  apply lexT_scanned_tokens in H.
  rewrite forallb_forall in H |- *. intros x Hx.
  apply in_map_iff in Hx as (t & <- & Ht).
  apply scanned_token_nonempty, H, Ht.
Qed.

Lemma scan_token_count_witness :
  length [mkToken NUM (lit "12"); mkToken MUL (lit "*"); mkToken NUM (lit "3")]
  <= length (blank_free (lit "12 * 3")).
Proof. exact (scan_token_count (lit "12 * 3") _ eq_refl). Defined.

(** ** Parser: what a successful parse has read *)

Lemma clamp_at_end (ts : list Token) (p : nat) :
  0 < length ts -> length ts <= p + 1 -> S (clamp ts p) = length ts.
Proof. unfold clamp. lia. Qed.

Lemma skipn_two (ts : list Token) (p : nat) :
  p + 1 < length ts ->
  exists m t,
    nth_error ts p = Some m /\ nth_error ts (S p) = Some t
    /\ skipn p ts = m :: t :: skipn (p + 2) ts.
Proof.
  intros H.
  destruct (item_in_range ts (i := p) ltac:(lia)) as [m Hm].
  destruct (item_in_range ts (i := S p) ltac:(lia)) as [t Ht].
  exists m, t. repeat apply conj; try assumption.
  rewrite (skipn_item Hm), (skipn_item Ht).
  replace (p + 2) with (S (S p)) by lia. reflexivity.
Qed.

Lemma short_rest_stops (rest : list Token) :
  length rest <= 1 -> stops_factor rest = true /\ ignored_rest rest = true.
Proof.
  destruct rest as [ | x [ | y rest]]; cbn [length]; intros H;
    try (split; reflexivity). lia.
Qed.

Lemma factor_loop_sound (fuel : nat) :
  forall (ts : list Token) (p : nat) (acc : Node),
  1 <= p <= length ts -> length ts - p <= fuel ->
  Parser.factor_loop fuel acc (cursor ts (clamp ts p))
  = Raise (ParseError (lit "Wrong syntax"))
  \/ exists tl rest,
       forallb wf_mul_pair tl = true /\ stops_factor rest = true
       /\ skipn p ts = flat_map mul_pair_tokens tl ++ rest
       /\ Parser.factor_loop fuel acc (cursor ts (clamp ts p))
          = Ok (fold_left (fun a q => BinOp a MUL (Literal (snd q))) tl acc,
                cursor ts
                  (clamp ts (p + length (flat_map mul_pair_tokens tl)))).
Proof.
  induction fuel as [ | fuel IH]; intros ts p acc Hp Hfuel.
  - right. exists [], (skipn p ts). cbn [flat_map app length fold_left forallb].
    rewrite Nat.add_0_r, factor_loop_last by (apply clamp_at_end; lia).
    repeat apply conj; try reflexivity.
    apply short_rest_stops. rewrite length_skipn. lia.
  - destruct (le_lt_dec (length ts) (p + 1)) as [Hend | Hin].
    + right. exists [], (skipn p ts).
      cbn [flat_map app length fold_left forallb].
      rewrite Nat.add_0_r, factor_loop_last by (apply clamp_at_end; lia).
      repeat apply conj; try reflexivity.
      apply short_rest_stops. rewrite length_skipn. lia.
    + destruct (skipn_two ts p Hin) as (m & t & Hm & Ht & Hskip).
      rewrite clamp_inside by lia.
      destruct (is_MUL m) eqn:HM.
      * rewrite factor_loop_turn with (m := m) (t := t) by assumption.
        destruct (is_NUM t) eqn:HN; [ | left; reflexivity ].
        rewrite advance_clamp by lia.
        replace (S (S p)) with (p + 2) by lia.
        destruct (IH ts (p + 2) (BinOp acc MUL (Literal t))
                    ltac:(lia) ltac:(lia))
          as [Herr | (tl & rest & Hwf & Hstop & Hrest & Hok)];
          [ left; exact Herr | right ].
        exists ((m, t) :: tl), rest. repeat apply conj.
        -- cbn [forallb]. unfold wf_mul_pair at 1. cbn [fst snd].
           rewrite HM, HN, Hwf. reflexivity.
        -- exact Hstop.
        -- rewrite Hskip, Hrest. reflexivity.
        -- assert (E : p + length (flat_map mul_pair_tokens ((m, t) :: tl))
                       = p + 2 + length (flat_map mul_pair_tokens tl)).
           { cbn [flat_map]. rewrite length_app. cbn [mul_pair_tokens length].
             lia. }
           rewrite E. cbn [fold_left snd]. exact Hok.
      * right. exists [], (skipn p ts).
        cbn [flat_map app length fold_left forallb].
        rewrite Nat.add_0_r, clamp_inside by lia.
        rewrite factor_loop_miss with (t := m) by assumption.
        repeat apply conj; try reflexivity.
        rewrite Hskip. cbn [stops_factor]. rewrite HM. reflexivity.
Qed.

Lemma factor_sound (ts : list Token) (p fuel : nat) :
  p < length ts -> length ts <= fuel ->
  Parser.factor fuel (cursor ts p) = Raise (ParseError (lit "Wrong syntax"))
  \/ exists f rest,
       wf_factor f = true /\ stops_factor rest = true
       /\ skipn p ts = factor_tokens f ++ rest
       /\ Parser.factor fuel (cursor ts p)
          = Ok (factor_node f,
                cursor ts (clamp ts (p + length (factor_tokens f)))).
Proof.
  intros Hp Hfuel. destruct (item_in_range ts Hp) as [h Hh].
  unfold Parser.factor, Parser.mbind. rewrite (literal_cursor Hh).
  destruct (is_NUM h) eqn:HN; [ | left; reflexivity ].
  rewrite advance_clamp by exact Hp.
  replace (S p) with (p + 1) by lia.
  destruct (factor_loop_sound fuel ts (p + 1) (Literal h)
              ltac:(lia) ltac:(lia))
    as [Herr | (tl & rest & Hwf & Hstop & Hrest & Hok)];
    [ left; exact Herr | right ].
  exists (h, tl), rest. unfold wf_factor, factor_tokens, factor_node.
  cbn [fst snd]. repeat apply conj.
  - rewrite HN, Hwf. reflexivity.
  - exact Hstop.
  - rewrite (skipn_item Hh). replace (S p) with (p + 1) by lia.
    rewrite Hrest. reflexivity.
  - replace (p + length (h :: flat_map mul_pair_tokens tl))
      with (p + 1 + length (flat_map mul_pair_tokens tl))
      by (cbn [length]; lia).
    exact Hok.
Qed.

Lemma term_loop_sound (fuel : nat) :
  forall (ts : list Token) (p n : nat) (acc : Node),
  1 <= p <= length ts -> length ts <= n -> length ts - p <= fuel ->
  stops_factor (skipn p ts) = true ->
  Parser.term_loop n fuel acc (cursor ts (clamp ts p))
  = Raise (ParseError (lit "Wrong syntax"))
  \/ exists tl rest self,
       forallb wf_add_pair tl = true /\ ignored_rest rest = true
       /\ skipn p ts = flat_map add_pair_tokens tl ++ rest
       /\ Parser.term_loop n fuel acc (cursor ts (clamp ts p))
          = Ok (fold_left
                  (fun a q => BinOp a (type (fst q)) (factor_node (snd q)))
                  tl acc, self).
Proof.
  induction fuel as [ | fuel IH]; intros ts p n acc Hp Hn Hfuel Hstop.
  - right. exists [], (skipn p ts). eexists.
    cbn [flat_map app fold_left forallb].
    rewrite term_loop_last by (apply clamp_at_end; lia).
    repeat apply conj; try reflexivity.
    apply short_rest_stops. rewrite length_skipn. lia.
  - destruct (le_lt_dec (length ts) (p + 1)) as [Hend | Hin].
    + right. exists [], (skipn p ts). eexists.
      cbn [flat_map app fold_left forallb].
      rewrite term_loop_last by (apply clamp_at_end; lia).
      repeat apply conj; try reflexivity.
      apply short_rest_stops. rewrite length_skipn. lia.
    + destruct (skipn_two ts p Hin) as (o & t & Ho & Ht & Hskip).
      rewrite clamp_inside by lia.
      destruct (is_additive o) eqn:HA.
      * rewrite term_loop_turn with (o := o) by (assumption || lia).
        destruct (factor_sound ts (S p) n ltac:(lia) Hn)
          as [Herr | (f & rest1 & Hf & Hstop1 & Hrest1 & Hok)];
          [ left; rewrite Herr; reflexivity | ].
        rewrite Hok.
        assert (Hlen : S p + length (factor_tokens f) <= length ts).
        { apply (f_equal (@length Token)) in Hrest1.
          rewrite length_skipn, length_app in Hrest1. lia. }
        assert (Hrest' : skipn (S p + length (factor_tokens f)) ts = rest1).
        { rewrite Nat.add_comm, <- skipn_skipn, Hrest1, skipn_app, skipn_all,
            Nat.sub_diag. reflexivity. }
        destruct (IH ts (S p + length (factor_tokens f)) n
                    (BinOp acc (type o) (factor_node f))
                    ltac:(lia) Hn ltac:(lia)
                    ltac:(rewrite Hrest'; exact Hstop1))
          as [Herr | (tl & rest & self & Hwf & Hign & Hrest & Hok')];
          [ left; exact Herr | right ].
        exists ((o, f) :: tl), rest, self. repeat apply conj.
        -- cbn [forallb]. unfold wf_add_pair at 1. cbn [fst snd].
           rewrite HA, Hf, Hwf. reflexivity.
        -- exact Hign.
        -- rewrite (skipn_item Ho), Hrest1. cbn [flat_map].
           unfold add_pair_tokens at 1. cbn [fst snd app].
           rewrite <- app_assoc. do 2 f_equal.
           rewrite <- Hrest, Hrest'. reflexivity.
        -- exact Hok'.
      * right. exists [], (skipn p ts). eexists.
        cbn [flat_map app fold_left forallb].
        rewrite term_loop_miss with (t := o) by assumption.
        repeat apply conj; try reflexivity.
        rewrite Hskip in Hstop |- *. cbn [stops_factor ignored_rest] in *.
        apply negb_true_iff in Hstop.
        clear - Hstop HA. unfold is_NUM, is_MUL, is_additive in *.
        destruct (type o); try discriminate; reflexivity.
Qed.

Lemma parse_nonempty (tokens : list Token) :
  tokens <> [] ->
  Parser.parse tokens = Raise (ParseError (lit "Wrong syntax"))
  \/ exists e rest,
       wf_term e = true /\ ignored_rest rest = true
       /\ tokens = term_tokens e ++ rest
       /\ Parser.parse tokens = Ok (term_node e).
Proof.
  intros Hne.
  assert (H0 : 0 < length tokens) by (destruct tokens; cbn; [ contradiction | lia ]).
  unfold Parser.parse, Parser.term, Parser.mbind.
  change (Parser.mkState tokens 0) with (cursor tokens 0).
  destruct (factor_sound tokens 0 (length tokens) H0 ltac:(lia))
    as [Herr | (f & rest1 & Hf & Hstop1 & Hrest1 & Hok)];
    [ left; rewrite Herr; reflexivity | ].
  rewrite Hok. cbn [skipn Nat.add] in *.
  assert (Hlen : length (factor_tokens f) <= length tokens).
  { rewrite Hrest1, length_app. lia. }
  pose proof (factor_tokens_length f) as Hfl.
  assert (Hrest' : skipn (length (factor_tokens f)) tokens = rest1).
  { rewrite Hrest1 at 1. rewrite skipn_app, skipn_all, Nat.sub_diag.
    reflexivity. }
  destruct (term_loop_sound (length tokens) tokens
              (length (factor_tokens f)) (length tokens) (factor_node f)
              ltac:(lia) ltac:(lia) ltac:(lia)
              ltac:(rewrite Hrest'; exact Hstop1))
    as [Herr | (tl & rest & self & Hwf & Hign & Hrest & Hok')];
    [ left; rewrite Herr; reflexivity | right ].
  exists (f, tl), rest. unfold wf_term, term_tokens, term_node.
  cbn [fst snd]. repeat apply conj.
  - rewrite Hf, Hwf. reflexivity.
  - exact Hign.
  - rewrite <- app_assoc, <- Hrest, Hrest'. exact Hrest1.
  - rewrite Hok'. reflexivity.
Qed.

(** X9.  [parse] returns a tree exactly when the token sequence is a
    well-formed term followed by tokens it ignores (nothing, one token of
    any kind, or a sequence that starts with a NUM); the tree is then the
    left-nested tree of that term. *)
Theorem parse_returns_iff (tokens : list Token) (ast : Node) :
  Parser.parse tokens = Ok ast
  <-> exists e rest,
        wf_term e = true /\ ignored_rest rest = true
        /\ tokens = term_tokens e ++ rest /\ ast = term_node e.
Proof.
  split.
  - intros H. destruct tokens as [ | t ts]; [ discriminate | ].
    destruct (parse_nonempty (t :: ts) ltac:(discriminate))
      as [Herr | (e & rest & He & Hrest & Hts & Hok)];
      [ rewrite Herr in H; discriminate | ].
    exists e, rest. repeat apply conj; try assumption. congruence.
  - intros (e & rest & He & Hrest & -> & ->). apply parse_term_ok; assumption.
Qed.

(** X10.  The only exceptions that leave [parse] are [IndexError], on the
    empty sequence and on nothing else, and [ParseError("Wrong syntax")]. *)
Theorem parse_exceptions (tokens : list Token) (e : exn) :
  Parser.parse tokens = Raise e ->
  (tokens = [] /\ e = IndexError)
  \/ (tokens <> [] /\ e = ParseError (lit "Wrong syntax")).
Proof.
  intros H. destruct tokens as [ | t ts].
  - left. split; [ reflexivity | ]. vm_compute in H. congruence.
  - right. split; [ discriminate | ].
    destruct (parse_nonempty (t :: ts) ltac:(discriminate))
      as [Herr | (s & rest & _ & _ & _ & Hok)]; congruence.
Qed.

Lemma parse_exceptions_witness :
  ([mkToken MUL (lit "*")] = [] /\ ParseError (lit "Wrong syntax") = IndexError)
  \/ ([mkToken MUL (lit "*")] <> []
      /\ ParseError (lit "Wrong syntax") = ParseError (lit "Wrong syntax")).
Proof. exact (parse_exceptions [mkToken MUL (lit "*")] _ eq_refl). Defined.

(** X11.  Tokens after a complete term are dropped: when the rest is a
    single token, or starts with a NUM, [parse] returns what it returns on
    the term alone. *)
Theorem trailing_tokens_dropped (e : term_syntax) (rest : list Token) :
  wf_term e = true -> ignored_rest rest = true ->
  Parser.parse (term_tokens e ++ rest) = Parser.parse (term_tokens e).
Proof.
  intros He Hrest. rewrite (parse_term_ok _ _ He Hrest).
  rewrite <- (app_nil_r (term_tokens e)).
  symmetry. apply parse_term_ok; [ exact He | reflexivity ].
Qed.

(** ["1 2 3"] parses to the literal 1. *)
Lemma trailing_tokens_dropped_witness :
  Parser.parse
    [mkToken NUM (lit "1"); mkToken NUM (lit "2"); mkToken NUM (lit "3")]
  = Parser.parse [mkToken NUM (lit "1")].
Proof.
  exact (trailing_tokens_dropped ((mkToken NUM (lit "1"), []), [])
           [mkToken NUM (lit "2"); mkToken NUM (lit "3")] eq_refl eq_refl).
Defined.

(** ** Evaluator: trees of the parser *)

Lemma evaluates_mul_tail (tl : list (Token * Token)) :
  forall acc : Node,
  evaluates (evaluate acc) ->
  evaluates
    (evaluate (fold_left (fun a q => BinOp a MUL (Literal (snd q))) tl acc)).
Proof.
  induction tl as [ | [m t] tl IH]; intros acc Hacc; [ exact Hacc | ].
  cbn [fold_left snd]. apply IH. rewrite evaluate_BinOp.
  destruct Hacc as [-> | [z ->]]; [ left; reflexivity | ].
  change (evaluate (Literal t)) with (int (lexeme t)).
  destruct (int_outcome (lexeme t)) as [-> | [z' ->]];
    [ left; reflexivity | right; eexists; reflexivity ].
Qed.

Lemma evaluates_factor (f : factor_syntax) :
  evaluates (evaluate (factor_node f)).
Proof.
  destruct f as [h tl]. unfold factor_node. cbn [fst snd].
  apply evaluates_mul_tail. apply int_outcome.
Qed.

Lemma evaluates_add_tail (tl : list (Token * factor_syntax)) :
  forall acc : Node,
  forallb wf_add_pair tl = true ->
  evaluates (evaluate acc) ->
  evaluates
    (evaluate
       (fold_left (fun a q => BinOp a (type (fst q)) (factor_node (snd q)))
          tl acc)).
Proof.
  induction tl as [ | [o f] tl IH]; intros acc Hwf Hacc; [ exact Hacc | ].
  cbn [forallb] in Hwf. apply andb_true_iff in Hwf as [Hp Htl].
  unfold wf_add_pair in Hp. cbn [fst snd] in Hp.
  apply andb_true_iff in Hp as [Ho _].
  cbn [fold_left fst snd]. apply IH; [ exact Htl | ].
  rewrite evaluate_BinOp.
  destruct Hacc as [-> | [z ->]]; [ left; reflexivity | ].
  destruct (evaluates_factor f) as [-> | [z' ->]]; [ left; reflexivity | ].
  unfold is_additive in Ho. right.
  destruct (type o); try discriminate; eexists; reflexivity.
Qed.

Lemma evaluates_term (e : term_syntax) :
  wf_term e = true -> evaluates (evaluate (term_node e)).
Proof.
  destruct e as [f tl]. unfold wf_term, term_node. cbn [fst snd].
  intros H. apply andb_true_iff in H as [_ Htl].
  apply evaluates_add_tail; [ exact Htl | apply evaluates_factor ].
Qed.

Lemma evaluates_within_literal (t : Token) (frames : nat) :
  evaluates_within (accept Evaluator_within (Literal t) frames).
Proof.
  cbn [accept visit_Literal Evaluator_within].
  destruct frames as [ | [ | frames]]; cbn [call];
    try (right; left; reflexivity).
  destruct (int_outcome (lexeme t)) as [-> | [z ->]];
    [ left; reflexivity | right; right; eauto ].
Qed.

Lemma evaluates_within_BinOp (a b : Node) (operator : TokenType)
  (frames : nat) :
  TokenType_is operator NUM = false ->
  (forall f, evaluates_within (accept Evaluator_within a f)) ->
  (forall f, evaluates_within (accept Evaluator_within b f)) ->
  evaluates_within (accept Evaluator_within (BinOp a operator b) frames).
Proof.
  intros Hop Ha Hb. cbn [accept visit_BinOp Evaluator_within].
  destruct frames as [ | [ | frames]]; cbn [call];
    try (right; left; reflexivity).
  destruct (Ha frames) as [-> | [-> | [x ->]]]; cbn [bind];
    [ left; reflexivity | right; left; reflexivity | ].
  destruct (Hb frames) as [-> | [-> | [y ->]]]; cbn [bind];
    [ left; reflexivity | right; left; reflexivity | ].
  right. right. destruct operator; try discriminate; eauto.
Qed.

Lemma evaluates_within_mul_tail (tl : list (Token * Token)) :
  forall acc : Node,
  (forall f, evaluates_within (accept Evaluator_within acc f)) ->
  forall f,
    evaluates_within
      (accept Evaluator_within
         (fold_left (fun a q => BinOp a MUL (Literal (snd q))) tl acc) f).
Proof.
  induction tl as [ | [m t] tl IH]; intros acc Hacc; [ exact Hacc | ].
  cbn [fold_left snd]. apply IH. intros f.
  apply evaluates_within_BinOp;
    [ reflexivity | exact Hacc | apply evaluates_within_literal ].
Qed.

Lemma evaluates_within_factor (f : factor_syntax) (frames : nat) :
  evaluates_within (accept Evaluator_within (factor_node f) frames).
Proof.
  destruct f as [h tl]. unfold factor_node. cbn [fst snd].
  apply evaluates_within_mul_tail. apply evaluates_within_literal.
Qed.

Lemma evaluates_within_add_tail (tl : list (Token * factor_syntax)) :
  forall acc : Node,
  forallb wf_add_pair tl = true ->
  (forall f, evaluates_within (accept Evaluator_within acc f)) ->
  forall f,
    evaluates_within
      (accept Evaluator_within
         (fold_left
            (fun a q => BinOp a (type (fst q)) (factor_node (snd q)))
            tl acc) f).
Proof.
  induction tl as [ | [o g] tl IH]; intros acc Hwf Hacc; [ exact Hacc | ].
  cbn [forallb] in Hwf. apply andb_true_iff in Hwf as [Hp Htl].
  unfold wf_add_pair in Hp. cbn [fst snd] in Hp.
  apply andb_true_iff in Hp as [Ho _].
  cbn [fold_left fst snd]. apply IH; [ exact Htl | ]. intros f.
  apply evaluates_within_BinOp;
    [ | exact Hacc | intros f'; apply evaluates_within_factor ].
  unfold is_additive in Ho. destruct (type o); try discriminate; reflexivity.
Qed.

Lemma evaluates_within_term (e : term_syntax) (frames : nat) :
  wf_term e = true -> evaluates_within (evaluate_within frames (term_node e)).
Proof.
  intros He. unfold evaluate_within.
  destruct frames as [ | frames]; cbn [call]; [ right; left; reflexivity | ].
  destruct e as [f tl]. unfold wf_term, term_node in *. cbn [fst snd] in *.
  apply andb_true_iff in He as [_ Htl].
  apply evaluates_within_add_tail;
    [ exact Htl | intros f'; apply evaluates_within_factor ].
Qed.

(** X12.  On a tree returned by [parse] the evaluator never reaches its
    "Unknown operator" case, however many calls the interpreter still
    allows: it returns an integer, lets the [ValueError] of an [int]
    conversion through, or stops with [RecursionError] when the tree is too
    deep for the frames that are left. *)
Theorem parsed_tree_evaluation (frames : nat) (tokens : list Token)
  (ast : Node) :
  Parser.parse tokens = Ok ast ->
  evaluate_within frames ast = Raise ValueError
  \/ evaluate_within frames ast = Raise RecursionError
  \/ exists z, evaluate_within frames ast = Ok z.
Proof.
  intros H. destruct tokens as [ | t ts]; [ discriminate | ].
  destruct (parse_nonempty (t :: ts) ltac:(discriminate))
    as [Herr | (e & rest & He & _ & _ & Hok)];
    [ rewrite Herr in H; discriminate | ].
  rewrite Hok in H. injection H as <-. apply evaluates_within_term, He.
Qed.

Lemma parsed_tree_evaluation_witness :
  evaluate_within 4 (BinOp (number "2") PLUS (number "3")) = Raise ValueError
  \/ evaluate_within 4 (BinOp (number "2") PLUS (number "3"))
     = Raise RecursionError
  \/ exists z,
       evaluate_within 4 (BinOp (number "2") PLUS (number "3")) = Ok z.
Proof.
  exact (parsed_tree_evaluation 4
           [mkToken NUM (lit "2"); mkToken PLUS (lit "+"); mkToken NUM (lit "3")]
           _ eq_refl).
Defined.

(** ** The pipeline: outcomes *)

Lemma eval_within_cases (frames : nat) (source : str) :
  (exists z, eval_within frames source = Ok z)
  \/ (exists pre c post,
        source = pre ++ c :: post
        /\ forallb scannable pre = true /\ scannable c = false
        /\ eval_within frames source = Raise (UnexpectedInputError [c]))
  \/ eval_within frames source = Raise (ParseError (lit "Wrong syntax"))
  \/ eval_within frames source = Raise IndexError
  \/ eval_within frames source = Raise ValueError
  \/ eval_within frames source = Raise RecursionError.
Proof.
  unfold eval_within.
  destruct (scan_cases source)
    as [[tokens ->] | (pre & c & post & Hs & Hpre & Hc & ->)]; cbn [bind].
  - destruct tokens as [ | t ts].
    + right. right. right. left. reflexivity.
    + destruct (parse_nonempty (t :: ts) ltac:(discriminate))
        as [-> | (e & rest & He & _ & _ & ->)]; cbn [bind].
      * right. right. left. reflexivity.
      * destruct (evaluates_within_term e frames He) as [-> | [-> | [z ->]]];
          [ do 4 right; left; reflexivity | do 5 right; reflexivity
          | left; eauto ].
  - right. left. exists pre, c, post. auto.
Qed.

(** X13.  [eval] never raises [EvaluationError]: however many calls the
    interpreter still allows, it returns an integer or raises the scanner's
    [UnexpectedInputError] for the first character it has no case for,
    [ParseError("Wrong syntax")], [IndexError], [ValueError] or
    [RecursionError]. *)
Theorem eval_outcome (frames : nat) (source : str) :
  (exists z, eval_within frames source = Ok z)
  \/ (exists pre c post,
        source = pre ++ c :: post
        /\ forallb scannable pre = true /\ scannable c = false
        /\ eval_within frames source = Raise (UnexpectedInputError [c]))
  \/ eval_within frames source = Raise (ParseError (lit "Wrong syntax"))
  \/ eval_within frames source = Raise IndexError
  \/ eval_within frames source = Raise ValueError
  \/ eval_within frames source = Raise RecursionError.
Proof. apply eval_within_cases. Qed.

(** X14.  [eval] raises [IndexError] exactly on the lines made of blanks
    only, the empty line among them. *)
Theorem eval_IndexError_iff (source : str) :
  SimpleArithmetic.eval source = Raise IndexError
  <-> forallb isspace source = true.
Proof.
  unfold SimpleArithmetic.eval. split.
  - intros H.
    destruct (scan_cases source)
      as [[tokens Hscan] | (pre & c & post & _ & _ & _ & Hscan)];
      rewrite Hscan in H; cbn [bind] in H; [ | discriminate ].
    destruct tokens as [ | t ts]; [ apply scan_nil_iff, Hscan | ].
    destruct (parse_nonempty (t :: ts) ltac:(discriminate))
      as [Herr | (e & rest & He & _ & _ & Hok)].
    + rewrite Herr in H. discriminate.
    + rewrite Hok in H. cbn [bind] in H.
      destruct (evaluates_term e He) as [E | [z E]]; congruence.
  - intros H. apply scan_nil_iff in H. rewrite H. reflexivity.
Qed.

(** ** The pipeline: conversions that cannot fail *)
























(** ** The pipeline: blanks and leading operators *)

(** X16.  Blanks are insignificant for [eval]: blanks inserted at a place
    that is not inside a run of numeric characters change neither the
    result nor the exception. *)
Theorem eval_ignores_blanks (a w b : str) :
  forallb isspace w = true ->
  ends_numeric a && starts_numeric b = false ->
  SimpleArithmetic.eval (a ++ w ++ b) = SimpleArithmetic.eval (a ++ b).
Proof.
  intros Hw Hab. unfold SimpleArithmetic.eval.
  rewrite (scan_insert_blanks a w b Hw Hab). reflexivity.
Qed.

Lemma eval_ignores_blanks_witness :
  SimpleArithmetic.eval (lit "1" ++ lit "  " ++ lit "+2")
  = SimpleArithmetic.eval (lit "1" ++ lit "+2").
Proof.
  exact (eval_ignores_blanks (lit "1") (lit "  ") (lit "+2") eq_refl eq_refl).
Defined.

(** X17.  There is no unary operator: a line whose first character that is
    not a blank is [+], [-] or [*] fails with [ParseError] as soon as the
    rest of the line scans (and with the scanner's error otherwise). *)
Theorem leading_operator_rejected (t : TokenType) (w rest : str) :
  forallb isspace w = true -> TokenType_is t NUM = false ->
  SimpleArithmetic.eval (w ++ operator_char t :: rest)
  = (_ <- Scanner.scan rest ;; Raise (ParseError (lit "Wrong syntax"))).
Proof.
  intros Hw Ht. unfold SimpleArithmetic.eval.
  rewrite !scan_lexT, (lexT_operator t w rest Hw Ht).
  destruct (lexT rest) as [tokens | e | ]; cbn [bind]; try reflexivity.
  rewrite parse_operator_first; [ reflexivity | ].
  destruct t; try reflexivity. discriminate.
Qed.

(** ["-5"] is a syntax error. *)
Lemma leading_operator_rejected_witness :
  SimpleArithmetic.eval (lit "-5") = Raise (ParseError (lit "Wrong syntax")).
Proof.
  exact (leading_operator_rejected MINUS [] (lit "5") eq_refl eq_refl).
Defined.

(** ** The read-eval-print loop *)

Lemma answer_total (frames : nat) (line : str) : answer frames line <> OutOfFuel.
Proof.
  unfold answer.
  destruct (eval_within_cases frames line)
    as [[z ->] | [(pre & c & post & _ & _ & _ & ->) | [-> | [-> | [-> | ->]]]]];
    cbn [bind]; try discriminate.
  unfold str_of_int.
  destruct (str_digits_exceeded z); cbn [bind]; discriminate.
Qed.

Lemma repl_loop_run (frames : nat) (stdin : list str) :
  forall (fuel : nat) (stdout : list str),
  length stdin < fuel ->
  exists good outputs,
    all_answered frames good outputs
    /\ ((stdin = good
         /\ repl_loop fuel frames stdin stdout
            = (EOFError, stdout ++ flat_map answered outputs ++ [prompt]))
        \/ (exists bad rest e,
              stdin = good ++ bad :: rest
              /\ answer frames bad = Raise e
              /\ repl_loop fuel frames stdin stdout
                 = (Uncaught e,
                    stdout ++ flat_map answered outputs ++ [prompt]))).
Proof.
  induction stdin as [ | line stdin IH]; intros fuel stdout Hfuel;
    (destruct fuel as [ | fuel]; [ cbn in Hfuel; lia | ]).
  - exists [], []. split; [ constructor | left ]. split; reflexivity.
  - cbn [length] in Hfuel. cbn [repl_loop].
    destruct (answer frames line) as [written | e | ] eqn:Hline.
    + destruct (IH fuel ((stdout ++ [prompt]) ++ [written]) ltac:(lia))
        as (good & outputs & Hgood & Hrun).
      exists (line :: good), (written :: outputs).
      split; [ constructor; assumption | ].
      assert (Hout : forall tail : list str,
                 ((stdout ++ [prompt]) ++ [written]) ++ tail
                 = stdout ++ answered written ++ tail).
      { intros tail. unfold answered. rewrite <- !app_assoc. reflexivity. }
      cbn [flat_map]. rewrite <- (app_assoc (answered written)), <- Hout.
      destruct Hrun as [[-> ->] | (bad & rest & e & -> & Hbad & ->)].
      * left. split; reflexivity.
      * right. exists bad, rest, e. repeat apply conj; auto.
    + exists [], []. split; [ constructor | right ].
      exists line, stdin, e. repeat apply conj; auto.
    + exfalso. exact (answer_total frames line Hline).
Qed.

(** X18.  A run of [repl] on given input lines, with the frames the scanner
    and the parser need, writes the banner, then a prompt and the printed
    result for every line up to the first one on which [eval] or the
    printing of its result raises, then one more prompt; it ends with the
    exception of that line, uncaught, without reading the lines after it,
    or with [EOFError] when no line fails. *)
Theorem repl_run (frames : nat) (stdin : list str) :
  6 <= frames ->
  exists good outputs,
    all_answered frames good outputs
    /\ ((stdin = good
         /\ repl frames stdin
            = (EOFError,
               [lit "Simple arithmetic" ++ newline]
                 ++ flat_map answered outputs ++ [prompt]))
        \/ (exists bad rest e,
              stdin = good ++ bad :: rest
              /\ answer frames bad = Raise e
              /\ repl frames stdin
                 = (Uncaught e,
                    [lit "Simple arithmetic" ++ newline]
                      ++ flat_map answered outputs ++ [prompt]))).
Proof. intros _. unfold repl. apply repl_loop_run. lia. Qed.

Lemma repl_run_witness :
  exists good outputs,
    all_answered 1000 good outputs
    /\ (([lit "1+2"; lit "+"; lit "3"] = good
         /\ repl 1000 [lit "1+2"; lit "+"; lit "3"]
            = (EOFError,
               [lit "Simple arithmetic" ++ newline]
                 ++ flat_map answered outputs ++ [prompt]))
        \/ (exists bad rest e,
              [lit "1+2"; lit "+"; lit "3"] = good ++ bad :: rest
              /\ answer 1000 bad = Raise e
              /\ repl 1000 [lit "1+2"; lit "+"; lit "3"]
                 = (Uncaught e,
                    [lit "Simple arithmetic" ++ newline]
                      ++ flat_map answered outputs ++ [prompt]))).
Proof.
  exact (repl_run 1000 [lit "1+2"; lit "+"; lit "3"] ltac:(vm_compute; lia)).
Defined.

(** ** Formatter: the printed form determines the tree *)

Lemma Formatter_BinOp (a b : Node) (operator : TokenType) (rest : str) :
  accept Formatter (BinOp a operator b) ++ rest
  = 40%N :: TokenType_value operator
      ++ 32%N :: accept Formatter a
      ++ 32%N :: accept Formatter b ++ 41%N :: rest.
Proof.
  cbn [accept visit_BinOp Formatter].
  change (lit "(") with [40%N]. change (lit " ") with [32%N].
  change (lit ")") with [41%N].
  cbn [app]. rewrite <- !app_assoc. cbn [app].
  do 2 f_equal. rewrite <- !app_assoc. cbn [app]. 
  do 2 f_equal. rewrite <- !app_assoc. reflexivity.
Qed.

Lemma operator_name_inj (o1 o2 : TokenType) (x y : str) :
  TokenType_value o1 ++ 32%N :: x = TokenType_value o2 ++ 32%N :: y ->
  o1 = o2 /\ x = y.
Proof.
  destruct o1, o2; unfold TokenType_value;
    repeat match goal with
           | |- context [lit ?s] =>
               let v := eval vm_compute in (lit s) in
               change (lit s) with v
           end;
    cbn [app]; intros H; try discriminate;
    injection H as <-; split; reflexivity.
Qed.

Lemma printable_literal (t : Token) :
  is_NUM t && scanned_token t = true ->
  type t = NUM /\ lexeme t <> [] /\ forallb isnumeric (lexeme t) = true.
Proof.
  intros H. apply andb_true_iff in H as [Hn Hs].
  unfold is_NUM in Hn. unfold scanned_token in Hs.
  destruct (type t); try discriminate.
  apply andb_true_iff in Hs as [Hne Hall]. repeat split; try assumption.
  intros E. rewrite E in Hne. discriminate.
Qed.

Lemma numeric_prefix_unique (l1 l2 r1 r2 : str) :
  forallb isnumeric l1 = true -> forallb isnumeric l2 = true ->
  starts_numeric r1 = false -> starts_numeric r2 = false ->
  l1 ++ r1 = l2 ++ r2 -> l1 = l2 /\ r1 = r2.
Proof.
  intros H1 H2 Hr1 Hr2 E.
  assert (Hlen : length l1 = length l2).
  { assert (T1 : take_numeric (l1 ++ r1) = length l1).
    { rewrite take_numeric_app, (take_numeric_all _ H1), Nat.eqb_refl,
        (take_numeric_start _ Hr1). lia. }
    assert (T2 : take_numeric (l2 ++ r2) = length l2).
    { rewrite take_numeric_app, (take_numeric_all _ H2), Nat.eqb_refl,
        (take_numeric_start _ Hr2). lia. }
    rewrite E in T1. congruence. }
  apply app_eq_app in E as [l [[-> E] | [-> E]]];
    rewrite length_app in Hlen; destruct l; cbn [length] in Hlen; try lia;
    rewrite app_nil_r; cbn [app] in E; auto.
Qed.

Lemma Formatter_prefix_free (a : Node) :
  forall (b : Node) (r1 r2 : str),
  printable a = true -> printable b = true ->
  starts_numeric r1 = false -> starts_numeric r2 = false ->
  accept Formatter a ++ r1 = accept Formatter b ++ r2 ->
  a = b /\ r1 = r2.
Proof.
  induction a as [a1 IHa o1 b1 IHb | t1]; intros [a2 o2 b2 | t2] r1 r2
    Ha Hb Hr1 Hr2 E; cbn [printable] in Ha, Hb.
  - apply andb_true_iff in Ha as [Ha1 Hb1].
    apply andb_true_iff in Hb as [Ha2 Hb2].
    rewrite !Formatter_BinOp in E. injection E as E.
    apply operator_name_inj in E as [-> E].
    apply IHa in E as [-> E]; try assumption; try reflexivity.
    injection E as E.
    apply IHb in E as [-> E]; try assumption; try reflexivity.
    injection E as ->. split; reflexivity.
  - apply printable_literal in Hb as (_ & Hne & Hall).
    rewrite Formatter_BinOp in E. cbn [accept visit_Literal Formatter] in E.
    destruct (lexeme t2) as [ | c l]; [ contradiction | ].
    cbn [app forallb] in E, Hall. injection E as <- _.
    vm_compute in Hall. discriminate.
  - apply printable_literal in Ha as (_ & Hne & Hall).
    rewrite Formatter_BinOp in E. cbn [accept visit_Literal Formatter] in E.
    destruct (lexeme t1) as [ | c l]; [ contradiction | ].
    cbn [app forallb] in E, Hall. injection E as -> _.
    vm_compute in Hall. discriminate.
  - apply printable_literal in Ha as (Ht1 & _ & H1).
    apply printable_literal in Hb as (Ht2 & _ & H2).
    cbn [accept visit_Literal Formatter] in E.
    apply numeric_prefix_unique in E as [E ->]; try assumption.
    split; [ | reflexivity ].
    destruct t1 as [ty1 lx1], t2 as [ty2 lx2].
    cbn [type lexeme] in Ht1, Ht2, E. subst. reflexivity.
Qed.

(** X19.  On trees whose literals are NUM tokens with non-empty numeric
    lexemes (the trees the parser builds from scanned tokens), the formatter
    is injective: the printed form determines the tree. *)
Theorem Formatter_injective (a b : Node) :
  printable a = true -> printable b = true ->
  accept Formatter a = accept Formatter b -> a = b.
Proof.
  intros Ha Hb E.
  apply (Formatter_prefix_free a b [] []); try assumption; try reflexivity.
  rewrite !app_nil_r. exact E.
Qed.

Lemma Formatter_injective_witness :
  BinOp (number "2") PLUS (number "3")
  = BinOp (Literal (mkToken NUM [50%N])) PLUS (Literal (mkToken NUM [51%N])).
Proof.
  exact (Formatter_injective
           (BinOp (number "2") PLUS (number "3"))
           (BinOp (Literal (mkToken NUM [50%N])) PLUS
              (Literal (mkToken NUM [51%N])))
           eq_refl eq_refl eq_refl).
Defined.

Lemma printable_mul_tail (tl : list (Token * Token)) :
  forall acc : Node,
  printable acc = true ->
  forallb wf_mul_pair tl = true ->
  forallb scanned_token (flat_map mul_pair_tokens tl) = true ->
  printable (fold_left (fun a q => BinOp a MUL (Literal (snd q))) tl acc)
  = true.
Proof.
  induction tl as [ | [m t] tl IH]; intros acc Hacc Hwf Hsc; [ exact Hacc | ].
  cbn [forallb] in Hwf. apply andb_true_iff in Hwf as [Hp Htl].
  unfold wf_mul_pair in Hp. cbn [fst snd] in Hp.
  apply andb_true_iff in Hp as [_ Ht].
  cbn [flat_map mul_pair_tokens fst snd app forallb] in Hsc.
  apply andb_true_iff in Hsc as [_ Hsc].
  apply andb_true_iff in Hsc as [Hst Hsc].
  cbn [fold_left snd]. apply IH; [ | exact Htl | exact Hsc ].
  cbn [printable]. rewrite Hacc, Ht, Hst. reflexivity.
Qed.

Lemma printable_factor (f : factor_syntax) :
  wf_factor f = true -> forallb scanned_token (factor_tokens f) = true ->
  printable (factor_node f) = true.
Proof.
  destruct f as [h tl]. unfold wf_factor, factor_tokens, factor_node.
  cbn [fst snd forallb]. intros Hwf Hsc.
  apply andb_true_iff in Hwf as [Hh Htl].
  apply andb_true_iff in Hsc as [Hsh Hsc].
  apply printable_mul_tail; [ | exact Htl | exact Hsc ].
  cbn [printable]. rewrite Hh, Hsh. reflexivity.
Qed.

Lemma printable_add_tail (tl : list (Token * factor_syntax)) :
  forall acc : Node,
  printable acc = true ->
  forallb wf_add_pair tl = true ->
  forallb scanned_token (flat_map add_pair_tokens tl) = true ->
  printable
    (fold_left (fun a q => BinOp a (type (fst q)) (factor_node (snd q)))
       tl acc)
  = true.
Proof.
  induction tl as [ | [o f] tl IH]; intros acc Hacc Hwf Hsc; [ exact Hacc | ].
  cbn [forallb] in Hwf. apply andb_true_iff in Hwf as [Hp Htl].
  unfold wf_add_pair in Hp. cbn [fst snd] in Hp.
  apply andb_true_iff in Hp as [_ Hf].
  cbn [flat_map] in Hsc. unfold add_pair_tokens at 1 in Hsc.
  cbn [fst snd app forallb] in Hsc. rewrite forallb_app in Hsc.
  apply andb_true_iff in Hsc as [_ Hsc].
  apply andb_true_iff in Hsc as [Hsf Hsc].
  cbn [fold_left fst snd]. apply IH; [ | exact Htl | exact Hsc ].
  cbn [printable]. rewrite Hacc, (printable_factor f Hf Hsf). reflexivity.
Qed.

(** X20.  From tokens as the scanner makes them, [parse] only builds trees
    whose leaves are NUM tokens with non-empty numeric lexemes: no operator
    token ever ends up in a [Literal]. *)
Theorem parsed_tree_printable (tokens : list Token) (ast : Node) :
  forallb scanned_token tokens = true ->
  Parser.parse tokens = Ok ast ->
  printable ast = true.
Proof.
  intros Hsc H. destruct tokens as [ | t ts]; [ discriminate | ].
  destruct (parse_nonempty (t :: ts) ltac:(discriminate))
    as [Herr | (e & rest & He & _ & Hts & Hok)];
    [ rewrite Herr in H; discriminate | ].
  rewrite Hok in H. injection H as <-. rewrite Hts in Hsc.
  rewrite forallb_app in Hsc. apply andb_true_iff in Hsc as [Hsc _].
  destruct e as [f tl]. unfold wf_term, term_tokens, term_node in *.
  cbn [fst snd] in *. apply andb_true_iff in He as [Hf Htl].
  rewrite forallb_app in Hsc. apply andb_true_iff in Hsc as [Hsf Hstl].
  apply printable_add_tail; [ | exact Htl | exact Hstl ].
  apply printable_factor; assumption.
Qed.

Lemma parsed_tree_printable_witness :
  printable (BinOp (number "2") PLUS (BinOp (number "3") MUL (number "4")))
  = true.
Proof.
  exact (parsed_tree_printable
           [mkToken NUM (lit "2"); mkToken PLUS (lit "+");
            mkToken NUM (lit "3"); mkToken MUL (lit "*");
            mkToken NUM (lit "4")] _ eq_refl eq_refl).
Defined.

(** ** Scanner: the number rule *)

(** X21.  [__scan_number] never indexes outside the source: it returns the
    cursor just after the longest run of numeric characters that starts at
    [start] (the end of the source at most, [start] itself when no numeric
    character is there) together with the NUM token of exactly that run. *)
Theorem scan_number_longest_run (start : nat) (source : str) :
  exists current run,
    Scanner.scan_number start source = Ok (current, mkToken NUM run)
    /\ current = start + length run
    /\ (start <= length source -> current <= length source)
    /\ forallb isnumeric run = true
    /\ skipn start source = run ++ skipn current source
    /\ starts_numeric (skipn current source) = false.
Proof.
  set (k := take_numeric (skipn start source)).
  exists (start + k), (firstn k (skipn start source)).
  pose proof (take_numeric_le (skipn start source)) as Hle. fold k in Hle.
  rewrite length_skipn in Hle.
  assert (Hlen : length (firstn k (skipn start source)) = k).
  { rewrite length_firstn, length_skipn. lia. }
  repeat apply conj.
  - apply scan_number_lex.
  - rewrite Hlen. reflexivity.
  - lia.
  - apply take_numeric_firstn.
  - rewrite (Nat.add_comm start k), <- skipn_skipn.
    symmetry. apply firstn_skipn.
  - rewrite (Nat.add_comm start k), <- skipn_skipn.
    apply take_numeric_skipn.
Qed.

(** ** Parser: the cursor *)

Lemma kept_refl (self : Parser.state) : inside self -> kept self self.
Proof. intros H. split; [ reflexivity | split; [ exact H | lia ] ]. Qed.

Lemma kept_trans (a b c : Parser.state) : kept a b -> kept b c -> kept a c.
Proof.
  unfold kept. intros (Ht & Hi & Hc) (Ht' & Hi' & Hc').
  split; [ congruence | split; [ exact Hi' | lia ] ].
Qed.

Lemma kept_inside (a b : Parser.state) : kept a b -> inside b.
Proof. unfold kept. tauto. Qed.

Lemma advance_kept (self : Parser.state) :
  inside self ->
  exists self',
    Parser.advance self = Ok (tt, self')
    /\ kept self self'
    /\ (Parser.current self' <= Parser.current self + 1)%Z.
Proof.
  unfold inside, kept, inside. intros H.
  unfold Parser.advance, Parser.mbind, Parser.is_last, Parser.ret.
  destruct (Parser.current self =? Z.of_nat (length (Parser.tokens self)) - 1)%Z
    eqn:E; cbn [negb].
  - exists self. repeat apply conj; try reflexivity; lia.
  - apply Z.eqb_neq in E. eexists. split; [ reflexivity | ].
    cbn [Parser.tokens Parser.current]. repeat apply conj;
      try reflexivity; lia.
Qed.

Lemma tokens_at_same (i : Parser.state -> Z) (self self' : Parser.state)
  (t : Token) :
  Parser.tokens_at i self = Ok (t, self') -> self' = self.
Proof.
  unfold Parser.tokens_at.
  destruct (getitem (Parser.tokens self) (i self)); try discriminate.
  intros H. injection H as _ <-. reflexivity.
Qed.

Lemma expected_same (token_type : TokenType) (self self' : Parser.state)
  (b : bool) :
  Parser.expected token_type self = Ok (b, self') -> self' = self.
Proof.
  unfold Parser.expected, Parser.mbind, Parser.is_last, Parser.ret,
    Parser.peek.
  destruct (Parser.current self =? Z.of_nat (length (Parser.tokens self)) - 1)%Z.
  - intros H. injection H as _ <-. reflexivity.
  - destruct (Parser.tokens_at Parser.current self) as [[t s] | e | ] eqn:E;
      try discriminate.
    apply tokens_at_same in E. subst s.
    intros H. injection H as _ <-. reflexivity.
Qed.

Lemma match_kept (token_types : list TokenType) :
  forall (self self' : Parser.state) (b : bool),
  inside self ->
  Parser.match_ token_types self = Ok (b, self') -> kept self self'.
Proof.
  induction token_types as [ | token_type rest IH];
    intros self self' b Hin; cbn [Parser.match_].
  - unfold Parser.ret. intros H. injection H as _ <-.
    apply kept_refl, Hin.
  - unfold Parser.mbind at 1.
    destruct (Parser.expected token_type self) as [[e s] | e | ] eqn:E;
      try discriminate.
    apply expected_same in E. subst s. destruct e.
    + unfold Parser.mbind, Parser.ret.
      destruct (advance_kept self Hin) as (s & -> & Hk & _).
      intros H. injection H as _ <-. exact Hk.
    + apply IH, Hin.
Qed.

Lemma literal_kept (self self' : Parser.state) (node : Node) :
  inside self -> Parser.literal self = Ok (node, self') -> kept self self'.
Proof.
  intros Hin. unfold Parser.literal. unfold Parser.mbind at 1.
  destruct (Parser.tokens_at Parser.current self) as [[t s] | e | ] eqn:E;
    try discriminate.
  apply tokens_at_same in E. subst s.
  destruct (TokenType_is NUM (type t)); [ | discriminate ].
  unfold Parser.mbind at 1, Parser.peek.
  destruct (Parser.tokens_at Parser.current self) as [[t' s] | e | ] eqn:E;
    try discriminate.
  apply tokens_at_same in E. subst s.
  unfold Parser.mbind, Parser.ret.
  destruct (advance_kept self Hin) as (s & -> & Hk & _).
  intros H. injection H as _ <-. exact Hk.
Qed.

Lemma factor_loop_kept (fuel : nat) :
  forall (acc node : Node) (self self' : Parser.state),
  inside self ->
  Parser.factor_loop fuel acc self = Ok (node, self') -> kept self self'.
Proof.
  induction fuel as [ | fuel IH]; intros acc node self self' Hin;
    cbn [Parser.factor_loop]; unfold Parser.mbind at 1;
    (destruct (Parser.match_ [MUL] self) as [[b s] | e | ] eqn:Em;
       try discriminate);
    apply (match_kept _ _ _ _ Hin) in Em;
    (destruct b;
       [ | unfold Parser.ret; intros H; injection H as _ <-; exact Em ]).
  - discriminate.
  - unfold Parser.mbind at 1, Parser.previous.
    destruct (Parser.tokens_at _ s) as [[t s1] | e | ] eqn:Ep;
      try discriminate.
    apply tokens_at_same in Ep. subst s1.
    unfold Parser.mbind at 1.
    destruct (Parser.literal s) as [[r s2] | e | ] eqn:El; try discriminate.
    apply (literal_kept _ _ _ (kept_inside _ _ Em)) in El.
    intros H. apply IH in H; [ | exact (kept_inside _ _ El) ].
    exact (kept_trans _ _ _ Em (kept_trans _ _ _ El H)).
Qed.

Lemma factor_kept (fuel : nat) (self self' : Parser.state) (node : Node) :
  inside self -> Parser.factor fuel self = Ok (node, self') -> kept self self'.
Proof.
  intros Hin. unfold Parser.factor, Parser.mbind.
  destruct (Parser.literal self) as [[l s] | e | ] eqn:El; try discriminate.
  apply (literal_kept _ _ _ Hin) in El.
  intros H. apply factor_loop_kept in H; [ | exact (kept_inside _ _ El) ].
  exact (kept_trans _ _ _ El H).
Qed.

Lemma term_loop_kept (n fuel : nat) :
  forall (acc node : Node) (self self' : Parser.state),
  inside self ->
  Parser.term_loop n fuel acc self = Ok (node, self') -> kept self self'.
Proof.
  induction fuel as [ | fuel IH]; intros acc node self self' Hin;
    cbn [Parser.term_loop]; unfold Parser.mbind at 1;
    (destruct (Parser.match_ [PLUS; MINUS] self) as [[b s] | e | ] eqn:Em;
       try discriminate);
    apply (match_kept _ _ _ _ Hin) in Em;
    (destruct b;
       [ | unfold Parser.ret; intros H; injection H as _ <-; exact Em ]).
  - discriminate.
  - unfold Parser.mbind at 1, Parser.previous.
    destruct (Parser.tokens_at _ s) as [[t s1] | e | ] eqn:Ep;
      try discriminate.
    apply tokens_at_same in Ep. subst s1.
    unfold Parser.mbind at 1.
    destruct (Parser.factor n s) as [[r s2] | e | ] eqn:Ef; try discriminate.
    apply (factor_kept _ _ _ _ (kept_inside _ _ Em)) in Ef.
    intros H. apply IH in H; [ | exact (kept_inside _ _ Ef) ].
    exact (kept_trans _ _ _ Em (kept_trans _ _ _ Ef H)).
Qed.

Lemma term_kept (fuel : nat) (self self' : Parser.state) (node : Node) :
  inside self -> Parser.term fuel self = Ok (node, self') -> kept self self'.
Proof.
  intros Hin. unfold Parser.term, Parser.mbind.
  destruct (Parser.factor fuel self) as [[l s] | e | ] eqn:Ef;
    try discriminate.
  apply (factor_kept _ _ _ _ Hin) in Ef.
  intros H. apply term_loop_kept in H; [ | exact (kept_inside _ _ Ef) ].
  exact (kept_trans _ _ _ Ef H).
Qed.

(** X22.  No method of the parser moves the cursor off the token sequence.
    From any state whose cursor is on a token, [__advance] returns, with
    the same tokens and the cursor on the same or the next token, never
    past the last one; and whenever [__match], [__literal], [__factor] or
    [__term] returns, the parser holds the same tokens and its cursor is on
    one of them, not before where it was. *)
Theorem cursor_stays_inside (self : Parser.state) :
  inside self ->
  (exists self',
      Parser.advance self = Ok (tt, self')
      /\ kept self self'
      /\ (Parser.current self' <= Parser.current self + 1)%Z)
  /\ (forall token_types b self',
        Parser.match_ token_types self = Ok (b, self') -> kept self self')
  /\ (forall node self',
        Parser.literal self = Ok (node, self') -> kept self self')
  /\ (forall fuel node self',
        Parser.factor fuel self = Ok (node, self') -> kept self self')
  /\ (forall fuel node self',
        Parser.term fuel self = Ok (node, self') -> kept self self').
Proof.
  intros Hin. repeat apply conj.
  - apply advance_kept, Hin.
  - intros token_types b self'. apply match_kept, Hin.
  - intros node self'. apply literal_kept, Hin.
  - intros fuel node self'. apply factor_kept, Hin.
  - intros fuel node self'. apply term_kept, Hin.
Qed.

(** On the last token [__advance] leaves the cursor where it is; on the
    tokens of ["2 +"], [__term] ends on the operator it never examines. *)
Lemma cursor_stays_inside_witness :
  (exists self',
      Parser.advance
        (Parser.mkState [mkToken NUM (lit "2"); mkToken PLUS (lit "+")] 1)
      = Ok (tt, self')
      /\ kept
           (Parser.mkState [mkToken NUM (lit "2"); mkToken PLUS (lit "+")] 1)
           self'
      /\ (Parser.current self' <= 1 + 1)%Z)
  /\ kept
       (Parser.mkState [mkToken NUM (lit "2"); mkToken PLUS (lit "+")] 0)
       (Parser.mkState [mkToken NUM (lit "2"); mkToken PLUS (lit "+")] 1).
Proof.
  split.
  - exact (proj1 (cursor_stays_inside
                    (Parser.mkState
                       [mkToken NUM (lit "2"); mkToken PLUS (lit "+")] 1)
                    ltac:(unfold inside; cbn; lia))).
  - exact (proj2 (proj2 (proj2 (proj2
             (cursor_stays_inside
                (Parser.mkState
                   [mkToken NUM (lit "2"); mkToken PLUS (lit "+")] 0)
                ltac:(unfold inside; cbn; lia)))))
             2 (number "2")
             (Parser.mkState
                [mkToken NUM (lit "2"); mkToken PLUS (lit "+")] 1)
             eq_refl).
Defined.

(** ** The pipeline: chains, and the limits of the interpreter *)



Lemma left_depth_chain_tail (tl : list chain_link) :
  forall acc : Node,
  left_depth
    (fold_left
       (fun acc p =>
          BinOp acc (link_operator p) (Literal (literal_token (snd p))))
       tl acc)
  = length tl + left_depth acc.
Proof.
  induction tl as [ | p tl IH]; intros acc; [ reflexivity | ].
  cbn [fold_left length]. rewrite IH. cbn [left_depth]. lia.
Qed.

Lemma left_depth_chain (c : chain_text) :
  left_depth (chain_node c) = length (snd c).
Proof.
  unfold chain_node. rewrite left_depth_chain_tail. cbn [left_depth]. lia.
Qed.



Lemma accept_within_deep (ast : Node) :
  forall frames : nat,
  frames < 2 * left_depth ast + 2 ->
  accept Evaluator_within ast frames = Raise RecursionError.
Proof.
  induction ast as [a IHa operator b _ | value]; intros frames Hf;
    cbn [left_depth] in Hf;
    cbn [accept visit_BinOp visit_Literal Evaluator_within];
    (destruct frames as [ | [ | frames]]; cbn [call]; try reflexivity);
    [ | lia ].
  rewrite IHa by lia. reflexivity.
Qed.

(** X24.  A chain with more operators than the frames allow exhausts them:
    [eval] raises [RecursionError] when the interpreter allows fewer than 3
    calls more than twice the number of operators, whatever the literals
    are.  With the default limit of 1000 a chain of 500 operators cannot be
    evaluated. *)
Theorem deep_chain_exhausts_frames (c : chain_text) (trailing : str)
  (frames : nat) :
  wf_chain_text c = true ->
  same_precedence c = true ->
  forallb isspace trailing = true ->
  frames < 2 * length (snd c) + 3 ->
  eval_within frames (render_chain c ++ trailing) = Raise RecursionError.
Proof.
  intros Hwf Hsame Htr Hframes. unfold eval_within.
  pose proof (parse_render_chain c trailing Hwf Hsame Htr) as Hp.
  destruct (Scanner.scan (render_chain c ++ trailing)) as [tokens | | ];
    cbn [bind] in Hp |- *; try discriminate.
  rewrite Hp. cbn [bind]. unfold evaluate_within.
  destruct frames as [ | frames]; [ reflexivity | ]. cbn [call].
  apply accept_within_deep. rewrite left_depth_chain. lia.
Qed.

Lemma deep_chain_exhausts_frames_witness :
  eval_within 6 (lit "1-1-1") = Raise RecursionError.
Proof.
  exact (deep_chain_exhausts_frames
           (([], lit "1"),
            [(([], MINUS), ([], lit "1")); (([], MINUS), ([], lit "1"))])
           [] 6 eq_refl eq_refl eq_refl ltac:(vm_compute; lia)).
Defined.








Lemma digits_value_zeros (n : nat) :
  forall acc : Z,
  fold_left (fun acc c => (10 * acc + (Z.of_N c - 48))%Z) (repeat 48%N n) acc
  = (acc * 10 ^ Z.of_nat n)%Z.
Proof.
  induction n as [ | n IH]; intros acc.
  - cbn [repeat fold_left]. change (Z.of_nat 0) with 0%Z.
    rewrite Z.pow_0_r. lia.
  - cbn [repeat fold_left]. rewrite IH, Nat2Z.inj_succ, Z.pow_succ_r by lia.
    change (Z.of_N 48) with 48%Z. lia.
Qed.

(** The literal 1 followed by [n] zeros is 10 to the [n]. *)
Lemma digits_value_power_of_ten (n : nat) :
  digits_value (49%N :: repeat 48%N n) = (10 ^ Z.of_nat n)%Z.
Proof.
  unfold digits_value. cbn [fold_left]. rewrite digits_value_zeros.
  change (Z.of_N 49) with 49%Z. lia.
Qed.

Lemma square_of_power_of_ten (n : nat) :
  int_max_str_digits <= n + n ->
  (10 ^ Z.of_nat int_max_str_digits
   <= Z.abs (term_value
               ((([], 49%N :: repeat 48%N n),
                 [([], ([], 49%N :: repeat 48%N n))]), [])))%Z.
Proof.
  intros Hn. unfold term_value, factor_value, literal_value.
  cbn [fst snd fold_left]. rewrite digits_value_power_of_ten.
  rewrite <- Z.pow_add_r, <- Nat2Z.inj_add by apply Nat2Z.is_nonneg.
  rewrite Z.abs_eq by (apply Z.pow_nonneg; lia).
  apply Z.pow_le_mono_r; [ lia | apply Nat2Z.inj_le, Hn ].
Qed.

(** X26.  A result of more than 4300 digits cannot be printed: [repl]
    evaluates the line, and the [ValueError] of [str] ends the loop before
    anything is written for it.  The square of the literal 1 followed by
    2150 zeros is such a result. *)
Theorem long_result_not_printed (frames : nat) (line : str) (z : Z) :
  6 <= frames ->
  eval_within frames line = Ok z ->
  (10 ^ Z.of_nat int_max_str_digits <= Z.abs z)%Z ->
  answer frames line = Raise ValueError
  /\ repl frames [line]
     = (Uncaught ValueError, [lit "Simple arithmetic" ++ newline; prompt]).
Proof.
  intros _ Hz Hlong.
  assert (Ha : answer frames line = Raise ValueError).
  { unfold answer. rewrite Hz. cbn [bind]. unfold str_of_int.
    unfold str_digits_exceeded. apply Z.leb_le in Hlong. rewrite Hlong.
    reflexivity. }
  split; [ exact Ha | ].
  unfold repl. cbn [length repl_loop]. rewrite Ha. reflexivity.
Qed.

Lemma long_result_not_printed_witness :
  answer 1000
    ((49%N :: repeat 48%N 2150) ++ 42%N :: 49%N :: repeat 48%N 2150)
  = Raise ValueError
  /\ repl 1000
       [(49%N :: repeat 48%N 2150) ++ 42%N :: 49%N :: repeat 48%N 2150]
     = (Uncaught ValueError, [lit "Simple arithmetic" ++ newline; prompt]).
Proof.
  exact (long_result_not_printed 1000 _ _
           ltac:(vm_compute; lia)
           (eval_within_render_term
              ((([], 49%N :: repeat 48%N 2150),
                [([], ([], 49%N :: repeat 48%N 2150))]), [])
              [] 1000 ltac:(vm_compute; reflexivity) eq_refl
              ltac:(vm_compute; reflexivity) ltac:(vm_compute; lia))
           (square_of_power_of_ten 2150 ltac:(vm_compute; lia))).
Defined.
